(** * Jumping Ball: a shallow embedding of the level, player and game logic

    The C++ sources (src/level/Level.cpp, src/player/Player.cpp,
    src/game/Game.cpp, src/config/Config.h) are translated function by
    function.  [float] is IEEE-754 binary32, taken from the standard
    library's executable specification [SpecFloat] at precision 24 and
    maximal exponent 128: every arithmetic operation is rounded to nearest
    even after each step, as a C++ compiler does without contraction to
    fused multiply-add and without excess precision.  [int] values are
    [Z]; none of the integer expressions of the program can leave the
    32-bit range on the states considered, so no wrap-around appears.

    The raylib calls are the external collaborators: the frame time and the
    key state are inputs of each frame, the random generator is an abstract
    state with one operation ([Raylib]).  Drawing is not modelled. *)

From Stdlib Require Import ZArith List Bool Lia.
From Stdlib Require Import Floats.SpecFloat.
Import ListNotations.
Open Scope Z_scope.

(** ** Single-precision arithmetic *)

Definition float : Type := spec_float.

Module F32.

Definition prec : Z := 24.
Definition emax : Z := 128.

Definition add : float -> float -> float := SFadd prec emax.
Definition sub : float -> float -> float := SFsub prec emax.
Definition mul : float -> float -> float := SFmul prec emax.
Definition div : float -> float -> float := SFdiv prec emax.

(** The four comparisons of C++; each is false as soon as one side is NaN. *)
Definition ltb (a b : float) : bool := SFltb a b.
Definition leb (a b : float) : bool := SFleb a b.
Definition gtb (a b : float) : bool := ltb b a.
Definition geb (a b : float) : bool := leb b a.

(** [std::max(a, b)] is [(a < b) ? b : a]; [std::min(a, b)] is
    [(b < a) ? b : a]. *)
Definition max (a b : float) : float := if ltb a b then b else a.
Definition min (a b : float) : float := if ltb b a then b else a.

(** [(float)n] for an [int] n. *)
Definition of_int (n : Z) : float := binary_normalize prec emax n 0 false.

Definition int_min : Z := - 2 ^ 31.
Definition int_max : Z := 2 ^ 31 - 1.

(** [(int)f]: truncation toward zero.  C++ leaves the cast of a NaN, of an
    infinity and of a value outside [int] undefined; the model returns
    what the x86 conversion instruction returns there, [int_min]. *)
Definition to_int (f : float) : Z :=
  match f with
  | S754_zero _ => 0
  | S754_finite s m e =>
      let v := Z.shiftl (Zpos m) e in
      let r := if s then - v else v in
      if (int_min <=? r) && (r <=? int_max) then r else int_min
  | _ => int_min
  end.

Definition zero : float := S754_zero false.

(** The literals [0.25f], [0.4f] and [0.6f]: the correctly rounded
    quotients 1/4, 2/5 and 3/5 are the binary32 numbers nearest to the
    decimal literals. *)
Definition c0_25 : float := Eval vm_compute in div (of_int 1) (of_int 4).
Definition c0_4 : float := Eval vm_compute in div (of_int 2) (of_int 5).
Definition c0_6 : float := Eval vm_compute in div (of_int 3) (of_int 5).

End F32.

(** ** Config.h *)

Record GameConfig := {
  screenWidth : Z;
  screenHeight : Z;
  radius : float;
  groundY : float;
  gravity : float;
  jumpVelocity : float;
  maxJumpHold : float;
  jumpHoldAccel : float;
  scrollSpeed : float;
  totalPlatforms : Z;
  minGap : float;
  maxGap : float;
  minPlatformWidth : float;
  maxPlatformWidth : float;
  platformHeight : float;
  minPlatformY : float;
  stepUpMin : float;
  stepUpMax : float;
  cloudCount : Z
}.

(** The default member initialisers of [GameConfig]. *)
Definition defaultConfig : GameConfig := {|
  screenWidth := 800;
  screenHeight := 450;
  radius := F32.of_int 20;
  groundY := F32.sub (F32.of_int 450) (F32.of_int 80);
  gravity := F32.of_int 1000;
  jumpVelocity := F32.of_int (-550);
  maxJumpHold := F32.c0_25;
  jumpHoldAccel := F32.of_int (-1200);
  scrollSpeed := F32.of_int 220;
  totalPlatforms := 200;
  minGap := F32.of_int 260;
  maxGap := F32.of_int 420;
  minPlatformWidth := F32.of_int 120;
  maxPlatformWidth := F32.of_int 200;
  platformHeight := F32.of_int 14;
  minPlatformY := F32.of_int 20;
  stepUpMin := F32.of_int 15;
  stepUpMax := F32.of_int 35;
  cloudCount := 10
|}.

(** ** The random generator of raylib

    [GetRandomValue(min, max)] is not part of the repository.  It is taken
    as an operation on an abstract generator state; [InRange] is its
    contract, assumed only where a statement says so. *)

Class Raylib := {
  Rng : Type;
  GetRandomValue : Z -> Z -> Rng -> Z * Rng
}.

Definition InRange {R : Raylib} : Prop :=
  forall lo hi (s : Rng), lo <= hi ->
    lo <= fst (GetRandomValue lo hi s) <= hi.

(** ** Level.h, Level.cpp *)

Record Platform := {
  x : float;
  yTop : float;
  width : float;
  counted : bool
}.

Record Cloud := {
  cx : float;
  cy : float;
  cw : float;
  ch : float;
  speed : float
}.

Module Level.

Record t := {
  totalPlatforms : Z;
  platforms : list Platform;
  clouds : list Cloud
}.

(** [Level::Level(int total)] *)
Definition make (total : Z) : t :=
  {| totalPlatforms := total; platforms := []; clouds := [] |}.

(** The loops [for (int i = 0; i < totalPlatforms; i++)] visit
    [platforms[0 .. totalPlatforms-1]].  After [generate] the vector has
    exactly that size.  Indexing past the end of the vector is undefined
    in C++; the model stops at the end of the vector. *)
Definition active (l : t) : list Platform :=
  firstn (Z.to_nat (totalPlatforms l)) (platforms l).

Definition rest (l : t) : list Platform :=
  skipn (Z.to_nat (totalPlatforms l)) (platforms l).

Section WithRaylib.
Context {R : Raylib}.

(** The three draws made for one platform, in source order. *)
Definition draw_platform (cfg : GameConfig) (s : Rng)
  : float * float * float * Rng :=
  let (g, s1) :=
    GetRandomValue (F32.to_int (minGap cfg)) (F32.to_int (maxGap cfg)) s in
  let (w, s2) :=
    GetRandomValue (F32.to_int (minPlatformWidth cfg))
                   (F32.to_int (maxPlatformWidth cfg)) s1 in
  let (st, s3) :=
    GetRandomValue (F32.to_int (stepUpMin cfg))
                   (F32.to_int (stepUpMax cfg)) s2 in
  (F32.of_int g, F32.of_int w, F32.of_int st, s3).

(** The body of the first loop of [generate], run [n] times. *)
Fixpoint generate_platforms (cfg : GameConfig) (n : nat)
         (cursor yTop0 : float) (s : Rng) : list Platform * Rng :=
  match n with
  | O => ([], s)
  | S k =>
      let '(gap, w, step, s1) := draw_platform cfg s in
      let cursor' := F32.add cursor gap in
      let yTop' := F32.max (minPlatformY cfg) (F32.sub yTop0 step) in
      let (ps, s2) := generate_platforms cfg k cursor' yTop' s1 in
      ({| x := cursor'; yTop := yTop'; width := w; counted := false |}
         :: ps, s2)
  end.

Definition new_cloud (cfg : GameConfig) (s : Rng) : Cloud * Rng :=
  let (vx, s1) := GetRandomValue 0 (screenWidth cfg + 600) s in
  let (vy, s2) := GetRandomValue 40 (Z.quot (screenHeight cfg) 2) s1 in
  let (vw, s3) := GetRandomValue 70 130 s2 in
  let (vs, s4) := GetRandomValue 15 35 s3 in
  ({| cx := F32.of_int vx; cy := F32.of_int vy; cw := F32.of_int vw;
      ch := F32.mul (F32.of_int vw) F32.c0_6; speed := F32.of_int vs |},
   s4).

Fixpoint generate_clouds (cfg : GameConfig) (n : nat) (s : Rng)
  : list Cloud * Rng :=
  match n with
  | O => ([], s)
  | S k =>
      let (c, s1) := new_cloud cfg s in
      let (cs, s2) := generate_clouds cfg k s1 in
      (c :: cs, s2)
  end.

(** [Level::generate]: both vectors are resized and every slot is
    overwritten.  This is the call with two sizes that are not negative,
    as in every run of [Game] (200 platforms, 10 clouds); the call with
    any two sizes is [generate_checked] below. *)
Definition generate (cfg : GameConfig) (l : t) (s : Rng) : t * Rng :=
  let startX := F32.add (F32.of_int (screenWidth cfg)) (F32.of_int 200) in
  let yTop0 := F32.sub (groundY cfg) (F32.of_int 20) in
  let (ps, s1) :=
    generate_platforms cfg (Z.to_nat (totalPlatforms l)) startX yTop0 s in
  let (cs, s2) := generate_clouds cfg (Z.to_nat (cloudCount cfg)) s1 in
  ({| totalPlatforms := totalPlatforms l; platforms := ps; clouds := cs |},
   s2).



(** First loop of [scroll]: shift every platform, track the largest x. *)
Fixpoint scroll_shift (dt : float) (cfg : GameConfig)
         (ps : list Platform) (rightMost : float)
  : list Platform * float :=
  match ps with
  | [] => ([], rightMost)
  | p :: tl =>
      let x' := F32.sub (x p) (F32.mul (scrollSpeed cfg) dt) in
      let rightMost' := if F32.gtb x' rightMost then x' else rightMost in
      let (tl', rm) := scroll_shift dt cfg tl rightMost' in
      ({| x := x'; yTop := yTop p; width := width p;
          counted := counted p |} :: tl', rm)
  end.

(** The test of the second loop. *)
Definition off_screen (p : Platform) : bool :=
  F32.ltb (F32.add (x p) (width p)) (F32.of_int (-60)).

(** Second loop of [scroll]: recycle what left the screen. *)
Fixpoint scroll_recycle (cfg : GameConfig) (ps : list Platform)
         (rightMost : float) (s : Rng) : list Platform * float * Rng :=
  match ps with
  | [] => ([], rightMost, s)
  | p :: tl =>
      if off_screen p then
        let '(gap, w, step, s1) := draw_platform cfg s in
        let newY := F32.max (minPlatformY cfg) (F32.sub (yTop p) step) in
        let p' := {| x := F32.add rightMost gap; yTop := newY;
                     width := w; counted := false |} in
        let '(tl', rm, s2) := scroll_recycle cfg tl (x p') s1 in
        (p' :: tl', rm, s2)
      else
        let '(tl', rm, s2) := scroll_recycle cfg tl rightMost s in
        (p :: tl', rm, s2)
  end.

(** Third loop of [scroll]: the clouds. *)
Fixpoint scroll_clouds (dt : float) (cfg : GameConfig)
         (cs : list Cloud) (s : Rng) : list Cloud * Rng :=
  match cs with
  | [] => ([], s)
  | c :: tl =>
      let x' := F32.sub (cx c) (F32.mul (speed c) dt) in
      if F32.ltb (F32.add x' (cw c)) (F32.of_int (-40)) then
        let (v1, s1) := GetRandomValue 80 280 s in
        let (v2, s2) := GetRandomValue 40 (Z.quot (screenHeight cfg) 2) s1 in
        let (v3, s3) := GetRandomValue 70 130 s2 in
        let (v4, s4) := GetRandomValue 15 35 s3 in
        let c' := {| cx := F32.add (F32.of_int (screenWidth cfg))
                                   (F32.of_int v1);
                     cy := F32.of_int v2; cw := F32.of_int v3;
                     ch := F32.mul (F32.of_int v3) F32.c0_6;
                     speed := F32.of_int v4 |} in
        let (tl', s5) := scroll_clouds dt cfg tl s4 in
        (c' :: tl', s5)
      else
        let (tl', s5) := scroll_clouds dt cfg tl s in
        ({| cx := x'; cy := cy c; cw := cw c; ch := ch c;
            speed := speed c |} :: tl', s5)
  end.

(** [Level::scroll] *)
Definition scroll (dt : float) (cfg : GameConfig) (l : t) (s : Rng)
  : t * Rng :=
  let (ps1, rm) := scroll_shift dt cfg (active l) F32.zero in
  let '(ps2, _, s1) := scroll_recycle cfg ps1 rm s in
  let (cs, s2) := scroll_clouds dt cfg (clouds l) s1 in
  ({| totalPlatforms := totalPlatforms l; platforms := ps2 ++ rest l;
      clouds := cs |}, s2).

End WithRaylib.

(** The test of [awardScore] for one platform. *)
Definition passed (ballX radius : float) (p : Platform) : bool :=
  negb (counted p)
  && F32.ltb (F32.add (x p) (width p)) (F32.sub ballX radius).

Fixpoint award_loop (ballX radius : float) (ps : list Platform)
         (gained : Z) : Z * list Platform :=
  match ps with
  | [] => (gained, [])
  | p :: tl =>
      if passed ballX radius p then
        let (g, tl') := award_loop ballX radius tl (gained + 1) in
        (g, {| x := x p; yTop := yTop p; width := width p;
               counted := true |} :: tl')
      else
        let (g, tl') := award_loop ballX radius tl gained in
        (g, p :: tl')
  end.

(** [Level::awardScore]: the value returned and the level afterwards. *)
Definition awardScore (ballX radius : float) (l : t) : Z * t :=
  let (g, ps) := award_loop ballX radius (active l) 0 in
  (g, {| totalPlatforms := totalPlatforms l; platforms := ps ++ rest l;
         clouds := clouds l |}).

(** The body of the loop of [checkCollision]: the closest-point test
    against one platform. *)
Definition hits (ballX ballY radius : float) (cfg : GameConfig)
           (p : Platform) : bool :=
  let rx := x p in
  let ry := yTop p in
  let rw := width p in
  let rh := platformHeight cfg in
  let closestX :=
    if F32.ltb ballX rx then rx
    else if F32.gtb ballX (F32.add rx rw) then F32.add rx rw else ballX in
  let closestY :=
    if F32.ltb ballY ry then ry
    else if F32.gtb ballY (F32.add ry rh) then F32.add ry rh else ballY in
  let dx := F32.sub ballX closestX in
  let dy := F32.sub ballY closestY in
  let distSq := F32.add (F32.mul dx dx) (F32.mul dy dy) in
  F32.ltb distSq (F32.mul radius radius).

(** [Level::checkCollision] *)
Definition checkCollision (ballX ballY radius : float) (cfg : GameConfig)
           (l : t) : bool :=
  existsb (hits ballX ballY radius cfg) (active l).

(** The condition under which a platform is a landing candidate. *)
Definition crosses (ballX prevY y radius : float) (p : Platform) : bool :=
  F32.geb (F32.add y radius) (yTop p)
  && F32.leb (F32.add prevY radius) (yTop p)
  && F32.leb (x p) ballX
  && F32.geb (F32.add (x p) (width p)) ballX.

(** The body of the loop of [resolveLanding] on the pair
    ([targetY], [landed]). *)
Definition landing_step (ballX prevY y radius : float)
           (st : float * bool) (p : Platform) : float * bool :=
  if crosses ballX prevY y radius p then
    if F32.ltb (yTop p) (fst st) then (yTop p, true) else st
  else st.

(** What [resolveLanding] returns, with the final values of the
    reference parameters [y], [vy] and [landedOnGround]. *)
Record Landing := {
  landed : bool;
  y' : float;
  vy' : float;
  landedOnGround : bool
}.

(** [Level::resolveLanding] *)
Definition resolveLanding (ballX prevY y vy radius : float)
           (cfg : GameConfig) (l : t) : Landing :=
  let st :=
    if F32.geb vy F32.zero then
      fold_left (landing_step ballX prevY y radius) (active l)
                (groundY cfg, false)
    else (groundY cfg, false) in
  if snd st then
    {| landed := true; y' := F32.sub (fst st) radius; vy' := F32.zero;
       landedOnGround := false |}
  else if F32.gtb y (groundY cfg) then
    {| landed := true; y' := groundY cfg; vy' := F32.zero;
       landedOnGround := true |}
  else
    {| landed := false; y' := y; vy' := vy; landedOnGround := false |}.

End Level.

(** ** Player.h, Player.cpp *)

Module Player.

Record t := {
  x : float;
  y : float;
  vy : float;
  rotation : float;
  jumpsRemaining : Z;
  isJumping : bool;
  grounded : bool;
  hasLeftGround : bool;
  jumpHoldTimer : float
}.

(** The default member initialisers. *)
Definition init : t := {|
  x := F32.zero; y := F32.zero; vy := F32.zero; rotation := F32.zero;
  jumpsRemaining := 2; isJumping := false; grounded := true;
  hasLeftGround := false; jumpHoldTimer := F32.zero
|}.

(** [Player::reset] *)
Definition reset (cfg : GameConfig) (p : t) : t := {|
  x := F32.mul (F32.of_int (screenWidth cfg)) F32.c0_25;
  y := groundY cfg;
  vy := F32.zero;
  rotation := F32.zero;
  jumpsRemaining := 2;
  isJumping := false;
  grounded := true;
  hasLeftGround := false;
  jumpHoldTimer := F32.zero
|}.

(** [Player::startJump] *)
Definition startJump (cfg : GameConfig) (p : t) : t :=
  if jumpsRemaining p <=? 0 then p
  else {|
    x := x p; y := y p;
    vy := jumpVelocity cfg;
    rotation := rotation p;
    jumpsRemaining := jumpsRemaining p - 1;
    isJumping := true;
    grounded := false;
    hasLeftGround := true;
    jumpHoldTimer := F32.zero
  |}.

(** [Player::update]; [keyDown] is [IsKeyDown(KEY_SPACE)]. *)
Definition update (dt : float) (keyDown : bool) (cfg : GameConfig) (p : t)
  : t :=
  let vy1 := F32.add (vy p) (F32.mul (gravity cfg) dt) in
  let hold :=
    keyDown && isJumping p
    && F32.ltb (jumpHoldTimer p) (maxJumpHold cfg) in
  let vy2 :=
    if hold then F32.add vy1 (F32.mul (jumpHoldAccel cfg) dt) else vy1 in
  let timer :=
    if hold then F32.add (jumpHoldTimer p) dt else jumpHoldTimer p in
  let y1 := F32.add (y p) (F32.mul vy2 dt) in
  let rot1 := F32.add (rotation p) (F32.mul (F32.of_int 630) dt) in
  let rot2 :=
    if F32.geb rot1 (F32.of_int 360) then F32.sub rot1 (F32.of_int 360)
    else rot1 in
  {| x := x p; y := y1; vy := vy2; rotation := rot2;
     jumpsRemaining := jumpsRemaining p; isJumping := isJumping p;
     grounded := grounded p; hasLeftGround := hasLeftGround p;
     jumpHoldTimer := timer |}.

(** [Player::canJump] *)
Definition canJump (p : t) : bool := 0 <? jumpsRemaining p.

(** [Player::setGrounded] *)
Definition setGrounded (groundedState : bool) (p : t) : t :=
  {| x := x p; y := y p; vy := vy p; rotation := rotation p;
     jumpsRemaining := if groundedState then 2 else jumpsRemaining p;
     isJumping := if groundedState then false else isJumping p;
     grounded := groundedState;
     hasLeftGround := hasLeftGround p;
     jumpHoldTimer := jumpHoldTimer p |}.

(** [Player::hasJumpedOnce] *)
Definition hasJumpedOnce (p : t) : bool := hasLeftGround p.

(** The assignment of the reference parameters [player.y] and
    [player.vy] made by [resolveLanding]. *)
Definition with_landing (ld : Level.Landing) (p : t) : t :=
  {| x := x p; y := Level.y' ld; vy := Level.vy' ld;
     rotation := rotation p; jumpsRemaining := jumpsRemaining p;
     isJumping := isJumping p; grounded := grounded p;
     hasLeftGround := hasLeftGround p; jumpHoldTimer := jumpHoldTimer p |}.

End Player.

(** ** Game.h, Game.cpp *)

(** What one iteration of the main loop reads from raylib:
    [GetFrameTime()], [IsKeyDown(KEY_SPACE)], [IsKeyPressed(KEY_SPACE)]. *)
Record Input := {
  dt : float;
  keyDown : bool;
  keyPressed : bool
}.

Module Game.

Record t := {
  config : GameConfig;
  player : Player.t;
  level : Level.t;
  score : Z;
  gameOver : bool;
  levelComplete : bool;
  cameraOffsetY : float
}.

(** [Game::Game()] *)
Definition make : t := {|
  config := defaultConfig;
  player := Player.init;
  level := Level.make (totalPlatforms defaultConfig);
  score := 0;
  gameOver := false;
  levelComplete := false;
  cameraOffsetY := F32.zero
|}.

(** The scaling of the physics constants at the start of [Game::run];
    [screenH] is [GetScreenHeight()]. *)
Definition scale_physics (screenH : Z) (g : t) : t :=
  let heightScale := F32.div (F32.of_int screenH) (F32.of_int 450) in
  let c := config g in
  {| config := {|
       screenWidth := screenWidth c;
       screenHeight := screenHeight c;
       radius := radius c;
       groundY := groundY c;
       gravity := F32.mul (gravity c) heightScale;
       jumpVelocity := F32.mul (jumpVelocity c) heightScale;
       maxJumpHold := maxJumpHold c;
       jumpHoldAccel := F32.mul (jumpHoldAccel c) heightScale;
       scrollSpeed := scrollSpeed c;
       totalPlatforms := totalPlatforms c;
       minGap := minGap c;
       maxGap := maxGap c;
       minPlatformWidth := minPlatformWidth c;
       maxPlatformWidth := maxPlatformWidth c;
       platformHeight := platformHeight c;
       minPlatformY := minPlatformY c;
       stepUpMin := stepUpMin c;
       stepUpMax := stepUpMax c;
       cloudCount := cloudCount c |};
     player := player g; level := level g; score := score g;
     gameOver := gameOver g; levelComplete := levelComplete g;
     cameraOffsetY := cameraOffsetY g |}.

Section WithRaylib.
Context {R : Raylib}.

(** [Game::reset] *)
Definition reset (g : t) (s : Rng) : t * Rng :=
  let p := Player.reset (config g) (player g) in
  let (l, s1) := Level.generate (config g) (level g) s in
  ({| config := config g; player := p; level := l; score := 0;
      gameOver := false; levelComplete := false;
      cameraOffsetY := F32.zero |}, s1).

(** [Game::handleInput]; [pressed] is [IsKeyPressed(KEY_SPACE)]. *)
Definition handleInput (pressed : bool) (g : t) (s : Rng) : t * Rng :=
  if gameOver g || levelComplete g then
    if pressed then reset g s else (g, s)
  else if Player.canJump (player g) && pressed then
    ({| config := config g;
        player := Player.startJump (config g) (player g);
        level := level g; score := score g; gameOver := gameOver g;
        levelComplete := levelComplete g;
        cameraOffsetY := cameraOffsetY g |}, s)
  else (g, s).

(** The values computed by one call of [Game::update] that gets past
    the early return, in the order of the source: the player after
    [player.update], the level after [level.scroll], the result of
    [level.resolveLanding], the player after the write-back of [y],
    [vy] and [player.setGrounded], the result of [level.awardScore]
    and the level after it, the result of [level.checkCollision]. *)
Record Steps := {
  physics : Player.t;
  scrolled : Level.t;
  landing : Level.Landing;
  settled : Player.t;
  gained : Z;
  scored : Level.t;
  collision : bool;
  rng : Rng
}.

Definition steps (dt : float) (keyDown : bool) (g : t) (s : Rng)
  : Steps :=
  let cfg := config g in
  let prevY := Player.y (player g) in
  let p1 := Player.update dt keyDown cfg (player g) in
  let (l1, s1) := Level.scroll dt cfg (level g) s in
  let ld := Level.resolveLanding (Player.x p1) prevY (Player.y p1)
                                 (Player.vy p1) (radius cfg) cfg l1 in
  let p2 := Player.setGrounded (Level.landed ld)
                                (Player.with_landing ld p1) in
  let (n, l2) := Level.awardScore (Player.x p2) (radius cfg) l1 in
  let hit := Level.checkCollision (Player.x p2) (Player.y p2)
                                  (radius cfg) cfg l2 in
  {| physics := p1; scrolled := l1; landing := ld; settled := p2;
     gained := n; scored := l2; collision := hit; rng := s1 |}.

(** [Game::update]; [dt] is [GetFrameTime()].  The flags are assigned
    in the order of the source: ground death, score and win, collision
    death. *)
Definition update (dt : float) (keyDown : bool) (g : t) (s : Rng)
  : t * Rng :=
  if gameOver g || levelComplete g then (g, s)
  else
    let cfg := config g in
    let f := steps dt keyDown g s in
    let desiredScreenY :=
      F32.mul (F32.of_int (screenHeight cfg)) F32.c0_4 in
    let cam :=
      F32.min F32.zero (F32.sub (Player.y (settled f)) desiredScreenY) in
    let over1 :=
      if Level.landedOnGround (landing f)
         && Player.hasJumpedOnce (settled f)
      then true else gameOver g in
    let score1 := score g + gained f in
    let complete1 :=
      if totalPlatforms cfg <=? score1 then true else levelComplete g in
    let over2 := if collision f then true else over1 in
    ({| config := cfg; player := settled f; level := scored f;
        score := score1; gameOver := over2; levelComplete := complete1;
        cameraOffsetY := cam |}, rng f).

(** One iteration of the loop of [Game::run], drawing left out. *)
Definition frame (i : Input) (g : t) (s : Rng) : t * Rng :=
  let (g1, s1) := handleInput (keyPressed i) g s in
  update (dt i) (keyDown i) g1 s1.

Fixpoint frames (ins : list Input) (g : t) (s : Rng) : t * Rng :=
  match ins with
  | [] => (g, s)
  | i :: tl => let (g1, s1) := frame i g s in frames tl g1 s1
  end.

(** [Game::run] up to the loop: construction, scaling, [reset]. *)
Definition start (screenH : Z) (s : Rng) : t * Rng :=
  reset (scale_physics screenH make) s.

(** [Game::run] for as many frames as there are inputs. *)
Definition run (screenH : Z) (ins : list Input) (s : Rng) : t * Rng :=
  let (g, s1) := start screenH s in frames ins g s1.

End WithRaylib.

End Game.

(** ** A scripted random generator

    The generator state is the list of raw values still to come;
    [GetRandomValue lo hi] maps the next raw value into [lo..hi] by a
    remainder, as [rand() % (max - min + 1) + min] does.  It is used to
    evaluate the program on concrete runs. *)

Definition scripted_draw (lo hi : Z) (s : list Z) : Z * list Z :=
  match s with
  | [] => (lo, [])
  | v :: tl => (lo + v mod (hi - lo + 1), tl)
  end.

Definition Scripted : Raylib :=
  {| Rng := list Z; GetRandomValue := scripted_draw |}.

(** ** Statements about the program: vocabulary *)

(** A platform as [awardScore] leaves it when it counts it. *)
Definition mark_counted (p : Platform) : Platform :=
  {| x := x p; yTop := yTop p; width := width p; counted := true |}.

(** A platform as the first loop of [scroll] leaves it. *)
Definition shifted (dt : float) (cfg : GameConfig) (p : Platform)
  : Platform :=
  {| x := F32.sub (x p) (F32.mul (scrollSpeed cfg) dt); yTop := yTop p;
     width := width p; counted := counted p |}.


(** What [awardScore] does to one platform. *)
Definition awarded (ballX radius : float) (p : Platform) : Platform :=
  if Level.passed ballX radius p then mark_counted p else p.

(** Platform [p], at index [k] of [ps], is the first of the highest landing
    candidates: it is a candidate, no candidate has a smaller [yTop], and
    every candidate before it has a larger one. *)
Definition first_highest (ballX prevY y radius : float)
           (ps : list Platform) (k : nat) (p : Platform) : Prop :=
  nth_error ps k = Some p
  /\ Level.crosses ballX prevY y radius p = true
  /\ (forall q, In q ps -> Level.crosses ballX prevY y radius q = true ->
                F32.ltb (yTop q) (yTop p) = false)
  /\ (forall j q, (j < k)%nat -> nth_error ps j = Some q ->
                  Level.crosses ballX prevY y radius q = true ->
                  F32.ltb (yTop p) (yTop q) = true).

(** The two outcomes of the loop of [resolveLanding] started from the pair
    ([t0], [b0]): nothing changed and no candidate is above [t0], or the
    pair holds the top of the first of the highest candidates, which is
    above [t0]. *)
Definition loop_unchanged (ballX prevY y radius : float)
           (ps : list Platform) (t0 : float) (b0 : bool)
           (st : float * bool) : Prop :=
  st = (t0, b0)
  /\ forall q, In q ps -> Level.crosses ballX prevY y radius q = true ->
               F32.ltb (yTop q) t0 = false.

Definition loop_winner (ballX prevY y radius : float)
           (ps : list Platform) (t0 : float) (st : float * bool)
           (k : nat) (p : Platform) : Prop :=
  first_highest ballX prevY y radius ps k p
  /\ st = (yTop p, true)
  /\ F32.ltb (yTop p) t0 = true.

(** The ground snap and the result that leaves everything as it was. *)
Definition ground_snap (cfg : GameConfig) : Level.Landing :=
  {| Level.landed := true; Level.y' := groundY cfg; Level.vy' := F32.zero;
     Level.landedOnGround := true |}.

Definition no_landing (y vy : float) : Level.Landing :=
  {| Level.landed := false; Level.y' := y; Level.vy' := vy;
     Level.landedOnGround := false |}.

Definition platform_snap (radius : float) (p : Platform) : Level.Landing :=
  {| Level.landed := true; Level.y' := F32.sub (yTop p) radius;
     Level.vy' := F32.zero; Level.landedOnGround := false |}.

(** Test data: a level holding the given platforms, no clouds. *)
Definition level_of (ps : list Platform) : Level.t :=
  {| Level.totalPlatforms := Z.of_nat (length ps); Level.platforms := ps;
     Level.clouds := [] |}.

Definition platform_at (px ptop pw : Z) : Platform :=
  {| x := F32.of_int px; yTop := F32.of_int ptop; width := F32.of_int pw;
     counted := false |}.

(** Two platforms of the same height 300 behind a lower one, all three
    under a ball at x = 200. *)
Definition three_platforms : Level.t :=
  level_of [platform_at 100 340 200; platform_at 150 300 120;
            platform_at 90 300 150].

(** The platform the second loop of [scroll] puts in the place of [p] when
    the tracker is [rightMost] and the generator is in state [s]. *)
Definition recycled {R : Raylib} (cfg : GameConfig) (rightMost : float)
           (s : Rng) (p : Platform) : Platform :=
  let '(gap, w, step, _) := Level.draw_platform cfg s in
  {| x := F32.add rightMost gap;
     yTop := F32.max (minPlatformY cfg) (F32.sub (yTop p) step);
     width := w; counted := false |}.

(** The tracker [rightMost] and the generator state when the second loop
    of [scroll dt cfg l s] reaches index [i]. *)
Definition tracker_at {R : Raylib} (dt : float) (cfg : GameConfig)
           (l : Level.t) (s : Rng) (i : nat) : float * Rng :=
  let (ps1, rm) := Level.scroll_shift dt cfg (Level.active l) F32.zero in
  let '(_, rm_i, s_i) := Level.scroll_recycle cfg (firstn i ps1) rm s in
  (rm_i, s_i).

(** A platform about to leave the screen behind one still ahead. *)
Definition two_platforms : Level.t :=
  level_of [platform_at 1260 335 120; platform_at (-300) 320 150].

(** The same, the platform ahead being very far to the right. *)
Definition far_platforms : Level.t :=
  level_of [platform_at (2 ^ 33) 335 120; platform_at (-300) 320 150].

(** ** The platforms of the game

    [Game] keeps the default [GameConfig]; [Game::run] changes its three
    physics constants only.  [layout] collects the other fields. *)

Definition layout (c : GameConfig) :=
  (screenWidth c, screenHeight c, radius c, groundY c, maxJumpHold c,
   scrollSpeed c, totalPlatforms c, minGap c, maxGap c,
   minPlatformWidth c, maxPlatformWidth c, platformHeight c,
   minPlatformY c, stepUpMin c, stepUpMax c, cloudCount c).

Definition default_layout (c : GameConfig) : Prop :=
  layout c = layout defaultConfig.

(** [f] is the whole number [n] for some [n] of [lo..hi]. *)
Definition whole (lo hi : Z) (f : float) : Prop :=
  exists n, lo <= n <= hi /\ f = F32.of_int n.

(** The shape of the platforms that the default layout yields: tops and
    widths are whole numbers; the first step up takes the top from 350 to
    at most 335. *)
Definition generated_shape (p : Platform) : Prop :=
  whole 20 335 (yTop p) /\ whole 120 200 (width p).

(** The lower bound on [yTop] alone. *)
Definition above_floor (cfg : GameConfig) (p : Platform) : Prop :=
  F32.leb (minPlatformY cfg) (yTop p) = true.

(** The four bounds on a platform, comparisons being those of binary32. *)
Definition within_bounds (cfg : GameConfig) (p : Platform) : bool :=
  F32.leb (minPlatformY cfg) (yTop p)
  && F32.leb (yTop p) (F32.sub (groundY cfg) (F32.of_int 20))
  && F32.leb (minPlatformWidth cfg) (width p)
  && F32.leb (width p) (maxPlatformWidth cfg).

(** The levels that [generate] and any number of calls of [scroll]
    produce. *)
Inductive produced {R : Raylib} (cfg : GameConfig) : Level.t -> Prop :=
| produced_generate (l : Level.t) (s : Rng) :
    produced cfg (fst (Level.generate cfg l s))
| produced_scroll (l : Level.t) (dt : float) (s : Rng) :
    produced cfg l -> produced cfg (fst (Level.scroll dt cfg l s)).

(** Equality of two binary32 values as data. *)
Definition same (a b : float) : bool :=
  match a, b with
  | S754_zero s1, S754_zero s2 => Bool.eqb s1 s2
  | S754_infinity s1, S754_infinity s2 => Bool.eqb s1 s2
  | S754_nan, S754_nan => true
  | S754_finite s1 m1 e1, S754_finite s2 m2 e2 =>
      Bool.eqb s1 s2 && Pos.eqb m1 m2 && Z.eqb e1 e2
  | _, _ => false
  end.

(** The whole numbers [lo], [lo + 1], ..., [lo + n - 1]. *)
Fixpoint zrange (lo : Z) (n : nat) : list Z :=
  match n with
  | O => []
  | S k => lo :: zrange (lo + 1) k
  end.

(** Checks by enumeration, on the whole numbers that the default layout
    can yield: a step up of 15..35 from a top of 20..350, floored at 20, is
    computed without rounding; tops and widths are within the bounds. *)
Definition step_up_exact : bool :=
  forallb (fun n =>
    forallb (fun st =>
      same (F32.max (F32.of_int 20) (F32.sub (F32.of_int n) (F32.of_int st)))
           (F32.of_int (Z.max 20 (n - st))))
      (zrange 15 21))
    (zrange 20 331).

Definition tops_within : bool :=
  forallb (fun n =>
    F32.leb (F32.of_int 20) (F32.of_int n)
    && F32.leb (F32.of_int n) (F32.of_int 350))
    (zrange 20 316).

Definition widths_within : bool :=
  forallb (fun n =>
    F32.leb (F32.of_int 120) (F32.of_int n)
    && F32.leb (F32.of_int n) (F32.of_int 200))
    (zrange 120 81).

(** The default configuration with a lower width bound of 120.5. *)
Definition fractional_config : GameConfig := {|
  screenWidth := 800;
  screenHeight := 450;
  radius := F32.of_int 20;
  groundY := F32.sub (F32.of_int 450) (F32.of_int 80);
  gravity := F32.of_int 1000;
  jumpVelocity := F32.of_int (-550);
  maxJumpHold := F32.c0_25;
  jumpHoldAccel := F32.of_int (-1200);
  scrollSpeed := F32.of_int 220;
  totalPlatforms := 200;
  minGap := F32.of_int 260;
  maxGap := F32.of_int 420;
  minPlatformWidth := F32.div (F32.of_int 241) (F32.of_int 2);
  maxPlatformWidth := F32.of_int 200;
  platformHeight := F32.of_int 14;
  minPlatformY := F32.of_int 20;
  stepUpMin := F32.of_int 15;
  stepUpMax := F32.of_int 35;
  cloudCount := 10
|}.

(** ** The states of the game *)

(** What holds of every state of a run: the layout is the default one, the
    ball is at x = 200, the platforms have the generated shape. *)
Definition game_inv (g : Game.t) : Prop :=
  default_layout (Game.config g)
  /\ Player.x (Game.player g) = F32.of_int 200
  /\ Forall generated_shape (Level.platforms (Game.level g)).

(** The test of [checkCollision] against a rectangle of top [ry] and
    height [rh] when the ball is between its left and right edges, so that
    the closest point has the ball's own x. *)
Definition hits_inside (ballX ballY radius rh ry : float) : bool :=
  let closestY :=
    if F32.ltb ballY ry then ry
    else if F32.gtb ballY (F32.add ry rh) then F32.add ry rh else ballY in
  let dx := F32.sub ballX ballX in
  let dy := F32.sub ballY closestY in
  let distSq := F32.add (F32.mul dx dx) (F32.mul dy dy) in
  F32.ltb distSq (F32.mul radius radius).

(** Checks by enumeration on the tops 20..335: each is above the ground
    line 370; a ball of radius 20 at x = 200 put on a platform of height 14
    does not collide with it. *)
Definition tops_above_ground : bool :=
  forallb (fun n => F32.ltb (F32.of_int n) (groundY defaultConfig))
          (zrange 20 316).

Definition tangent_clear : bool :=
  forallb (fun n =>
    negb (hits_inside (F32.of_int 200)
                      (F32.sub (F32.of_int n) (F32.of_int 20))
                      (F32.of_int 20) (F32.of_int 14) (F32.of_int n)))
    (zrange 20 316).

(** A ball falling at x = 200 toward a platform whose top is at 300. *)
Definition falling_game : Game.t := {|
  Game.config := defaultConfig;
  Game.player := {|
    Player.x := F32.of_int 200; Player.y := F32.of_int 250;
    Player.vy := F32.of_int 100; Player.rotation := F32.zero;
    Player.jumpsRemaining := 1; Player.isJumping := true;
    Player.grounded := false; Player.hasLeftGround := true;
    Player.jumpHoldTimer := F32.c0_25 |};
  Game.level := level_of [platform_at 100 300 200];
  Game.score := 0;
  Game.gameOver := false;
  Game.levelComplete := false;
  Game.cameraOffsetY := F32.zero
|}.

(** The ball resting on the ground at the start, before any jump, and
    after a jump. *)
Definition resting_game (jumped : bool) : Game.t := {|
  Game.config := defaultConfig;
  Game.player := {|
    Player.x := F32.of_int 200; Player.y := F32.of_int 370;
    Player.vy := F32.zero; Player.rotation := F32.zero;
    Player.jumpsRemaining := 2; Player.isJumping := false;
    Player.grounded := true; Player.hasLeftGround := jumped;
    Player.jumpHoldTimer := F32.zero |};
  Game.level := level_of [platform_at 1260 335 120];
  Game.score := 0;
  Game.gameOver := false;
  Game.levelComplete := false;
  Game.cameraOffsetY := F32.zero
|}.

(** Frames of one second without a key, and with the jump key pressed. *)
Definition idle_frame : Input :=
  {| dt := F32.of_int 1; keyDown := false; keyPressed := false |}.

Definition jump_frame : Input :=
  {| dt := F32.of_int 1; keyDown := false; keyPressed := true |}.

(** A frame of a quarter of a second. *)
Definition quarter : float := F32.c0_25.

(** The ball on the ground after a jump, 199 platforms passed, the next
    platform about to pass. *)
Definition winning_game : Game.t := {|
  Game.config := defaultConfig;
  Game.player := {|
    Player.x := F32.of_int 200; Player.y := F32.of_int 370;
    Player.vy := F32.zero; Player.rotation := F32.zero;
    Player.jumpsRemaining := 1; Player.isJumping := true;
    Player.grounded := false; Player.hasLeftGround := true;
    Player.jumpHoldTimer := F32.zero |};
  Game.level := level_of [platform_at 200 335 120];
  Game.score := 199;
  Game.gameOver := false;
  Game.levelComplete := false;
  Game.cameraOffsetY := F32.zero
|}.

(** ** Vocabulary for further properties *)

(** The number of platforms already counted. *)
Definition count_counted (ps : list Platform) : nat :=
  length (filter counted ps).

(** [p'] is [p] up to the flag [counted], which was not cleared. *)
Definition only_counts (p p' : Platform) : Prop :=
  x p' = x p /\ yTop p' = yTop p /\ width p' = width p
  /\ (counted p = true -> counted p' = true).

(** Two platforms with the same rectangle. *)
Definition same_rectangle (p q : Platform) : Prop :=
  x p = x q /\ yTop p = yTop q /\ width p = width q.

(** Zero of either sign, a positive number, plus infinity, or a NaN. *)
Definition not_negative (f : float) : bool :=
  match f with
  | S754_zero _ | S754_nan => true
  | S754_infinity s | S754_finite s _ _ => negb s
  end.

(** Each platform is at least as high on the screen as the one before it,
    the first one at least as high as [prev]: tops do not grow. *)
Fixpoint descending (prev : float) (ps : list Platform) : bool :=
  match ps with
  | [] => true
  | p :: tl => F32.leb (yTop p) prev && descending (yTop p) tl
  end.

(** Checks by enumeration: the whole numbers 20..350 are ordered as
    binary32 numbers; a ball of radius 20 on a top of 20..335 is not below
    the ground line. *)
Definition tops_ordered : bool :=
  forallb (fun n => F32.ltb (F32.of_int n) (F32.of_int (n + 1)))
          (zrange 20 330).

Definition landed_above_ground : bool :=
  forallb (fun n =>
    negb (F32.gtb (F32.sub (F32.of_int n) (F32.of_int 20))
                  (groundY defaultConfig)))
    (zrange 20 316).

(** The game is over, won or lost. *)
Definition terminal (g : Game.t) : bool :=
  Game.gameOver g || Game.levelComplete g.

(** A ball above a platform it does not reach in the frame. *)
Definition hovering_game : Game.t := {|
  Game.config := defaultConfig;
  Game.player := {|
    Player.x := F32.of_int 200; Player.y := F32.of_int 100;
    Player.vy := F32.zero; Player.rotation := F32.zero;
    Player.jumpsRemaining := 0; Player.isJumping := true;
    Player.grounded := false; Player.hasLeftGround := true;
    Player.jumpHoldTimer := F32.c0_25 |};
  Game.level := level_of [platform_at 100 300 200];
  Game.score := 3;
  Game.gameOver := false;
  Game.levelComplete := false;
  Game.cameraOffsetY := F32.zero
|}.

(** A lost game. *)
Definition lost_game : Game.t := {|
  Game.config := defaultConfig;
  Game.player := Game.player hovering_game;
  Game.level := level_of [platform_at 100 300 200];
  Game.score := 3;
  Game.gameOver := true;
  Game.levelComplete := false;
  Game.cameraOffsetY := F32.zero
|}.

(** The same platform, counted and not. *)
Definition counted_twin : Level.t :=
  level_of [{| x := F32.of_int 100; yTop := F32.of_int 300;
               width := F32.of_int 200; counted := true |}].

Definition uncounted_twin : Level.t :=
  level_of [platform_at 100 300 200].

(** The top of a platform did not grow: it is at least as high on the
    screen as it was. *)
Definition not_lowered (p p' : Platform) : Prop :=
  F32.leb (yTop p') (yTop p) = true.

(** What holds of the score in every state of a run. *)
Definition score_inv (g : Game.t) : Prop :=
  totalPlatforms (Game.config g) = 200
  /\ 0 <= Game.score g
  /\ Game.levelComplete g = (200 <=? Game.score g).

(** The sizes of the pools in every state of a run. *)
Definition pools_inv (g : Game.t) : Prop :=
  cloudCount (Game.config g) = 10
  /\ Level.totalPlatforms (Game.level g) = 200
  /\ length (Level.platforms (Game.level g)) = 200%nat
  /\ length (Level.clouds (Game.level g)) = 10%nat.

(** Two frames without a key, of different lengths. *)
Definition two_idle_frames : list Input :=
  [{| dt := F32.of_int 1; keyDown := true; keyPressed := false |};
   {| dt := F32.c0_25; keyDown := false; keyPressed := false |}].

(** ** Rounding as whole-number arithmetic

    The vocabulary in which the rounding of [SpecFloat] is described. *)

(** [f] is a binary32 value: a mantissa of at most 24 digits with the
    exponent that the format gives to a number of that size.  The type
    [spec_float] has other members (a mantissa of 30 digits, say); no
    C++ [float] is one of them. *)
Definition binary32 (f : float) : Prop :=
  valid_binary F32.prec F32.emax f = true.

(** Zero of either sign or a positive finite number. *)
Definition finite_not_negative (f : float) : bool :=
  match f with
  | S754_zero _ => true
  | S754_finite s _ _ => negb s
  | _ => false
  end.

(** [m / 2^n] rounded to the nearest whole number, to the even one when
    two are as near. *)
Definition rne (m n : Z) : Z :=
  if n <=? 0 then m
  else
    let q := m / 2 ^ n in
    match 2 * (m mod 2 ^ n) ?= 2 ^ n with
    | Lt => q
    | Eq => if Z.even q then q else q + 1
    | Gt => q + 1
    end.

(** The number of sign [s] and magnitude [q * 2^e], for a [q] of at most
    25 digits, 2^24 at most: 2^24 is renormalised, an exponent above 104
    is an overflow. *)
Definition pack (s : bool) (q e : Z) : float :=
  match q with
  | Z0 => S754_zero s
  | Zpos m =>
      if q =? 2 ^ 24 then
        if e + 1 <=? 104 then S754_finite s (2 ^ 23) (e + 1)
        else S754_infinity s
      else if e <=? 104 then S754_finite s m e else S754_infinity s
  | Zneg _ => S754_nan
  end.

(** The magnitude [m * 2^e] brought to the exponent at which it is
    rounded: the mantissa, the number of digits to drop, the exponent of
    the result. *)
Definition aligned (m : positive) (e : Z) : Z * Z * Z :=
  let f := fexp F32.prec F32.emax (Zpos (digits2_pos m) + e) in
  let ez := Z.min e f in
  (Zpos m * 2 ^ (e - ez), f - ez, f).

(** A number with a clear sign bit: +0, a positive finite number or
    plus infinity.  The tracker [rightMost] of [scroll] starts at [0.0f]
    and only ever takes greater values. *)
Definition sign_clear (f : float) : bool :=
  match f with
  | S754_zero s | S754_infinity s | S754_finite s _ _ => negb s
  | S754_nan => false
  end.

Definition tracked (r : float) : Prop :=
  binary32 r /\ sign_clear r = true.

(** The bounds on a top and on a width. *)
Definition top_within (cfg : GameConfig) (t : float) : Prop :=
  binary32 t
  /\ F32.leb (minPlatformY cfg) t = true
  /\ F32.leb t (F32.sub (groundY cfg) (F32.of_int 20)) = true.

Definition width_within (cfg : GameConfig) (w : float) : Prop :=
  F32.leb (minPlatformWidth cfg) w = true
  /\ F32.leb w (maxPlatformWidth cfg) = true.

(** The step drawn is not negative: the requested range
    [(int)stepUpMin .. (int)stepUpMax] has nothing below zero and is not
    empty. *)
Definition steps_upward (cfg : GameConfig) : Prop :=
  0 <= F32.to_int (stepUpMin cfg) <= F32.to_int (stepUpMax cfg).

(** The width bounds survive the cast to [int] made for the draw: the
    requested range [(int)minPlatformWidth .. (int)maxPlatformWidth] is
    not empty, its lower end converted back is not below
    [minPlatformWidth] and its upper end converted back is not above
    [maxPlatformWidth].  Two whole numbers of the [int] range in this
    order are such bounds. *)
Definition widths_castable (cfg : GameConfig) : Prop :=
  F32.to_int (minPlatformWidth cfg) <= F32.to_int (maxPlatformWidth cfg)
  /\ F32.leb (minPlatformWidth cfg)
             (F32.of_int (F32.to_int (minPlatformWidth cfg))) = true
  /\ F32.leb (F32.of_int (F32.to_int (maxPlatformWidth cfg)))
             (maxPlatformWidth cfg) = true.

(** The default configuration with steps up of 15 to 36. *)
Definition taller_steps_config : GameConfig := {|
  screenWidth := 800;
  screenHeight := 450;
  radius := F32.of_int 20;
  groundY := F32.sub (F32.of_int 450) (F32.of_int 80);
  gravity := F32.of_int 1000;
  jumpVelocity := F32.of_int (-550);
  maxJumpHold := F32.c0_25;
  jumpHoldAccel := F32.of_int (-1200);
  scrollSpeed := F32.of_int 220;
  totalPlatforms := 200;
  minGap := F32.of_int 260;
  maxGap := F32.of_int 420;
  minPlatformWidth := F32.of_int 120;
  maxPlatformWidth := F32.of_int 200;
  platformHeight := F32.of_int 14;
  minPlatformY := F32.of_int 20;
  stepUpMin := F32.of_int 15;
  stepUpMax := F32.of_int 36;
  cloudCount := 10
|}.

(** The default configuration with steps of -35 to -15: each platform is
    lower than the one before. *)
Definition downward_steps_config : GameConfig := {|
  screenWidth := 800;
  screenHeight := 450;
  radius := F32.of_int 20;
  groundY := F32.sub (F32.of_int 450) (F32.of_int 80);
  gravity := F32.of_int 1000;
  jumpVelocity := F32.of_int (-550);
  maxJumpHold := F32.c0_25;
  jumpHoldAccel := F32.of_int (-1200);
  scrollSpeed := F32.of_int 220;
  totalPlatforms := 200;
  minGap := F32.of_int 260;
  maxGap := F32.of_int 420;
  minPlatformWidth := F32.of_int 120;
  maxPlatformWidth := F32.of_int 200;
  platformHeight := F32.of_int 14;
  minPlatformY := F32.of_int 20;
  stepUpMin := F32.of_int (-35);
  stepUpMax := F32.of_int (-15);
  cloudCount := 10
|}.

(** * Properties *)

(** ** The order of binary32 numbers

    [SFcompare] orders finite numbers by sign, exponent and mantissa; the
    facts below hold for every pair of values, NaN included, because every
    comparison with a NaN is false. *)

Ltac compare_cases :=
  repeat match goal with
    | |- context [Z.compare ?a ?b] => destruct (Z.compare_spec a b)
    | H : context [Z.compare ?a ?b] |- _ => destruct (Z.compare_spec a b)
    | |- context [Pos.compare ?a ?b] => destruct (Pos.compare_spec a b)
    | H : context [Pos.compare ?a ?b] |- _ => destruct (Pos.compare_spec a b)
    end.

Ltac float_order :=
  unfold F32.gtb, F32.geb, F32.ltb, F32.leb, SFltb, SFleb, SFcompare;
  intros;
  repeat match goal with v : float |- _ => destruct v end;
  repeat match goal with b : bool |- _ => destruct b end;
  cbn in *; try congruence; try reflexivity;
  rewrite ?Pos.compare_cont_spec in *; cbn in *;
  compare_cases; cbn in *; subst; try congruence; try lia.

Lemma ltb_trans (a b c : float) :
  F32.ltb a b = true -> F32.ltb b c = true -> F32.ltb a c = true.
Proof. float_order. Qed.

Lemma ltb_leb_trans (a b c : float) :
  F32.ltb a b = true -> F32.leb b c = true -> F32.ltb a c = true.
Proof. float_order. Qed.

Lemma leb_trans (a b c : float) :
  F32.leb a b = true -> F32.leb b c = true -> F32.leb a c = true.
Proof. float_order. Qed.

Lemma leb_ltb_trans (a b c : float) :
  F32.leb a b = true -> F32.ltb b c = true -> F32.ltb a c = true.
Proof. float_order. Qed.

Lemma ltb_leb (a b : float) : F32.ltb a b = true -> F32.leb a b = true.
Proof. float_order. Qed.

Lemma ltb_irrefl (a : float) : F32.ltb a a = false.
Proof. float_order. Qed.

Lemma ltb_asym (a b : float) : F32.ltb a b = true -> F32.ltb b a = false.
Proof. float_order. Qed.

Lemma ltb_not_leb (a b : float) : F32.ltb a b = true -> F32.leb b a = false.
Proof. float_order. Qed.

Lemma leb_not_ltb (a b : float) : F32.leb a b = true -> F32.ltb b a = false.
Proof. float_order. Qed.

(** A number that compares with anything is not a NaN, and two numbers that
    are not NaN are comparable. *)
Lemma leb_refl_left (a b : float) : F32.leb a b = true -> F32.leb a a = true.
Proof. float_order. Qed.

Lemma leb_refl_right (a b : float) : F32.leb a b = true -> F32.leb b b = true.
Proof. float_order. Qed.

Lemma ltb_refl_right (a b : float) : F32.ltb a b = true -> F32.leb b b = true.
Proof. float_order. Qed.

Lemma not_ltb_leb (a b : float) :
  F32.leb a a = true -> F32.leb b b = true ->
  F32.ltb a b = false -> F32.leb b a = true.
Proof. float_order. Qed.

Lemma max_lower (a b : float) :
  F32.leb a a = true -> F32.leb a (F32.max a b) = true.
Proof.
  intros Ha. unfold F32.max. destruct (F32.ltb a b) eqn:E.
  - now apply ltb_leb.
  - exact Ha.
Qed.

(** ** resolveLanding *)

Section Landing.

Variables (ballX prevY y radius : float).

(** A landing candidate has a top that is not a NaN. *)
Lemma crosses_top_number (p : Platform) :
  Level.crosses ballX prevY y radius p = true ->
  F32.leb (yTop p) (yTop p) = true.
Proof.
  unfold Level.crosses. rewrite !andb_true_iff.
  intros [[[_ H] _] _]. now apply leb_refl_right in H.
Qed.

Lemma landing_step_cases (t0 : float) (b0 : bool) (p0 : Platform) :
  Level.landing_step ballX prevY y radius (t0, b0) p0
  = if Level.crosses ballX prevY y radius p0
    then if F32.ltb (yTop p0) t0 then (yTop p0, true) else (t0, b0)
    else (t0, b0).
Proof. reflexivity. Qed.

(** A winner of the tail stays the winner when a platform is put in
    front that does not beat it. *)
Lemma winner_later (p0 : Platform) (tl : list Platform) (t0 t1 : float)
      (st : float * bool) (k : nat) (p : Platform) :
  loop_winner ballX prevY y radius tl t1 st k p ->
  F32.ltb (yTop p) t0 = true ->
  (Level.crosses ballX prevY y radius p0 = true ->
   F32.ltb (yTop p0) (yTop p) = false) ->
  (Level.crosses ballX prevY y radius p0 = true ->
   F32.ltb (yTop p) (yTop p0) = true) ->
  loop_winner ballX prevY y radius (p0 :: tl) t0 st (S k) p.
Proof.
  intros ((Hk & Hp & Hmin & Hfst) & Hst & _) Hlt Hge Hgt.
  split; [|split; assumption].
  split; [exact Hk|]. split; [exact Hp|]. split.
  - intros q [<- | Hq] Hcq; [now apply Hge | now apply Hmin].
  - intros [|j] q Hj Hq Hcq; cbn in Hq.
    + inversion Hq; subst q. now apply Hgt.
    + apply (Hfst j q); [lia | assumption | assumption].
Qed.

Lemma landing_loop (ps : list Platform) :
  forall (t0 : float) (b0 : bool),
    loop_unchanged ballX prevY y radius ps t0 b0
      (fold_left (Level.landing_step ballX prevY y radius) ps (t0, b0))
    \/ exists k p,
        loop_winner ballX prevY y radius ps t0
          (fold_left (Level.landing_step ballX prevY y radius) ps (t0, b0))
          k p.
Proof.
  induction ps as [|p0 tl IH]; intros t0 b0; cbn [fold_left].
  - left. split; [reflexivity | intros q []].
  - rewrite landing_step_cases.
    destruct (Level.crosses ballX prevY y radius p0) eqn:Hc;
      [destruct (F32.ltb (yTop p0) t0) eqn:Hlt|].
    + (* p0 becomes the target *)
      right.
      destruct (IH (yTop p0) true) as [[Hst Hall] | (k & p & Hw)].
      * exists 0%nat, p0. split; [|split; assumption].
        split; [reflexivity|]. split; [exact Hc|]. split.
        -- intros q [<- | Hq] Hcq; [apply ltb_irrefl | now apply Hall].
        -- intros j q Hj. lia.
      * exists (S k), p.
        assert (Hp : F32.ltb (yTop p) (yTop p0) = true) by apply Hw.
        apply winner_later with (t1 := yTop p0); try assumption.
        -- now apply ltb_trans with (yTop p0).
        -- intros _. now apply ltb_asym.
        -- intros _. exact Hp.
    + (* p0 is a candidate, but not above the target *)
      destruct (IH t0 b0) as [[Hst Hall] | (k & p & Hw)].
      * left. split; [assumption|].
        intros q [<- | Hq] Hcq; [assumption | now apply Hall].
      * right. exists (S k), p.
        assert (Hp : F32.ltb (yTop p) t0 = true) by apply Hw.
        apply winner_later with (t1 := t0); try assumption.
        -- intros _.
           destruct (F32.ltb (yTop p0) (yTop p)) eqn:E; [|reflexivity].
           rewrite (ltb_trans _ _ _ E Hp) in Hlt. discriminate.
        -- intros _. apply ltb_leb_trans with t0; [assumption|].
           apply not_ltb_leb;
             [now apply crosses_top_number | | assumption].
           now apply ltb_refl_right in Hp.
    + (* p0 is no candidate *)
      destruct (IH t0 b0) as [[Hst Hall] | (k & p & Hw)].
      * left. split; [assumption|].
        intros q [<- | Hq] Hcq; [congruence | now apply Hall].
      * right. exists (S k), p.
        apply winner_later with (t1 := t0); try assumption;
          [apply Hw | congruence | congruence].
Qed.

(** When some candidate is above the ground line, the loop ends on the
    first of the highest candidates. *)
Lemma landing_loop_lands (cfg : GameConfig) (ps : list Platform)
      (q : Platform) :
  In q ps -> Level.crosses ballX prevY y radius q = true ->
  F32.ltb (yTop q) (groundY cfg) = true ->
  exists k p,
    first_highest ballX prevY y radius ps k p
    /\ fold_left (Level.landing_step ballX prevY y radius) ps
                 (groundY cfg, false) = (yTop p, true).
Proof.
  intros Hq Hc Hlt.
  destruct (landing_loop ps (groundY cfg) false)
    as [[_ Hall] | (k & p & Hfh & Hst & _)].
  - rewrite (Hall q Hq Hc) in Hlt. discriminate.
  - now exists k, p.
Qed.

End Landing.

(** C2 (as amended).  With [vy < 0] no platform is examined, whatever [y],
    [prevY] and the platforms are; the ground test is still made: the call
    is the ground snap when [y > groundY], and otherwise returns
    [landed = false], [landedOnGround = false] and leaves [y] and [vy] as
    they were. *)
Theorem resolveLanding_moving_up
        (ballX prevY y vy radius : float) (cfg : GameConfig) (l : Level.t) :
  F32.ltb vy F32.zero = true ->
  Level.resolveLanding ballX prevY y vy radius cfg l
  = if F32.gtb y (groundY cfg) then ground_snap cfg else no_landing y vy.
Proof.
  intros Hvy. unfold Level.resolveLanding, F32.geb.
  fold (F32.leb F32.zero vy). rewrite (ltb_not_leb _ _ Hvy). reflexivity.
Qed.

Lemma resolveLanding_moving_up_witness :
  Level.resolveLanding (F32.of_int 200) (F32.of_int 300) (F32.of_int 290)
                       (F32.of_int (-100)) (F32.of_int 20) defaultConfig
                       (level_of [platform_at 100 280 200])
  = no_landing (F32.of_int 290) (F32.of_int (-100)).
Proof.
  rewrite resolveLanding_moving_up by reflexivity. reflexivity.
Defined.

(** C2 as stated fails: the ball moves up ([vy = -1]) from below the ground
    line ([y = 400 > 370 = groundY]); the call returns [landed = true],
    [landedOnGround = true] and overwrites [y] and [vy]. *)
Lemma resolveLanding_moving_up_below_ground :
  F32.ltb (F32.of_int (-1)) F32.zero = true
  /\ Level.resolveLanding (F32.of_int 200) (F32.of_int 401) (F32.of_int 400)
                          (F32.of_int (-1)) (F32.of_int 20) defaultConfig
                          (level_of [])
     = {| Level.landed := true; Level.y' := F32.of_int 370;
          Level.vy' := F32.zero; Level.landedOnGround := true |}.
Proof. split; reflexivity. Qed.

(** C3 (as amended).  With [vy >= 0], when some candidate has its top above
    the ground line ([yTop < groundY]), the call lands on the first of the
    highest candidates: [y = yTop - radius], [vy = 0], [landed = true],
    [landedOnGround = false]. *)
Theorem resolveLanding_precedence
        (ballX prevY y vy radius : float) (cfg : GameConfig) (l : Level.t)
        (q : Platform) :
  F32.geb vy F32.zero = true ->
  In q (Level.active l) ->
  Level.crosses ballX prevY y radius q = true ->
  F32.ltb (yTop q) (groundY cfg) = true ->
  exists k p,
    first_highest ballX prevY y radius (Level.active l) k p
    /\ Level.resolveLanding ballX prevY y vy radius cfg l
       = platform_snap radius p.
Proof.
  intros Hvy Hq Hc Hlt.
  destruct (landing_loop_lands ballX prevY y radius cfg _ q Hq Hc Hlt)
    as (k & p & Hfh & Hst).
  exists k, p. split; [exact Hfh|].
  unfold Level.resolveLanding. rewrite Hvy, Hst. reflexivity.
Qed.

(** Two candidates of the same height 300 behind a lower one: the first of
    the two wins. *)
Lemma resolveLanding_precedence_witness :
  exists k p,
    first_highest (F32.of_int 200) (F32.of_int 270) (F32.of_int 330)
                  (F32.of_int 20) (Level.active three_platforms) k p
    /\ Level.resolveLanding (F32.of_int 200) (F32.of_int 270)
                            (F32.of_int 330) (F32.of_int 600)
                            (F32.of_int 20) defaultConfig three_platforms
       = platform_snap (F32.of_int 20) p.
Proof.
  apply (resolveLanding_precedence _ _ _ _ _ _ _ (platform_at 90 300 150)).
  - reflexivity.
  - vm_compute. auto.
  - reflexivity.
  - reflexivity.
Defined.

(** C3 as stated fails: a platform whose top is not above the ground line
    ([yTop = 400], [groundY = 370]) is a candidate, the only one, and yet
    the ball is put on the ground with [landedOnGround = true]. *)
Lemma resolveLanding_candidate_below_ground :
  F32.geb (F32.of_int 10) F32.zero = true
  /\ Level.active (level_of [platform_at 100 400 200])
     = [platform_at 100 400 200]
  /\ Level.crosses (F32.of_int 200) (F32.of_int 370) (F32.of_int 385)
                   (F32.of_int 20) (platform_at 100 400 200) = true
  /\ Level.resolveLanding (F32.of_int 200) (F32.of_int 370) (F32.of_int 385)
                          (F32.of_int 10) (F32.of_int 20) defaultConfig
                          (level_of [platform_at 100 400 200])
     = {| Level.landed := true; Level.y' := F32.of_int 370;
          Level.vy' := F32.zero; Level.landedOnGround := true |}.
Proof. repeat split; reflexivity. Qed.

(** C10.  A call that returns [landed = false] leaves [y] and [vy] as they
    were and reports [landedOnGround = false]. *)
Theorem resolveLanding_no_landing
        (ballX prevY y vy radius : float) (cfg : GameConfig) (l : Level.t) :
  Level.landed (Level.resolveLanding ballX prevY y vy radius cfg l) = false ->
  Level.y' (Level.resolveLanding ballX prevY y vy radius cfg l) = y
  /\ Level.vy' (Level.resolveLanding ballX prevY y vy radius cfg l) = vy
  /\ Level.landedOnGround
       (Level.resolveLanding ballX prevY y vy radius cfg l) = false.
Proof.
  unfold Level.resolveLanding.
  destruct (snd _); [discriminate|].
  destruct (F32.gtb y (groundY cfg)); [discriminate|].
  intros _. repeat split.
Qed.

Lemma resolveLanding_no_landing_witness :
  Level.y' (Level.resolveLanding (F32.of_int 200) (F32.of_int 100)
              (F32.of_int 110) (F32.of_int 50) (F32.of_int 20)
              defaultConfig (level_of [platform_at 100 300 200]))
  = F32.of_int 110
  /\ Level.vy' (Level.resolveLanding (F32.of_int 200) (F32.of_int 100)
              (F32.of_int 110) (F32.of_int 50) (F32.of_int 20)
              defaultConfig (level_of [platform_at 100 300 200]))
     = F32.of_int 50
  /\ Level.landedOnGround (Level.resolveLanding (F32.of_int 200)
              (F32.of_int 100) (F32.of_int 110) (F32.of_int 50)
              (F32.of_int 20) defaultConfig
              (level_of [platform_at 100 300 200])) = false.
Proof.
  apply resolveLanding_no_landing. reflexivity.
Defined.

(** ** Rounding

    [SpecFloat] rounds a magnitude [m * 2^e] in three steps: the mantissa
    is brought to the exponent of the result, the digits below it are
    dropped one by one while a round and a sticky bit are kept, and the
    two bits decide between the quotient and its successor.  The lemmas
    below put this in closed form ([binary_round_pack]) and draw from it
    what the program relies on: rounding is monotone, leaves a binary32
    value as it is, and yields binary32 values. *)

Lemma fexp_eq (e : Z) :
  fexp F32.prec F32.emax e = Z.max (e - 24) (-149).
Proof. reflexivity. Qed.

Lemma pow2_pos (n : Z) : 0 <= n -> 0 < 2 ^ n.
Proof. intros. apply Z.pow_pos_nonneg; lia. Qed.

Lemma pow2_split (a b : Z) : 0 <= a -> 0 <= b -> 2 ^ (a + b) = 2 ^ a * 2 ^ b.
Proof. intros. now apply Z.pow_add_r. Qed.

Lemma pow2_le (a b : Z) : 0 <= a <= b -> 2 ^ a <= 2 ^ b.
Proof. intros. apply Z.pow_le_mono_r; lia. Qed.

Lemma pow2_lt (a b : Z) : 0 <= a < b -> 2 ^ a < 2 ^ b.
Proof. intros. apply Z.pow_lt_mono_r; lia. Qed.

(** *** The number of digits *)

Lemma digits2_pos_bounds (p : positive) :
  2 ^ (Zpos (digits2_pos p) - 1) <= Zpos p < 2 ^ Zpos (digits2_pos p).
Proof.
  induction p as [p IH | p IH |]; cbn [digits2_pos].
  - rewrite Pos2Z.inj_succ.
    replace (Z.succ (Zpos (digits2_pos p)) - 1)
      with (Zpos (digits2_pos p) - 1 + 1) by lia.
    rewrite Z.pow_succ_r, Z.pow_add_r by lia. lia.
  - rewrite Pos2Z.inj_succ.
    replace (Z.succ (Zpos (digits2_pos p)) - 1)
      with (Zpos (digits2_pos p) - 1 + 1) by lia.
    rewrite Z.pow_succ_r, Z.pow_add_r by lia. lia.
  - cbn. lia.
Qed.

Lemma digits2_pos_unique (p : positive) (d : Z) :
  2 ^ (d - 1) <= Zpos p < 2 ^ d -> Zpos (digits2_pos p) = d.
Proof.
  intros [Hl Hu]. pose proof (digits2_pos_bounds p) as [Hl' Hu'].
  assert (0 < d).
  { destruct (Z.le_gt_cases d 0) as [H|H]; [|lia].
    destruct (Z.eq_dec d 0) as [-> | Hd]; [cbn in Hu; lia|].
    rewrite Z.pow_neg_r in Hu by lia. lia. }
  destruct (Z.lt_trichotomy (Zpos (digits2_pos p)) d) as [H1 | [H1 | H1]];
    [|exact H1|].
  - assert (2 ^ Zpos (digits2_pos p) <= 2 ^ (d - 1)) by (apply pow2_le; lia).
    lia.
  - assert (2 ^ d <= 2 ^ (Zpos (digits2_pos p) - 1)) by (apply pow2_le; lia).
    lia.
Qed.

(** A larger number has as many digits or more, also across a change of
    unit. *)
Lemma digits2_pos_le (p q : positive) (k : Z) :
  0 <= k -> Zpos p * 2 ^ k <= Zpos q ->
  Zpos (digits2_pos p) + k <= Zpos (digits2_pos q).
Proof.
  intros Hk H. pose proof (digits2_pos_bounds p) as [Hl _].
  pose proof (digits2_pos_bounds q) as [_ Hu].
  destruct (Z.le_gt_cases (Zpos (digits2_pos p) + k)
                          (Zpos (digits2_pos q))) as [|Hgt]; [assumption|].
  assert (2 ^ Zpos (digits2_pos q) <= 2 ^ (Zpos (digits2_pos p) - 1 + k))
    by (apply pow2_le; lia).
  rewrite pow2_split in H0 by lia.
  pose proof (pow2_pos k Hk).
  assert (2 ^ (Zpos (digits2_pos p) - 1) * 2 ^ k <= Zpos p * 2 ^ k) by nia.
  lia.
Qed.

Lemma digits2_pos_shift (p q : positive) (k : Z) :
  0 <= k -> Zpos q = Zpos p * 2 ^ k ->
  Zpos (digits2_pos q) = Zpos (digits2_pos p) + k.
Proof.
  intros Hk H. apply digits2_pos_unique.
  pose proof (digits2_pos_bounds p) as [Hl Hu]. pose proof (pow2_pos k Hk).
  replace (Zpos (digits2_pos p) + k - 1)
    with (Zpos (digits2_pos p) - 1 + k) by lia.
  rewrite !pow2_split by lia. rewrite H. split; nia.
Qed.

(** *** Shifting to the left *)

Lemma iter_xO (m d : positive) :
  Zpos (Pos.iter xO m d) = Zpos m * 2 ^ Zpos d.
Proof.
  induction d as [|d IH] using Pos.peano_ind.
  - cbn. lia.
  - rewrite Pos.iter_succ. rewrite Pos2Z.inj_succ, Z.pow_succ_r by lia.
    rewrite Pos2Z.inj_xO, IH. lia.
Qed.

Lemma shl_align_spec (m : positive) (e e' : Z) :
  snd (shl_align m e e') = Z.min e e'
  /\ Zpos (fst (shl_align m e e')) = Zpos m * 2 ^ (e - Z.min e e').
Proof.
  unfold shl_align. destruct (e' - e) as [|d|d] eqn:E; cbn [fst snd].
  - replace (Z.min e e') with e by lia. rewrite Z.sub_diag. cbn. lia.
  - replace (Z.min e e') with e by lia. rewrite Z.sub_diag. cbn. lia.
  - replace (Z.min e e') with e' by lia. rewrite iter_xO.
    replace (e - e') with (Zpos d) by lia. lia.
Qed.

(** *** Shifting to the right *)

Lemma iter_pos_nat {A : Type} (f : A -> A) (p : positive) :
  forall a, iter_pos f p a = Nat.iter (Pos.to_nat p) f a.
Proof.
  induction p as [p IH | p IH |]; intros a; cbn [iter_pos].
  - rewrite !IH. rewrite Pos2Nat.inj_xI.
    replace (S (2 * Pos.to_nat p)) with (Pos.to_nat p + (Pos.to_nat p + 1))%nat
      by lia.
    rewrite !Nat.iter_add. reflexivity.
  - rewrite !IH. rewrite Pos2Nat.inj_xO.
    replace (2 * Pos.to_nat p)%nat with (Pos.to_nat p + Pos.to_nat p)%nat
      by lia.
    rewrite Nat.iter_add. reflexivity.
  - reflexivity.
Qed.

Lemma shr_1_spec (m : Z) (r s : bool) :
  0 <= m ->
  shr_1 {| shr_m := m; shr_r := r; shr_s := s |}
  = {| shr_m := m / 2; shr_r := Z.odd m; shr_s := r || s |}.
Proof.
  intros Hm. unfold shr_1. destruct m as [|p|p]; [reflexivity | | lia].
  destruct p as [p|p|].
  - f_equal. rewrite Pos2Z.inj_xI. apply Z.div_unique with 1; lia.
  - f_equal. rewrite Pos2Z.inj_xO. apply Z.div_unique with 0; lia.
  - reflexivity.
Qed.

Lemma mod_pow2_succ (m n : Z) :
  0 <= m -> 0 <= n ->
  m mod 2 ^ (n + 1) = m mod 2 ^ n + 2 ^ n * ((m / 2 ^ n) mod 2).
Proof.
  intros Hm Hn. pose proof (pow2_pos n Hn) as Hp.
  pose proof (Z.div_mod m (2 ^ n) ltac:(lia)) as E1.
  pose proof (Z.mod_pos_bound m (2 ^ n) Hp) as B1.
  pose proof (Z.div_mod (m / 2 ^ n) 2 ltac:(lia)) as E2.
  pose proof (Z.mod_pos_bound (m / 2 ^ n) 2 ltac:(lia)) as B2.
  symmetry. apply Z.mod_unique with (m / 2 ^ n / 2).
  - left. rewrite pow2_split by lia. change (2 ^ 1) with 2. nia.
  - rewrite pow2_split by lia. change (2 ^ 1) with 2. nia.
Qed.

(** After [n + 1] steps the record holds the quotient by [2^(n+1)], the
    digit below it, and whether any digit further down is set. *)
Lemma shr_nat (m : Z) (n : nat) :
  0 <= m ->
  Nat.iter (S n) shr_1 {| shr_m := m; shr_r := false; shr_s := false |}
  = {| shr_m := m / 2 ^ (Z.of_nat n + 1);
       shr_r := Z.odd (m / 2 ^ Z.of_nat n);
       shr_s := negb (m mod 2 ^ Z.of_nat n =? 0) |}.
Proof.
  intros Hm. induction n as [|n IH].
  - cbn [Nat.iter]. rewrite shr_1_spec by exact Hm. cbn [Z.of_nat].
    change (2 ^ (0 + 1)) with 2. change (2 ^ 0) with 1.
    rewrite Z.div_1_r, Z.mod_1_r. reflexivity.
  - change (Nat.iter (S (S n)) shr_1 ?a) with (shr_1 (Nat.iter (S n) shr_1 a)).
    rewrite IH. pose proof (pow2_pos (Z.of_nat n + 1) ltac:(lia)) as Hp.
    rewrite shr_1_spec by (apply Z.div_pos; lia).
    rewrite Nat2Z.inj_succ. unfold Z.succ.
    f_equal.
    + rewrite Z.div_div by lia.
      rewrite (pow2_split (Z.of_nat n + 1) 1) by lia. reflexivity.
    + rewrite (mod_pow2_succ m (Z.of_nat n)) by lia.
      pose proof (pow2_pos (Z.of_nat n) ltac:(lia)) as Hq.
      pose proof (Z.mod_pos_bound m (2 ^ Z.of_nat n) Hq) as B.
      rewrite Zmod_odd.
      destruct (Z.odd (m / 2 ^ Z.of_nat n)); cbn [orb].
      * symmetry. apply negb_true_iff. apply Z.eqb_neq. lia.
      * rewrite Z.mul_0_r, Z.add_0_r. reflexivity.
Qed.

(** The two bits decide as the comparison of the remainder with a half
    does. *)
Lemma shr_rne (m : Z) (p : positive) :
  0 <= m ->
  let mrs := iter_pos shr_1 p
               {| shr_m := m; shr_r := false; shr_s := false |} in
  round_nearest_even (shr_m mrs) (loc_of_shr_record mrs) = rne m (Zpos p).
Proof.
  intros Hm. cbv zeta. rewrite iter_pos_nat.
  destruct (Pos.to_nat p) as [|n] eqn:E; [lia|].
  rewrite shr_nat by exact Hm.
  replace (Zpos p) with (Z.of_nat n + 1) by lia.
  unfold rne. replace (Z.of_nat n + 1 <=? 0) with false
    by (symmetry; apply Z.leb_gt; lia).
  cbv zeta. rewrite (mod_pow2_succ m (Z.of_nat n)) by lia.
  pose proof (pow2_pos (Z.of_nat n) ltac:(lia)) as Hq.
  pose proof (Z.mod_pos_bound m (2 ^ Z.of_nat n) Hq) as B.
  rewrite (pow2_split (Z.of_nat n) 1) by lia. change (2 ^ 1) with 2.
  rewrite Zmod_odd.
  destruct (Z.odd (m / 2 ^ Z.of_nat n)).
  - destruct (m mod 2 ^ Z.of_nat n =? 0) eqn:E0; cbn [negb].
    + apply Z.eqb_eq in E0. rewrite E0. cbn [loc_of_shr_record shr_m
        round_nearest_even].
      replace (2 * (0 + 2 ^ Z.of_nat n * 1) ?= 2 ^ Z.of_nat n * 2) with Eq
        by (symmetry; apply Z.compare_eq_iff; lia).
      reflexivity.
    + apply Z.eqb_neq in E0. cbn [loc_of_shr_record shr_m
        round_nearest_even].
      replace (2 * (m mod 2 ^ Z.of_nat n + 2 ^ Z.of_nat n * 1)
               ?= 2 ^ Z.of_nat n * 2) with Gt
        by (symmetry; apply Z.compare_gt_iff; lia).
      reflexivity.
  - replace (2 * (m mod 2 ^ Z.of_nat n + 2 ^ Z.of_nat n * 0)
             ?= 2 ^ Z.of_nat n * 2) with Lt
      by (symmetry; apply Z.compare_lt_iff; lia).
    now destruct (negb _).
Qed.

(** *** Rounding to the nearest whole number *)

Lemma rne_cases (m n : Z) :
  0 <= m -> 0 < n ->
  exists q r, m = 2 ^ n * q + r /\ 0 <= r < 2 ^ n /\ 0 <= q
              /\ q = m / 2 ^ n
              /\ rne m n = match 2 * r ?= 2 ^ n with
                           | Lt => q
                           | Eq => if Z.even q then q else q + 1
                           | Gt => q + 1
                           end.
Proof.
  intros Hm Hn. pose proof (pow2_pos n ltac:(lia)) as Hp.
  exists (m / 2 ^ n), (m mod 2 ^ n).
  split; [apply Z.div_mod; lia|].
  split; [now apply Z.mod_pos_bound|].
  split; [apply Z.div_pos; lia|]. split; [reflexivity|].
  unfold rne. now replace (n <=? 0) with false by (symmetry; apply Z.leb_gt; lia).
Qed.

Lemma rne_0 (m n : Z) : n <= 0 -> rne m n = m.
Proof.
  intros Hn. unfold rne. now replace (n <=? 0) with true
    by (symmetry; apply Z.leb_le; lia).
Qed.

Lemma rne_bounds (m n : Z) :
  0 <= m -> 0 <= n -> m / 2 ^ n <= rne m n <= m / 2 ^ n + 1.
Proof.
  intros Hm Hn. destruct (Z.eq_dec n 0) as [-> | Hn0].
  - rewrite rne_0 by lia. change (2 ^ 0) with 1. rewrite Z.div_1_r. lia.
  - destruct (rne_cases m n Hm ltac:(lia)) as (q & r & _ & _ & _ & <- & ->).
    destruct (2 * r ?= 2 ^ n); [destruct (Z.even q)| |]; lia.
Qed.

Lemma rne_le (k m n : Z) :
  0 <= m -> 0 <= n -> m <= k * 2 ^ n -> rne m n <= k.
Proof.
  intros Hm Hn H. destruct (Z.eq_dec n 0) as [-> | Hn0].
  - rewrite rne_0 by lia. change (2 ^ 0) with 1 in H. lia.
  - destruct (rne_cases m n Hm ltac:(lia)) as (q & r & E & B & Hq & _ & ->).
    pose proof (pow2_pos n Hn) as Hp.
    assert (q <= k) by nia.
    destruct (Z.eq_dec q k) as [-> | Hne].
    + assert (r = 0) by nia. subst r.
      replace (2 * 0 ?= 2 ^ n) with Lt
        by (symmetry; apply Z.compare_lt_iff; lia).
      lia.
    + destruct (2 * r ?= 2 ^ n); [destruct (Z.even q)| |]; lia.
Qed.

Lemma rne_ge (k m n : Z) :
  0 <= m -> 0 <= n -> k * 2 ^ n <= m -> k <= rne m n.
Proof.
  intros Hm Hn H. pose proof (rne_bounds m n Hm Hn) as [B _].
  pose proof (pow2_pos n Hn) as Hp.
  assert (k <= m / 2 ^ n) by (apply Z.div_le_lower_bound; lia).
  lia.
Qed.

Lemma rne_exact (k n : Z) : 0 <= k -> 0 <= n -> rne (k * 2 ^ n) n = k.
Proof.
  intros Hk Hn. pose proof (pow2_pos n Hn) as Hp.
  apply Z.le_antisymm.
  - apply rne_le; nia.
  - apply rne_ge; nia.
Qed.

Lemma rne_mono (m1 m2 n : Z) :
  0 <= m1 <= m2 -> rne m1 n <= rne m2 n.
Proof.
  intros [H1 H2]. destruct (Z.le_gt_cases n 0) as [Hn | Hn].
  - rewrite !rne_0 by lia. lia.
  - destruct (rne_cases m1 n H1 Hn) as (q1 & r1 & E1 & B1 & Hq1 & _ & ->).
    destruct (rne_cases m2 n ltac:(lia) Hn)
      as (q2 & r2 & E2 & B2 & Hq2 & _ & ->).
    pose proof (pow2_pos n ltac:(lia)) as Hp.
    assert (q1 <= q2) by nia.
    destruct (Z.eq_dec q1 q2) as [-> | Hne].
    + assert (r1 <= r2) by nia.
      destruct (Z.compare_spec (2 * r1) (2 ^ n));
        destruct (Z.compare_spec (2 * r2) (2 ^ n));
        destruct (Z.even q2); lia.
    + destruct (2 * r1 ?= 2 ^ n); destruct (2 * r2 ?= 2 ^ n);
        destruct (Z.even q1); destruct (Z.even q2); lia.
Qed.

(** *** The two stages of [binary_round_aux] *)

(** The quotient has at most 24 digits, and exactly 24 above the
    subnormal range. *)
Lemma quotient_digits (mz : positive) (ez : Z) :
  let f := fexp F32.prec F32.emax (Zpos (digits2_pos mz) + ez) in
  ez <= f ->
  -149 <= f
  /\ Zpos mz / 2 ^ (f - ez) < 2 ^ 24
  /\ (-149 < f -> 2 ^ 23 <= Zpos mz / 2 ^ (f - ez)).
Proof.
  intros f Hf. unfold f in *. rewrite fexp_eq in *.
  pose proof (digits2_pos_bounds mz) as [Hl Hu].
  set (d := Zpos (digits2_pos mz)) in *.
  assert (Hd : 0 < d) by (unfold d; lia).
  set (n := Z.max (d + ez - 24) (-149) - ez) in *.
  assert (Hn : 0 <= n) by lia.
  pose proof (pow2_pos n Hn) as Hp.
  split; [lia|]. split.
  - apply Z.div_lt_upper_bound; [lia|].
    destruct (Z.le_gt_cases d 24) as [Hd24 | Hd24].
    + assert (2 ^ d <= 2 ^ 24) by (apply pow2_le; lia). nia.
    + assert (2 ^ d <= 2 ^ (n + 24)) by (apply pow2_le; lia).
      rewrite pow2_split in H by lia. lia.
  - intros Hsub. apply Z.div_le_lower_bound; [lia|].
    assert (E : d - 1 = n + 23) by lia.
    rewrite E, pow2_split in Hl by lia. lia.
Qed.

(** The second stage: a quotient rounded up to 2^24 loses a digit. *)
Lemma second_shift (sx : bool) (q f : Z) :
  0 <= q <= 2 ^ 24 -> -149 <= f ->
  (let '(mrs, e) := shr_fexp F32.prec F32.emax q f loc_Exact in
   match shr_m mrs with
   | Z0 => S754_zero sx
   | Zpos m =>
       if e <=? F32.emax - F32.prec then S754_finite sx m e
       else S754_infinity sx
   | Zneg _ => S754_nan
   end) = pack sx q f.
Proof.
  intros Hq Hf. unfold shr_fexp. rewrite fexp_eq.
  cbn [shr_record_of_loc]. unfold pack.
  destruct q as [|m|m]; [| |lia].
  - cbn [Zdigits2]. unfold shr.
    destruct (Z.max (0 + f - 24) (-149) - f) eqn:E; try lia; reflexivity.
  - cbn [Zdigits2]. pose proof (digits2_pos_bounds m) as [Hl Hu].
    destruct (Z.eqb_spec (Zpos m) (2 ^ 24)) as [E | E].
    + assert (Hd : Zpos (digits2_pos m) = 25).
      { apply digits2_pos_unique. rewrite E. cbn. lia. }
      rewrite Hd. replace (Z.max (25 + f - 24) (-149) - f) with 1 by lia.
      injection E as ->. reflexivity.
    + assert (Hd : Zpos (digits2_pos m) <= 24).
      { destruct (Z.le_gt_cases (Zpos (digits2_pos m)) 24); [assumption|].
        assert (2 ^ 24 <= 2 ^ (Zpos (digits2_pos m) - 1))
          by (apply pow2_le; lia).
        lia. }
      unfold shr.
      destruct (Z.max (Zpos (digits2_pos m) + f - 24) (-149) - f) eqn:E1;
        try lia; reflexivity.
Qed.

(** [binary_round_aux] on a mantissa that is at or below the exponent of
    the result. *)
Lemma binary_round_aux_pack (sx : bool) (mz : positive) (ez : Z) :
  let f := fexp F32.prec F32.emax (Zpos (digits2_pos mz) + ez) in
  ez <= f ->
  binary_round_aux F32.prec F32.emax sx (Zpos mz) ez loc_Exact
  = pack sx (rne (Zpos mz) (f - ez)) f.
Proof.
  intros f Hf.
  destruct (quotient_digits mz ez Hf) as (Hf149 & Hlt & _). fold f in Hf149, Hlt.
  unfold binary_round_aux.
  unfold shr_fexp at 1. cbn [Zdigits2 shr_record_of_loc]. fold f.
  unfold shr at 1. destruct (f - ez) as [|p|p] eqn:En; [| |lia].
  - cbn [shr_m loc_of_shr_record round_nearest_even].
    rewrite rne_0 by lia. replace ez with f by lia.
    apply second_shift; [|exact Hf149].
    change (2 ^ 0) with 1 in Hlt. rewrite Z.div_1_r in Hlt. lia.
  - rewrite shr_rne by lia. replace (ez + Zpos p) with f by lia.
    apply second_shift; [|exact Hf149].
    pose proof (rne_bounds (Zpos mz) (Zpos p) ltac:(lia) ltac:(lia)).
    assert (0 <= Zpos mz / 2 ^ Zpos p)
      by (apply Z.div_pos; [lia | apply pow2_pos; lia]).
    lia.
Qed.

Lemma aligned_spec (mx : positive) (ex : Z) :
  let '(M, n, f) := aligned mx ex in
  f = fexp F32.prec F32.emax (Zpos (digits2_pos mx) + ex)
  /\ 0 <= n /\ n = f - Z.min ex f /\ M = Zpos mx * 2 ^ (ex - Z.min ex f)
  /\ 0 < M /\ -149 <= f
  /\ M / 2 ^ n < 2 ^ 24
  /\ (-149 < f -> 2 ^ 23 <= M / 2 ^ n).
Proof.
  unfold aligned.
  set (f := fexp F32.prec F32.emax (Zpos (digits2_pos mx) + ex)).
  set (ez := Z.min ex f).
  pose proof (shl_align_spec mx ex f) as [Hs Hm]. fold ez in Hs, Hm.
  destruct (shl_align mx ex f) as [mz ez'] eqn:Es. cbn [fst snd] in *.
  assert (Hd : Zpos (digits2_pos mz) + ez = Zpos (digits2_pos mx) + ex).
  { rewrite (digits2_pos_shift mx mz (ex - ez)); [lia | lia | exact Hm]. }
  assert (Hf : ez <= fexp F32.prec F32.emax (Zpos (digits2_pos mz) + ez)).
  { rewrite Hd. fold f. lia. }
  destruct (quotient_digits mz ez Hf) as (H1 & H2 & H3).
  rewrite Hd in H1, H2, H3. fold f in H1, H2, H3. rewrite Hm in H2, H3.
  repeat split; try assumption; try lia.
Qed.

(** The closed form of [binary_round]. *)
Lemma binary_round_pack (sx : bool) (mx : positive) (ex : Z) :
  binary_round F32.prec F32.emax sx mx ex
  = let '(M, n, f) := aligned mx ex in pack sx (rne M n) f.
Proof.
  unfold binary_round, aligned.
  set (f := fexp F32.prec F32.emax (Zpos (digits2_pos mx) + ex)).
  pose proof (shl_align_spec mx ex f) as [Hs Hm].
  destruct (shl_align mx ex f) as [mz ez] eqn:Es. cbn [fst snd] in *.
  subst ez.
  assert (Hd : Zpos (digits2_pos mz) + Z.min ex f
               = Zpos (digits2_pos mx) + ex).
  { rewrite (digits2_pos_shift mx mz (ex - Z.min ex f)); [lia | lia | exact Hm]. }
  rewrite binary_round_aux_pack; rewrite Hd; fold f; [|lia].
  now rewrite Hm.
Qed.

Lemma rne_scale (m n k : Z) :
  0 <= m -> 0 <= n -> 0 <= k -> rne (m * 2 ^ k) (n + k) = rne m n.
Proof.
  intros Hm Hn Hk. pose proof (pow2_pos k Hk) as Hpk.
  destruct (Z.eq_dec n 0) as [-> | Hn0].
  - rewrite (rne_0 m 0) by lia. now apply rne_exact.
  - pose proof (pow2_pos n Hn) as Hpn.
    unfold rne.
    replace (n + k <=? 0) with false by (symmetry; apply Z.leb_gt; lia).
    replace (n <=? 0) with false by (symmetry; apply Z.leb_gt; lia).
    cbv zeta. rewrite (pow2_split n k) by lia.
    rewrite Z.div_mul_cancel_r by lia.
    rewrite Z.mul_mod_distr_r by lia.
    set (r := m mod 2 ^ n).
    replace (2 * (r * 2 ^ k) ?= 2 ^ n * 2 ^ k) with (2 * r ?= 2 ^ n);
      [reflexivity|].
    destruct (Z.compare_spec (2 * r) (2 ^ n)); symmetry;
      [apply Z.compare_eq_iff | apply Z.compare_lt_iff
       | apply Z.compare_gt_iff]; nia.
Qed.

(** *** The order of packed numbers *)

Ltac pack_order :=
  unfold pack; intros;
  repeat match goal with
    | |- context [match ?q with Z0 => _ | Zpos _ => _ | Zneg _ => _ end] =>
        destruct q
    | |- context [Z.eqb ?a ?b] => destruct (Z.eqb_spec a b)
    | |- context [Z.leb ?a ?b] => destruct (Z.leb_spec a b)
    end;
  unfold binary32, valid_binary, bounded, canonical_mantissa,
    F32.leb, F32.ltb, SFleb, SFltb, SFcompare in *;
  rewrite ?Pos.compare_cont_spec; cbn [Pos.switch_Eq];
  change (Zpos (2 ^ 23)) with 8388608 in *;
  change (2 ^ 24) with 16777216 in *;
  change (2 ^ 23) with 8388608 in *;
  compare_cases; try reflexivity; try congruence; try lia.

Lemma pack_mono (q1 q2 f : Z) :
  0 <= q1 <= q2 -> q2 <= 2 ^ 24 ->
  F32.leb (pack false q1 f) (pack false q2 f) = true
  /\ F32.leb (pack true q2 f) (pack true q1 f) = true.
Proof. split; pack_order. Qed.

Lemma pack_step (q1 q2 f1 f2 : Z) :
  f1 < f2 -> 0 <= q1 <= 2 ^ 24 -> 2 ^ 23 <= q2 <= 2 ^ 24 ->
  F32.leb (pack false q1 f1) (pack false q2 f2) = true
  /\ F32.leb (pack true q2 f2) (pack true q1 f1) = true.
Proof. split; pack_order. Qed.

Lemma pack_signs (q1 q2 f1 f2 : Z) (s : bool) :
  0 <= q1 -> 0 <= q2 ->
  F32.leb (pack true q1 f1) (pack false q2 f2) = true
  /\ F32.leb (pack true q1 f1) (S754_zero s) = true
  /\ F32.leb (S754_zero s) (pack false q2 f2) = true.
Proof. repeat split; pack_order. Qed.

Lemma pack_opp (s : bool) (q f : Z) :
  pack (negb s) q f = SFopp (pack s q f).
Proof. pack_order. Qed.

(** *** Rounding is monotone *)

(** The exponent of the result grows with the magnitude. *)
Lemma digits_scaled_le (p1 p2 : positive) (k1 k2 : Z) :
  0 <= k1 -> 0 <= k2 -> Zpos p1 * 2 ^ k1 <= Zpos p2 * 2 ^ k2 ->
  Zpos (digits2_pos p1) + k1 <= Zpos (digits2_pos p2) + k2.
Proof.
  intros Hk1 Hk2 H.
  pose proof (digits2_pos_bounds p1) as [Hl _].
  pose proof (digits2_pos_bounds p2) as [_ Hu].
  pose proof (pow2_pos k1 Hk1). pose proof (pow2_pos k2 Hk2).
  assert (Hlt : 2 ^ (Zpos (digits2_pos p1) - 1 + k1)
                < 2 ^ (Zpos (digits2_pos p2) + k2)).
  { rewrite !pow2_split by lia. nia. }
  apply Z.pow_lt_mono_r_iff in Hlt; lia.
Qed.

Lemma round_mono (p1 p2 : positive) (e1 e2 : Z) :
  Zpos p1 * 2 ^ (e1 - Z.min e1 e2) <= Zpos p2 * 2 ^ (e2 - Z.min e1 e2) ->
  F32.leb (binary_round F32.prec F32.emax false p1 e1)
          (binary_round F32.prec F32.emax false p2 e2) = true
  /\ F32.leb (binary_round F32.prec F32.emax true p2 e2)
             (binary_round F32.prec F32.emax true p1 e1) = true.
Proof.
  intros H. rewrite !binary_round_pack.
  pose proof (aligned_spec p1 e1) as A1. pose proof (aligned_spec p2 e2) as A2.
  destruct (aligned p1 e1) as [[M1 n1] f1].
  destruct (aligned p2 e2) as [[M2 n2] f2].
  destruct A1 as (Hf1 & Hn1 & En1 & EM1 & HM1 & Hb1 & Hq1 & Hs1).
  destruct A2 as (Hf2 & Hn2 & En2 & EM2 & HM2 & Hb2 & Hq2 & Hs2).
  pose proof (digits_scaled_le p1 p2 (e1 - Z.min e1 e2) (e2 - Z.min e1 e2)
                ltac:(lia) ltac:(lia) H) as Hd.
  assert (Hf : f1 <= f2) by (rewrite Hf1, Hf2, !fexp_eq; lia).
  pose proof (rne_bounds M1 n1 ltac:(lia) Hn1) as B1.
  pose proof (rne_bounds M2 n2 ltac:(lia) Hn2) as B2.
  assert (0 <= M1 / 2 ^ n1)
    by (apply Z.div_pos; [lia | now apply pow2_pos]).
  assert (0 <= M2 / 2 ^ n2)
    by (apply Z.div_pos; [lia | now apply pow2_pos]).
  destruct (Z.eq_dec f1 f2) as [E | E].
  - rewrite <- E in *. clear E Hf.
    set (c := Z.min (Z.min e1 e2) f1).
    assert (R1 : rne M1 n1 = rne (Zpos p1 * 2 ^ (e1 - c)) (f1 - c)).
    { rewrite <- (rne_scale M1 n1 (Z.min e1 f1 - c)) by lia.
      rewrite EM1, <- Z.mul_assoc, <- pow2_split by lia.
      f_equal; [f_equal; f_equal|]; lia. }
    assert (R2 : rne M2 n2 = rne (Zpos p2 * 2 ^ (e2 - c)) (f1 - c)).
    { rewrite <- (rne_scale M2 n2 (Z.min e2 f1 - c)) by lia.
      rewrite EM2, <- Z.mul_assoc, <- pow2_split by lia.
      f_equal; [f_equal; f_equal|]; lia. }
    assert (Hr : rne M1 n1 <= rne M2 n2).
    { rewrite R1, R2. apply rne_mono. split; [lia|].
      replace (e1 - c) with (e1 - Z.min e1 e2 + (Z.min e1 e2 - c)) by lia.
      replace (e2 - c) with (e2 - Z.min e1 e2 + (Z.min e1 e2 - c)) by lia.
      rewrite !pow2_split by lia.
      pose proof (pow2_pos (Z.min e1 e2 - c) ltac:(lia)). nia. }
    apply pack_mono; lia.
  - apply pack_step; lia.
Qed.

(** *** Rounding leaves a binary32 value as it is *)

Lemma binary32_finite (s : bool) (m : positive) (e : Z) :
  binary32 (S754_finite s m e) <->
  fexp F32.prec F32.emax (Zpos (digits2_pos m) + e) = e /\ e <= 104.
Proof.
  unfold binary32, valid_binary, bounded, canonical_mantissa.
  rewrite andb_true_iff, Z.eqb_eq, Z.leb_le. reflexivity.
Qed.

Lemma binary32_digits (s : bool) (m : positive) (e : Z) :
  binary32 (S754_finite s m e) ->
  Zpos m < 2 ^ 24 /\ -149 <= e <= 104 /\ (-149 < e -> 2 ^ 23 <= Zpos m).
Proof.
  intros H. apply binary32_finite in H as [Hc He]. rewrite fexp_eq in Hc.
  pose proof (digits2_pos_bounds m) as [Hl Hu].
  split; [|split; [lia|]].
  - assert (2 ^ Zpos (digits2_pos m) <= 2 ^ 24) by (apply pow2_le; lia). lia.
  - intros Hs. replace (Zpos (digits2_pos m) - 1) with 23 in Hl by lia.
    exact Hl.
Qed.

Lemma round_exact (s : bool) (p m0 : positive) (e e0 : Z) :
  binary32 (S754_finite s m0 e0) ->
  Zpos p * 2 ^ (e - Z.min e e0) = Zpos m0 * 2 ^ (e0 - Z.min e e0) ->
  binary_round F32.prec F32.emax s p e = S754_finite s m0 e0.
Proof.
  intros Hv H. pose proof (binary32_digits s m0 e0 Hv) as (Hm & He & _).
  apply binary32_finite in Hv as [Hc _].
  rewrite binary_round_pack. pose proof (aligned_spec p e) as A.
  destruct (aligned p e) as [[M n] f].
  destruct A as (Hf & Hn & En & EM & HM & Hb & Hq & Hs).
  assert (Hd : Zpos (digits2_pos p) + e = Zpos (digits2_pos m0) + e0).
  { pose proof (digits_scaled_le p m0 (e - Z.min e e0) (e0 - Z.min e e0)
                  ltac:(lia) ltac:(lia) ltac:(rewrite H; lia)).
    pose proof (digits_scaled_le m0 p (e0 - Z.min e e0) (e - Z.min e e0)
                  ltac:(lia) ltac:(lia) ltac:(rewrite H; lia)).
    lia. }
  rewrite Hd, Hc in Hf. subst f.
  rewrite EM, H. replace n with (e0 - Z.min e e0) by lia.
  rewrite rne_exact by lia.
  unfold pack. destruct (Z.eqb_spec (Zpos m0) (2 ^ 24)); [lia|].
  destruct (Z.leb_spec e0 104); [reflexivity | lia].
Qed.

(** *** Rounding yields binary32 values *)

Lemma pack_binary32 (s : bool) (q f : Z) :
  0 <= q <= 2 ^ 24 -> -149 <= f -> (-149 < f -> 2 ^ 23 <= q) ->
  binary32 (pack s q f).
Proof.
  intros Hq Hf Hn. unfold pack. destruct q as [|m|m]; [reflexivity| |lia].
  destruct (Z.eqb_spec (Zpos m) (2 ^ 24)) as [E | E].
  - destruct (Z.leb_spec (f + 1) 104); [|reflexivity].
    apply binary32_finite. split; [|assumption]. rewrite fexp_eq.
    change (Zpos (digits2_pos (2 ^ 23))) with 24. lia.
  - destruct (Z.leb_spec f 104); [|reflexivity].
    apply binary32_finite. split; [|assumption]. rewrite fexp_eq.
    pose proof (digits2_pos_bounds m) as [Hl Hu].
    assert (Hd : Zpos (digits2_pos m) <= 24).
    { destruct (Z.le_gt_cases (Zpos (digits2_pos m)) 24); [assumption|].
      assert (2 ^ 24 <= 2 ^ (Zpos (digits2_pos m) - 1))
        by (apply pow2_le; lia).
      lia. }
    destruct (Z.eq_dec f (-149)) as [-> | Hf'].
    + lia.
    + assert (Zpos (digits2_pos m) = 24).
      { apply digits2_pos_unique. change (2 ^ (24 - 1)) with (2 ^ 23). lia. }
      lia.
Qed.

Lemma binary_round_aux_binary32 (sx : bool) (mz : positive) (ez : Z) :
  ez <= fexp F32.prec F32.emax (Zpos (digits2_pos mz) + ez) ->
  binary32 (binary_round_aux F32.prec F32.emax sx (Zpos mz) ez loc_Exact).
Proof.
  intros Hf. rewrite binary_round_aux_pack by exact Hf.
  destruct (quotient_digits mz ez Hf) as (H1 & H2 & H3).
  set (f := fexp F32.prec F32.emax (Zpos (digits2_pos mz) + ez)) in *.
  assert (Hn : 0 <= f - ez) by lia.
  pose proof (rne_bounds (Zpos mz) (f - ez) ltac:(lia) Hn) as B.
  assert (0 <= Zpos mz / 2 ^ (f - ez))
    by (apply Z.div_pos; [lia | now apply pow2_pos]).
  apply pack_binary32; [lia | lia |]. intros Hs. specialize (H3 Hs). lia.
Qed.

Lemma binary_round_binary32 (sx : bool) (mx : positive) (ex : Z) :
  binary32 (binary_round F32.prec F32.emax sx mx ex).
Proof.
  rewrite binary_round_pack. pose proof (aligned_spec mx ex) as A.
  destruct (aligned mx ex) as [[M n] f].
  destruct A as (Hf & Hn & En & EM & HM & Hb & Hq & Hs).
  pose proof (rne_bounds M n ltac:(lia) Hn) as B.
  assert (0 <= M / 2 ^ n) by (apply Z.div_pos; [lia | now apply pow2_pos]).
  apply pack_binary32; [lia | lia |]. intros Hs'. specialize (Hs Hs'). lia.
Qed.

(** *** [binary_normalize], with its sign *)

Lemma binary_normalize_binary32 (m e : Z) (sz : bool) :
  binary32 (binary_normalize F32.prec F32.emax m e sz).
Proof.
  destruct m; cbn [binary_normalize];
    [reflexivity | apply binary_round_binary32 | apply binary_round_binary32].
Qed.

Lemma binary_round_sign (s : bool) (p : positive) (e : Z) (z : bool) :
  (if s then F32.leb (binary_round F32.prec F32.emax s p e) (S754_zero z)
   else F32.leb (S754_zero z) (binary_round F32.prec F32.emax s p e)) = true.
Proof.
  rewrite binary_round_pack. pose proof (aligned_spec p e) as A.
  destruct (aligned p e) as [[M n] f].
  destruct A as (Hf & Hn & En & EM & HM & Hb & Hq & Hs).
  pose proof (rne_bounds M n ltac:(lia) Hn) as B.
  assert (0 <= M / 2 ^ n) by (apply Z.div_pos; [lia | now apply pow2_pos]).
  destruct s; apply (pack_signs (rne M n) (rne M n) f f z); lia.
Qed.

Lemma binary_normalize_mono (m1 m2 e1 e2 : Z) :
  m1 * 2 ^ (e1 - Z.min e1 e2) <= m2 * 2 ^ (e2 - Z.min e1 e2) ->
  F32.leb (binary_normalize F32.prec F32.emax m1 e1 false)
          (binary_normalize F32.prec F32.emax m2 e2 false) = true.
Proof.
  intros H.
  pose proof (pow2_pos (e1 - Z.min e1 e2) ltac:(lia)) as P1.
  pose proof (pow2_pos (e2 - Z.min e1 e2) ltac:(lia)) as P2.
  destruct m1 as [|p1|p1], m2 as [|p2|p2]; cbn [binary_normalize];
    try reflexivity; try (exfalso; nia).
  - apply (binary_round_sign false p2 e2 false).
  - now apply round_mono.
  - apply (binary_round_sign true p1 e1 false).
  - rewrite !binary_round_pack.
    pose proof (aligned_spec p1 e1) as A1.
    pose proof (aligned_spec p2 e2) as A2.
    destruct (aligned p1 e1) as [[M1 n1] f1].
    destruct (aligned p2 e2) as [[M2 n2] f2].
    destruct A1 as (_ & Hn1 & _ & _ & HM1 & _).
    destruct A2 as (_ & Hn2 & _ & _ & HM2 & _).
    pose proof (rne_bounds M1 n1 ltac:(lia) Hn1) as B1.
    pose proof (rne_bounds M2 n2 ltac:(lia) Hn2) as B2.
    assert (0 <= M1 / 2 ^ n1)
      by (apply Z.div_pos; [lia | now apply pow2_pos]).
    assert (0 <= M2 / 2 ^ n2)
      by (apply Z.div_pos; [lia | now apply pow2_pos]).
    apply (pack_signs (rne M1 n1) (rne M2 n2) f1 f2 false); lia.
  - apply round_mono.
    rewrite Z.min_comm. rewrite <- !Pos2Z.opp_pos in H. lia.
Qed.

Lemma binary_normalize_exact (s : bool) (m0 : positive) (e0 m e : Z) :
  binary32 (S754_finite s m0 e0) ->
  m * 2 ^ (e - Z.min e e0)
  = cond_Zopp s (Zpos m0 * 2 ^ (e0 - Z.min e e0)) ->
  binary_normalize F32.prec F32.emax m e false = S754_finite s m0 e0.
Proof.
  intros Hv H.
  pose proof (pow2_pos (e - Z.min e e0) ltac:(lia)) as P1.
  pose proof (pow2_pos (e0 - Z.min e e0) ltac:(lia)) as P2.
  destruct s; cbn [cond_Zopp] in H;
    destruct m as [|p|p]; cbn [binary_normalize]; try (exfalso; nia).
  - apply round_exact; [exact Hv|]. rewrite <- Pos2Z.opp_pos in H. lia.
  - apply round_exact; [exact Hv|]. exact H.
Qed.

(** *** Sums, differences and products *)

Lemma add_finite (sx sy : bool) (mx my : positive) (ex ey : Z) :
  F32.add (S754_finite sx mx ex) (S754_finite sy my ey)
  = binary_normalize F32.prec F32.emax
      (cond_Zopp sx (Zpos mx * 2 ^ (ex - Z.min ex ey))
       + cond_Zopp sy (Zpos my * 2 ^ (ey - Z.min ex ey)))
      (Z.min ex ey) false.
Proof.
  unfold F32.add, SFadd. cbv zeta.
  destruct (shl_align_spec mx ex (Z.min ex ey)) as [_ ->].
  destruct (shl_align_spec my ey (Z.min ex ey)) as [_ ->].
  replace (Z.min ex (Z.min ex ey)) with (Z.min ex ey) by lia.
  replace (Z.min ey (Z.min ex ey)) with (Z.min ex ey) by lia.
  reflexivity.
Qed.

Lemma sub_finite (sx sy : bool) (mx my : positive) (ex ey : Z) :
  F32.sub (S754_finite sx mx ex) (S754_finite sy my ey)
  = binary_normalize F32.prec F32.emax
      (cond_Zopp sx (Zpos mx * 2 ^ (ex - Z.min ex ey))
       - cond_Zopp sy (Zpos my * 2 ^ (ey - Z.min ex ey)))
      (Z.min ex ey) false.
Proof.
  unfold F32.sub, SFsub. cbv zeta.
  destruct (shl_align_spec mx ex (Z.min ex ey)) as [_ ->].
  destruct (shl_align_spec my ey (Z.min ex ey)) as [_ ->].
  replace (Z.min ex (Z.min ex ey)) with (Z.min ex ey) by lia.
  replace (Z.min ey (Z.min ex ey)) with (Z.min ex ey) by lia.
  reflexivity.
Qed.

Lemma finite_as_normalize (s : bool) (m : positive) (e e' : Z) :
  binary32 (S754_finite s m e) -> e' <= e ->
  binary_normalize F32.prec F32.emax
    (cond_Zopp s (Zpos m * 2 ^ (e - e'))) e' false
  = S754_finite s m e.
Proof.
  intros Hv He. apply binary_normalize_exact; [exact Hv|].
  replace (Z.min e' e) with e' by lia. rewrite Z.sub_diag.
  change (2 ^ 0) with 1. lia.
Qed.

(** Adding a number that is not negative does not give less. *)
Lemma add_ge (a b : float) :
  binary32 a -> F32.leb a a = true -> finite_not_negative b = true ->
  F32.leb a (F32.add a b) = true.
Proof.
  intros Hv Ha Hb.
  destruct b as [sb| | |sb mb eb]; try discriminate;
    destruct a as [sa|sa| |sa ma ea]; try discriminate.
  - now destruct sa, sb.
  - exact Ha.
  - exact Ha.
  - cbn in Hb. destruct sb; [discriminate|]. reflexivity.
  - exact Ha.
  - cbn in Hb. destruct sb; [discriminate|]. rewrite add_finite.
    rewrite <- (finite_as_normalize sa ma ea (Z.min ea eb) Hv ltac:(lia))
      at 1.
    apply binary_normalize_mono. cbn [cond_Zopp].
    pose proof (pow2_pos (eb - Z.min ea eb) ltac:(lia)).
    rewrite Z.min_id, Z.sub_diag. lia.
Qed.

(** Taking away a number that is not negative does not give more. *)
Lemma sub_le (a b : float) :
  binary32 a -> F32.leb a a = true -> finite_not_negative b = true ->
  F32.leb (F32.sub a b) a = true.
Proof.
  intros Hv Ha Hb.
  destruct b as [sb| | |sb mb eb]; try discriminate;
    destruct a as [sa|sa| |sa ma ea]; try discriminate.
  - now destruct sa, sb.
  - exact Ha.
  - exact Ha.
  - cbn in Hb. destruct sb; [discriminate|]. reflexivity.
  - exact Ha.
  - cbn in Hb. destruct sb; [discriminate|]. rewrite sub_finite.
    rewrite <- (finite_as_normalize sa ma ea (Z.min ea eb) Hv ltac:(lia)).
    apply binary_normalize_mono. cbn [cond_Zopp].
    pose proof (pow2_pos (eb - Z.min ea eb) ltac:(lia)).
    rewrite Z.min_id, Z.sub_diag. lia.
Qed.

Lemma add_binary32 (a b : float) :
  binary32 a -> binary32 b -> binary32 (F32.add a b).
Proof.
  intros Ha Hb.
  destruct a as [sa|sa| |sa ma ea], b as [sb|sb| |sb mb eb];
    try (rewrite add_finite; apply binary_normalize_binary32);
    try assumption; try reflexivity;
    try (destruct sa, sb; reflexivity).
Qed.

Lemma sub_binary32 (a b : float) :
  binary32 a -> binary32 b -> binary32 (F32.sub a b).
Proof.
  intros Ha Hb.
  destruct a as [sa|sa| |sa ma ea], b as [sb|sb| |sb mb eb];
    try (rewrite sub_finite; apply binary_normalize_binary32);
    try assumption; try reflexivity;
    try (destruct sa, sb; reflexivity).
Qed.

Lemma mul_binary32 (a b : float) :
  binary32 a -> binary32 b -> binary32 (F32.mul a b).
Proof.
  intros Ha Hb.
  destruct a as [sa|sa| |sa ma ea], b as [sb|sb| |sb mb eb];
    try reflexivity.
  unfold F32.mul, SFmul. apply binary_round_aux_binary32.
  apply binary32_finite in Ha as [Ha _]. apply binary32_finite in Hb as [Hb _].
  rewrite fexp_eq in *.
  pose proof (digits2_pos_bounds ma) as [La Ua].
  pose proof (digits2_pos_bounds mb) as [Lb Ub].
  pose proof (digits2_pos_bounds (ma * mb)) as [_ Uab].
  rewrite Pos2Z.inj_mul in Uab.
  assert (Hd : Zpos (digits2_pos ma) + Zpos (digits2_pos mb) - 1
               <= Zpos (digits2_pos (ma * mb))).
  { assert (2 ^ (Zpos (digits2_pos ma) - 1 + (Zpos (digits2_pos mb) - 1))
            < 2 ^ Zpos (digits2_pos (ma * mb))).
    { rewrite pow2_split by lia. nia. }
    apply Z.pow_lt_mono_r_iff in H; lia. }
  lia.
Qed.

(** *** Conversions from [int] *)

Lemma of_int_binary32 (n : Z) : binary32 (F32.of_int n).
Proof. apply binary_normalize_binary32. Qed.

Lemma of_int_order (a b : Z) :
  a <= b -> F32.leb (F32.of_int a) (F32.of_int b) = true.
Proof.
  intros H. apply binary_normalize_mono. rewrite Z.min_id, Z.sub_diag. lia.
Qed.

(** A positive [int] becomes a normal number of about as many digits. *)
Lemma of_int_shape (g k : Z) :
  0 <= k -> 2 ^ k <= g <= F32.int_max ->
  exists m e, F32.of_int g = S754_finite false m e
              /\ 2 ^ 23 <= Zpos m /\ k - 23 <= e.
Proof.
  intros Hk [Hg Hmax]. pose proof (pow2_pos k Hk) as Hp.
  destruct g as [|p|p]; try lia.
  unfold F32.of_int. cbn [binary_normalize]. rewrite binary_round_pack.
  pose proof (aligned_spec p 0) as A.
  destruct (aligned p 0) as [[M n] f].
  destruct A as (Hf & Hn & En & EM & HM & Hb & Hq & Hs).
  rewrite fexp_eq in Hf.
  pose proof (digits2_pos_bounds p) as [Hl Hu].
  assert (Hd : Zpos (digits2_pos p) <= 31).
  { destruct (Z.le_gt_cases (Zpos (digits2_pos p)) 31); [assumption|].
    assert (2 ^ 31 <= 2 ^ (Zpos (digits2_pos p) - 1)) by (apply pow2_le; lia).
    unfold F32.int_max in Hmax. lia. }
  assert (Hdk : k + 1 <= Zpos (digits2_pos p)).
  { destruct (Z.le_gt_cases (k + 1) (Zpos (digits2_pos p))); [assumption|].
    assert (2 ^ Zpos (digits2_pos p) <= 2 ^ k) by (apply pow2_le; lia).
    lia. }
  pose proof (rne_bounds M n ltac:(lia) Hn) as B.
  specialize (Hs ltac:(lia)).
  unfold pack. destruct (rne M n) as [|q|q] eqn:Eq; try lia.
  destruct (Z.eqb_spec (Zpos q) (2 ^ 24)).
  - destruct (Z.leb_spec (f + 1) 104); [|lia].
    exists (2 ^ 23)%positive, (f + 1). repeat split; [reflexivity | lia].
  - destruct (Z.leb_spec f 104); [|lia].
    exists q, f. repeat split; lia.
Qed.

Lemma of_int_finite_not_negative (g : Z) :
  0 <= g <= F32.int_max -> finite_not_negative (F32.of_int g) = true.
Proof.
  intros [Hg Hmax]. destruct (Z.eq_dec g 0) as [-> | Hne]; [reflexivity|].
  destruct (of_int_shape g 0 ltac:(lia) ltac:(change (2 ^ 0) with 1; lia))
    as (m & e & -> & _).
  reflexivity.
Qed.

(** *** When a sum is greater *)

Lemma pack_gt (m0 : positive) (e0 q f : Z) :
  0 < q <= 2 ^ 24 ->
  f = e0 /\ Zpos m0 < q \/ e0 < f ->
  F32.ltb (S754_finite false m0 e0) (pack false q f) = true.
Proof. pack_order. Qed.

(** The number after [m0 * 2^e0] in the format, or beyond, is greater. *)
Lemma round_succ_gt (m0 : positive) (e0 : Z) :
  binary32 (S754_finite false m0 e0) ->
  F32.ltb (S754_finite false m0 e0)
          (binary_round F32.prec F32.emax false (m0 + 1) e0) = true.
Proof.
  intros Hv. pose proof (binary32_digits _ _ _ Hv) as (Hm & He & _).
  apply binary32_finite in Hv as [Hc _]. rewrite fexp_eq in Hc.
  rewrite binary_round_pack. pose proof (aligned_spec (m0 + 1) e0) as A.
  destruct (aligned (m0 + 1) e0) as [[M n] f].
  destruct A as (Hf & Hn & En & EM & HM & Hb & Hq & Hs).
  rewrite fexp_eq in Hf.
  pose proof (digits_scaled_le m0 (m0 + 1) 0 0 ltac:(lia) ltac:(lia)
                ltac:(lia)) as Hd.
  assert (Hfe : e0 <= f) by lia.
  replace (Z.min e0 f) with e0 in * by lia.
  rewrite Z.sub_diag in EM. change (2 ^ 0) with 1 in EM.
  pose proof (rne_bounds M n ltac:(lia) Hn) as B.
  assert (0 <= M / 2 ^ n) by (apply Z.div_pos; [lia | now apply pow2_pos]).
  destruct (Z.eq_dec f e0) as [E | E].
  - apply pack_gt.
    + replace n with 0 in * by lia. rewrite rne_0 in * by lia. lia.
    + left. split; [exact E|]. replace n with 0 by lia.
      rewrite rne_0 by lia. lia.
  - specialize (Hs ltac:(lia)). apply pack_gt; [lia | right; lia].
Qed.

(** Below [2^(24+k)] two neighbours in the format are [2^k] apart at
    most: adding [2^k] or more gives a greater number. *)
Lemma add_gt (a : float) (g k : Z) :
  binary32 a -> finite_not_negative a = true ->
  0 <= k -> 2 ^ k <= g <= F32.int_max ->
  F32.ltb a (F32.of_int (2 ^ (24 + k))) = true ->
  F32.ltb a (F32.add a (F32.of_int g)) = true.
Proof.
  intros Hv Ha Hk Hg Hlt.
  destruct (of_int_shape g k Hk Hg) as (mb & eb & Eg & Hmb & Heb).
  rewrite Eg.
  destruct a as [sa|sa| |sa m0 e0]; try discriminate; [reflexivity|].
  cbn in Ha. destruct sa; [discriminate|].
  assert (Hk30 : k <= 30).
  { destruct (Z.le_gt_cases k 30); [assumption|].
    assert (2 ^ 31 <= 2 ^ k) by (apply pow2_le; lia).
    unfold F32.int_max in Hg. lia. }
  assert (Hpow : F32.of_int (2 ^ (24 + k))
                 = S754_finite false (2 ^ 23) (k + 1)).
  { unfold F32.of_int. apply binary_normalize_exact.
    - apply binary32_finite. rewrite fexp_eq.
      change (Zpos (digits2_pos (2 ^ 23))) with 24. lia.
    - replace (Z.min 0 (k + 1)) with 0 by lia. cbn [cond_Zopp].
      rewrite !Z.sub_0_r. change (2 ^ 0) with 1.
      change (Zpos (2 ^ 23)) with (2 ^ 23).
      replace (24 + k) with (23 + (k + 1)) by lia.
      rewrite pow2_split by lia. lia. }
  rewrite Hpow in Hlt.
  pose proof (binary32_digits _ _ _ Hv) as (Hm & He & Hn).
  assert (He0 : e0 <= k).
  { unfold F32.ltb, SFltb, SFcompare in Hlt.
    rewrite Pos.compare_cont_spec in Hlt. cbn [Pos.switch_Eq] in Hlt.
    destruct (Z.compare_spec e0 (k + 1)) as [E | E | E];
      [|lia|discriminate].
    destruct (Pos.compare_spec m0 (2 ^ 23)) as [E1 | E1 | E1];
      try discriminate.
    specialize (Hn ltac:(lia)).
    apply Pos2Z.pos_lt_pos in E1. change (Zpos (2 ^ 23)) with 8388608 in E1.
    change (2 ^ 23) with 8388608 in Hn. clear - E1 Hn. lia. }
  apply ltb_leb_trans with (binary_round F32.prec F32.emax false (m0 + 1) e0).
  - now apply round_succ_gt.
  - rewrite add_finite. cbn [cond_Zopp].
    set (ez := Z.min e0 eb).
    pose proof (pow2_pos (e0 - ez) ltac:(lia)) as P1.
    pose proof (pow2_pos (eb - ez) ltac:(lia)) as P2.
    assert (Hs : 2 ^ (e0 - ez) <= Zpos mb * 2 ^ (eb - ez)).
    { assert (2 ^ (e0 - ez) <= 2 ^ (23 + (eb - ez)))
        by (apply pow2_le; lia).
      rewrite pow2_split in H by lia. nia. }
    apply (binary_normalize_mono (Zpos (m0 + 1)) _ e0 ez).
    replace (Z.min e0 ez) with ez by lia. rewrite Z.sub_diag.
    change (2 ^ 0) with 1. rewrite Pos2Z.inj_add. nia.
Qed.

(** *** Numbers with a clear sign bit *)

Lemma ltb_sign_clear (a b : float) :
  sign_clear a = true -> F32.ltb a b = true -> sign_clear b = true.
Proof. unfold sign_clear. float_order. Qed.

Lemma leb_cases (a b : float) :
  sign_clear a = true -> sign_clear b = true -> F32.leb a b = true ->
  F32.ltb a b = true \/ b = a.
Proof.
  unfold sign_clear, F32.leb, F32.ltb, SFleb, SFltb, SFcompare.
  destruct a as [sa|sa| |sa ma ea], b as [sb|sb| |sb mb eb];
    try discriminate; destruct sa, sb; try discriminate; intros _ _;
    auto.
  rewrite Pos.compare_cont_spec. cbn [Pos.switch_Eq].
  destruct (Z.compare_spec ea eb); try discriminate; auto.
  destruct (Pos.compare_spec ma mb); try discriminate; auto.
  subst. now right.
Qed.

Lemma sign_clear_number (a : float) :
  sign_clear a = true -> F32.leb a a = true.
Proof. unfold sign_clear. float_order. Qed.

Lemma sign_clear_finite (a b : float) :
  sign_clear a = true -> F32.ltb a b = true -> finite_not_negative a = true.
Proof. unfold sign_clear, finite_not_negative. float_order. Qed.

Lemma of_int_sign_clear (g : Z) :
  0 <= g <= F32.int_max -> sign_clear (F32.of_int g) = true.
Proof.
  intros [Hg Hmax]. destruct (Z.eq_dec g 0) as [-> | Hne]; [reflexivity|].
  destruct (of_int_shape g 0 ltac:(lia) ltac:(change (2 ^ 0) with 1; lia))
    as (m & e & -> & _).
  reflexivity.
Qed.

Lemma add_sign_clear (a b : float) :
  sign_clear a = true -> sign_clear b = true ->
  finite_not_negative b = true -> sign_clear (F32.add a b) = true.
Proof.
  intros Ha Hb Hf.
  destruct b as [sb| | |sb mb eb]; try discriminate;
    destruct a as [sa|sa| |sa ma ea]; try discriminate;
    cbn in Ha, Hb; destruct sa, sb; try discriminate; try reflexivity.
  rewrite add_finite. cbn [cond_Zopp].
  pose proof (pow2_pos (ea - Z.min ea eb) ltac:(lia)).
  pose proof (pow2_pos (eb - Z.min ea eb) ltac:(lia)).
  destruct (Zpos ma * 2 ^ (ea - Z.min ea eb)
            + Zpos mb * 2 ^ (eb - Z.min ea eb)) as [|p|p] eqn:E; try lia.
  cbn [binary_normalize]. rewrite binary_round_pack.
  pose proof (aligned_spec p (Z.min ea eb)) as A.
  destruct (aligned p (Z.min ea eb)) as [[M n] f].
  destruct A as (_ & Hn & _ & _ & HM & _).
  pose proof (rne_bounds M n ltac:(lia) Hn) as B.
  assert (0 <= M / 2 ^ n) by (apply Z.div_pos; [lia | now apply pow2_pos]).
  unfold pack. destruct (rne M n); try lia; try reflexivity.
  destruct (_ =? _); destruct (_ <=? _); reflexivity.
Qed.

Lemma to_int_range (f : float) :
  F32.int_min <= F32.to_int f <= F32.int_max.
Proof.
  unfold F32.to_int, F32.int_min, F32.int_max.
  destruct f as [s|s| |s m e]; try (cbn; lia).
  cbv zeta.
  destruct (andb _ _) eqn:E; [|cbn; lia].
  apply andb_true_iff in E as [E1 E2].
  apply Z.leb_le in E1, E2. unfold F32.int_min, F32.int_max in *. lia.
Qed.

(** *** The scripted generator keeps the contract *)

Lemma scripted_in_range : InRange (R := Scripted).
Proof.
  intros lo hi s Hle. cbn. unfold scripted_draw.
  destruct s as [|v tl]; cbn [fst]; [lia|].
  pose proof (Z.mod_pos_bound v (hi - lo + 1) ltac:(lia)). lia.
Qed.


(** ** awardScore *)

Lemma active_rest (l : Level.t) :
  Level.active l ++ Level.rest l = Level.platforms l.
Proof. apply firstn_skipn. Qed.

(** The platforms a loop has visited are again the visited part of the
    vector it leaves. *)
Lemma active_rebuilt (l : Level.t) (ps : list Platform) (cs : list Cloud) :
  length ps = length (Level.active l) ->
  Level.active {| Level.totalPlatforms := Level.totalPlatforms l;
                  Level.platforms := ps ++ Level.rest l;
                  Level.clouds := cs |} = ps.
Proof.
  unfold Level.active, Level.rest. cbn [Level.totalPlatforms Level.platforms].
  set (n := Z.to_nat (Level.totalPlatforms l)).
  rewrite length_firstn. intros Hlen.
  rewrite firstn_app.
  destruct (Nat.le_ge_cases n (length (Level.platforms l))) as [Hle | Hge].
  - rewrite Nat.min_l in Hlen by exact Hle.
    rewrite firstn_all2 by lia.
    replace (n - length ps)%nat with 0%nat by lia.
    cbn. apply app_nil_r.
  - rewrite (skipn_all2 (Level.platforms l)) by exact Hge.
    rewrite firstn_nil, app_nil_r. apply firstn_all2. lia.
Qed.

Section Award.

Variables (ballX radius : float).

Lemma award_loop_spec (ps : list Platform) :
  forall g,
    Level.award_loop ballX radius ps g
    = (g + Z.of_nat (length (filter (Level.passed ballX radius) ps)),
       map (awarded ballX radius) ps).
Proof.
  induction ps as [|p tl IH]; intros g; cbn [Level.award_loop filter map].
  - cbn. now rewrite Z.add_0_r.
  - unfold awarded at 1.
    destruct (Level.passed ballX radius p); rewrite IH; f_equal.
    cbn [length]. lia.
Qed.

(** Once [awardScore] has run, no platform passes its test. *)
Lemma awarded_not_passed (p : Platform) :
  Level.passed ballX radius (awarded ballX radius p) = false.
Proof.
  unfold awarded. destruct (Level.passed ballX radius p) eqn:E.
  - reflexivity.
  - exact E.
Qed.

Lemma filter_passed_awarded (ps : list Platform) :
  filter (Level.passed ballX radius) (map (awarded ballX radius) ps) = [].
Proof.
  induction ps as [|p tl IH]; [reflexivity|].
  cbn [map filter]. now rewrite awarded_not_passed.
Qed.

End Award.

Lemma awardScore_platforms (ballX radius : float) (l : Level.t) :
  Level.platforms (snd (Level.awardScore ballX radius l))
  = map (awarded ballX radius) (Level.active l) ++ Level.rest l.
Proof. unfold Level.awardScore. now rewrite award_loop_spec. Qed.

(** C7.  A call of [awardScore] returns the number of platforms that are not
    yet counted and whose right edge is strictly left of [ballX - radius];
    it is not negative; the call marks exactly those platforms and changes
    nothing else; called again with the same arguments it returns 0. *)
Theorem awardScore_single_fire (ballX radius : float) (l : Level.t) :
  let r := Level.awardScore ballX radius l in
  fst r = Z.of_nat (length (filter (Level.passed ballX radius)
                                   (Level.active l)))
  /\ 0 <= fst r
  /\ Level.platforms (snd r)
     = map (awarded ballX radius) (Level.active l) ++ Level.rest l
  /\ Level.totalPlatforms (snd r) = Level.totalPlatforms l
  /\ Level.clouds (snd r) = Level.clouds l
  /\ fst (Level.awardScore ballX radius (snd r)) = 0.
Proof.
  unfold Level.awardScore. rewrite award_loop_spec. cbn [fst snd].
  repeat split; try lia.
  rewrite active_rebuilt by apply length_map.
  rewrite award_loop_spec, filter_passed_awarded. reflexivity.
Qed.

(** ** scroll *)

Section Scroll.

Context {R : Raylib}.
Variables (dt : float) (cfg : GameConfig).

Lemma scroll_shift_platforms (ps : list Platform) :
  forall rm, fst (Level.scroll_shift dt cfg ps rm) = map (shifted dt cfg) ps.
Proof.
  induction ps as [|p tl IH]; intros rm; [reflexivity|].
  cbn [Level.scroll_shift map].
  specialize (IH (if F32.gtb (F32.sub (x p) (F32.mul (scrollSpeed cfg) dt)) rm
                  then F32.sub (x p) (F32.mul (scrollSpeed cfg) dt) else rm)).
  destruct (Level.scroll_shift dt cfg tl _) as [tl' rm'].
  cbn [fst] in *. now rewrite IH.
Qed.

Lemma scroll_recycle_length (ps : list Platform) :
  forall rm s,
    length (fst (fst (Level.scroll_recycle cfg ps rm s))) = length ps.
Proof.
  induction ps as [|p tl IH]; intros rm s; [reflexivity|].
  cbn [Level.scroll_recycle].
  destruct (Level.off_screen p).
  - destruct (Level.draw_platform cfg s) as [[[gap w] step] s1].
    specialize (IH (F32.add rm gap) s1). cbn [x].
    destruct (Level.scroll_recycle cfg tl _ s1) as [[tl' rm'] s2].
    cbn in *. now rewrite IH.
  - specialize (IH rm s).
    destruct (Level.scroll_recycle cfg tl rm s) as [[tl' rm'] s2].
    cbn in *. now rewrite IH.
Qed.

(** One turn of the second loop. *)
Lemma scroll_recycle_cons (p : Platform) (tl : list Platform)
      (rm : float) (s : Rng) :
  Level.scroll_recycle cfg (p :: tl) rm s
  = let p' := if Level.off_screen p then recycled cfg rm s p else p in
    let rm1 := if Level.off_screen p then x p' else rm in
    let s1 := if Level.off_screen p
              then snd (Level.draw_platform cfg s) else s in
    let '(tl', rm2, s2) := Level.scroll_recycle cfg tl rm1 s1 in
    (p' :: tl', rm2, s2).
Proof.
  cbn [Level.scroll_recycle]. unfold recycled.
  destruct (Level.off_screen p); [|reflexivity].
  destruct (Level.draw_platform cfg s) as [[[gap w] step] s1].
  reflexivity.
Qed.

(** The second loop on a vector cut in two. *)
Lemma scroll_recycle_app (a b : list Platform) :
  forall rm s,
    Level.scroll_recycle cfg (a ++ b) rm s
    = let '(a', rm1, s1) := Level.scroll_recycle cfg a rm s in
      let '(b', rm2, s2) := Level.scroll_recycle cfg b rm1 s1 in
      (a' ++ b', rm2, s2).
Proof.
  induction a as [|p tl IH]; intros rm s.
  - cbn [app Level.scroll_recycle].
    now destruct (Level.scroll_recycle cfg b rm s) as [[b' rm2] s2].
  - rewrite <- app_comm_cons, !scroll_recycle_cons. cbn zeta.
    rewrite IH.
    destruct (Level.scroll_recycle cfg tl _ _) as [[tl' rm1] s1].
    now destruct (Level.scroll_recycle cfg b rm1 s1) as [[b' rm2] s2].
Qed.

(** The slot [i] after the second loop. *)
Lemma scroll_recycle_nth (ps : list Platform) (i : nat) (q : Platform)
      (rm : float) (s : Rng) :
  nth_error ps i = Some q ->
  let '(_, rm_i, s_i) := Level.scroll_recycle cfg (firstn i ps) rm s in
  nth_error (fst (fst (Level.scroll_recycle cfg ps rm s))) i
  = Some (if Level.off_screen q then recycled cfg rm_i s_i q else q).
Proof.
  intros Hq.
  destruct (nth_error_split ps i Hq) as (a & b & Hps & Hlen).
  assert (Ha : firstn i ps = a).
  { subst ps. rewrite <- Hlen. rewrite firstn_app, Nat.sub_diag.
    rewrite firstn_all. cbn. apply app_nil_r. }
  rewrite Ha. clear Ha Hq. subst ps. rewrite scroll_recycle_app.
  pose proof (scroll_recycle_length a rm s) as Hl.
  destruct (Level.scroll_recycle cfg a rm s) as [[a' rm_i] s_i].
  rewrite scroll_recycle_cons. cbn zeta.
  destruct (Level.scroll_recycle cfg b _ _) as [[b' rm2] s2].
  cbn [fst] in *. rewrite nth_error_app2 by lia.
  replace (i - length a')%nat with 0%nat by lia. reflexivity.
Qed.

End Scroll.

(** ** The tracker of [scroll]

    [rightMost] starts at [0.0f]; the first loop replaces it by a greater
    [x], the second by the sum of itself and of a gap.  It stays a
    binary32 value with a clear sign bit. *)

Section Tracker.

Context {R : Raylib}.
Variables (dt : float) (cfg : GameConfig).

Lemma scroll_shift_tracked (ps : list Platform) :
  binary32 dt -> binary32 (scrollSpeed cfg) ->
  Forall (fun p => binary32 (x p)) ps ->
  forall r0, tracked r0 -> tracked (snd (Level.scroll_shift dt cfg ps r0)).
Proof.
  intros Hdt Hsp Hps. induction Hps as [|p tl Hp _ IH]; intros r0 Hr0;
    [exact Hr0|].
  cbn [Level.scroll_shift].
  set (x1 := F32.sub (x p) (F32.mul (scrollSpeed cfg) dt)).
  assert (H1 : tracked (if F32.gtb x1 r0 then x1 else r0)).
  { destruct (F32.gtb x1 r0) eqn:E; [|exact Hr0]. split.
    - apply sub_binary32; [exact Hp | now apply mul_binary32].
    - destruct Hr0 as [_ Hs]. now apply (ltb_sign_clear r0). }
  specialize (IH _ H1).
  now destruct (Level.scroll_shift dt cfg tl _) as [tl' rm].
Qed.

(** The gap drawn is a whole number that is not negative. *)
Lemma draw_platform_gap (s : Rng) :
  InRange ->
  0 <= F32.to_int (minGap cfg) <= F32.to_int (maxGap cfg) ->
  exists g,
    fst (fst (fst (Level.draw_platform cfg s))) = F32.of_int g
    /\ F32.to_int (minGap cfg) <= g <= F32.int_max.
Proof.
  intros Hr Hgap. unfold Level.draw_platform.
  pose proof (Hr (F32.to_int (minGap cfg)) (F32.to_int (maxGap cfg)) s
                 ltac:(lia)) as Hg.
  pose proof (to_int_range (maxGap cfg)) as Hmax.
  destruct (GetRandomValue _ _ s) as [g s1].
  destruct (GetRandomValue _ _ s1) as [w s2].
  destruct (GetRandomValue _ _ s2) as [st s3].
  cbn [fst] in *. exists g. split; [reflexivity | lia].
Qed.

Lemma add_gap_tracked (r : float) (g : Z) :
  tracked r -> 0 <= g <= F32.int_max -> tracked (F32.add r (F32.of_int g)).
Proof.
  intros [Hv Hs] Hg. split.
  - apply add_binary32; [exact Hv | apply of_int_binary32].
  - apply add_sign_clear; [exact Hs | now apply of_int_sign_clear
                           | now apply of_int_finite_not_negative].
Qed.

Lemma scroll_recycle_tracked (ps : list Platform) :
  InRange ->
  0 <= F32.to_int (minGap cfg) <= F32.to_int (maxGap cfg) ->
  forall rm s,
    tracked rm -> tracked (snd (fst (Level.scroll_recycle cfg ps rm s))).
Proof.
  intros Hr Hgap. induction ps as [|p tl IH]; intros rm s Hrm; [exact Hrm|].
  rewrite scroll_recycle_cons. cbn zeta.
  assert (H1 : tracked (if Level.off_screen p
                        then x (if Level.off_screen p
                                then recycled cfg rm s p else p)
                        else rm)).
  { destruct (Level.off_screen p); [|exact Hrm]. unfold recycled.
    destruct (draw_platform_gap s Hr Hgap) as (g & Eg & Hg).
    destruct (Level.draw_platform cfg s) as [[[gap w] step] s1].
    cbn [fst x] in *. subst gap. apply add_gap_tracked; [exact Hrm | lia]. }
  specialize (IH _ (if Level.off_screen p
                    then snd (Level.draw_platform cfg s) else s) H1).
  now destruct (Level.scroll_recycle cfg tl _ _) as [[tl' rm2] s2].
Qed.

(** The tracker when the second loop reaches an index. *)
Lemma tracker_at_tracked (l : Level.t) (s : Rng) (i : nat) :
  InRange -> binary32 dt -> binary32 (scrollSpeed cfg) ->
  Forall (fun p => binary32 (x p)) (Level.active l) ->
  0 <= F32.to_int (minGap cfg) <= F32.to_int (maxGap cfg) ->
  tracked (fst (tracker_at dt cfg l s i)).
Proof.
  intros Hr Hdt Hsp Hps Hgap. unfold tracker_at.
  pose proof (scroll_shift_tracked (Level.active l) Hdt Hsp Hps F32.zero
                ltac:(split; reflexivity)) as H1.
  destruct (Level.scroll_shift dt cfg (Level.active l) F32.zero) as [ps1 rm].
  cbn [snd] in H1.
  pose proof (scroll_recycle_tracked (firstn i ps1) Hr Hgap rm s H1) as H2.
  now destruct (Level.scroll_recycle cfg (firstn i ps1) rm s)
    as [[a' rm_i] s_i].
Qed.

End Tracker.

(** C6 (as amended).  One call of [scroll] leaves in slot [i] the platform
    with [x] decreased by [scrollSpeed*dt] (both operations in single
    precision) when its right edge is not left of -60 after the shift;
    otherwise it leaves a platform with [counted = false] placed at
    [rightMost + gap], the single-precision sum of the tracker value before
    this relocation and of the gap drawn.  When the draws are within
    their ranges, [0 <= (int)minGap <= (int)maxGap], and [dt],
    [scrollSpeed] and the [x] of the platforms are binary32 values, that
    sum is not less than [rightMost]: it is greater, or it is [rightMost]
    itself (the gap is absorbed by the rounding); it is greater whenever
    [(int)minGap] is at least [2^k] and [rightMost] is below [2^(24+k)],
    for any [k >= 0]. *)
Theorem scroll_platform {R : Raylib} (dt : float) (cfg : GameConfig)
        (l : Level.t) (s : Rng) (i : nat) (p : Platform) :
  nth_error (Level.active l) i = Some p ->
  let q := shifted dt cfg p in
  let (rightMost, s_i) := tracker_at dt cfg l s i in
  let '(gap, w, step, _) := Level.draw_platform cfg s_i in
  x q = F32.sub (x p) (F32.mul (scrollSpeed cfg) dt)
  /\ nth_error (Level.platforms (fst (Level.scroll dt cfg l s))) i
     = Some (if Level.off_screen q
             then {| x := F32.add rightMost gap;
                     yTop := F32.max (minPlatformY cfg)
                                     (F32.sub (yTop p) step);
                     width := w; counted := false |}
             else q)
  /\ (InRange -> binary32 dt -> binary32 (scrollSpeed cfg) ->
      Forall (fun p0 => binary32 (x p0)) (Level.active l) ->
      0 <= F32.to_int (minGap cfg) <= F32.to_int (maxGap cfg) ->
      F32.leb rightMost (F32.add rightMost gap) = true
      /\ (F32.ltb rightMost (F32.add rightMost gap) = true
          \/ F32.add rightMost gap = rightMost)
      /\ forall k, 0 <= k -> 2 ^ k <= F32.to_int (minGap cfg) ->
           F32.ltb rightMost (F32.of_int (2 ^ (24 + k))) = true ->
           F32.ltb rightMost (F32.add rightMost gap) = true).
Proof.
  intros Hp q.
  pose proof (tracker_at_tracked dt cfg l s i) as Htr.
  unfold tracker_at in *. unfold Level.scroll.
  pose proof (scroll_shift_platforms dt cfg (Level.active l) F32.zero) as Hs.
  destruct (Level.scroll_shift dt cfg (Level.active l) F32.zero) as [ps1 rm].
  cbn [fst] in Hs. subst ps1.
  assert (Hq : nth_error (map (shifted dt cfg) (Level.active l)) i = Some q).
  { rewrite nth_error_map, Hp. reflexivity. }
  pose proof (scroll_recycle_nth cfg _ i q rm s Hq) as Hn.
  pose proof (scroll_recycle_length cfg
                (map (shifted dt cfg) (Level.active l)) rm s) as Hl.
  destruct (Level.scroll_recycle cfg (firstn i _) rm s) as [[a' rm_i] s_i].
  destruct (Level.scroll_recycle cfg (map _ _) rm s) as [[ps2 rm2] s1].
  destruct (Level.scroll_clouds dt cfg (Level.clouds l) s1) as [cs s2].
  cbn [fst Level.platforms] in *.
  unfold recycled in Hn.
  pose proof (draw_platform_gap cfg s_i) as Hgap.
  destruct (Level.draw_platform cfg s_i) as [[[gap w] step] s3].
  cbn [fst] in Hgap.
  split; [reflexivity|]. split.
  { rewrite nth_error_app1; [exact Hn|].
    apply nth_error_Some. rewrite Hn. discriminate. }
  intros Hr Hdt Hsp Hps Hg.
  destruct (Htr Hr Hdt Hsp Hps Hg) as [Hv Hsc].
  destruct (Hgap Hr Hg) as (g & -> & Hgr).
  assert (Hge : F32.leb rm_i (F32.add rm_i (F32.of_int g)) = true).
  { apply add_ge; [exact Hv | now apply sign_clear_number|].
    apply of_int_finite_not_negative. lia. }
  split; [exact Hge|]. split.
  - apply leb_cases; [exact Hsc | | exact Hge].
    apply add_sign_clear; [exact Hsc | apply of_int_sign_clear; lia|].
    apply of_int_finite_not_negative. lia.
  - intros k Hk Hmin Hlt. apply add_gt with k; try assumption; [|lia].
    now apply sign_clear_finite with (F32.of_int (2 ^ (24 + k))).
Qed.

(** After a frame of one second the platform at -300 is relocated behind
    the one that moved from 1260 to 1040, at 1040 + 260 = 1300, to the
    right of the tracker. *)
Lemma scroll_platform_witness :
  nth_error (Level.platforms
               (fst (Level.scroll (R := Scripted) (F32.of_int 1)
                                  defaultConfig two_platforms []))) 1
  = Some (platform_at 1300 305 120)
  /\ F32.ltb (F32.of_int 1040) (F32.of_int 1300) = true.
Proof.
  pose proof (scroll_platform (R := Scripted) (F32.of_int 1) defaultConfig
                two_platforms [] 1 (platform_at (-300) 320 150) eq_refl)
    as H.
  cbv zeta in H.
  change (tracker_at (R := Scripted) (F32.of_int 1) defaultConfig
                     two_platforms [] 1)
    with (F32.of_int 1040, @nil Z) in H.
  change (Level.draw_platform (R := Scripted) defaultConfig [])
    with (F32.of_int 260, F32.of_int 120, F32.of_int 15, @nil Z) in H.
  cbv beta iota in H.
  destruct H as (_ & H2 & H3). split.
  - vm_compute in H2. vm_compute. exact H2.
  - destruct H3 as (_ & _ & H3).
    + exact scripted_in_range.
    + reflexivity.
    + reflexivity.
    + repeat constructor.
    + vm_compute. split; discriminate.
    + change (F32.of_int 1300)
        with (F32.add (F32.of_int 1040) (F32.of_int 260)).
      apply (H3 8); [lia | vm_compute; discriminate | reflexivity].
Defined.

(** C6 as stated fails: the tracker is at 2^33 when the platform at -300
    is relocated; the gap drawn is 260, inside [minGap, maxGap] and
    positive; the sum 2^33 + 260 rounds to 2^33, so that the new [x] is
    not greater than the tracker. *)
Lemma scroll_relocation_absorbed :
  Level.off_screen
    (shifted (F32.of_int 1) defaultConfig (platform_at (-300) 320 150))
  = true
  /\ fst (tracker_at (R := Scripted) (F32.of_int 1) defaultConfig
                     far_platforms [] 1) = F32.of_int (2 ^ 33)
  /\ fst (fst (fst (Level.draw_platform (R := Scripted) defaultConfig [])))
     = F32.of_int 260
  /\ F32.ltb F32.zero (minGap defaultConfig) = true
  /\ exists p',
      nth_error (Level.platforms
                   (fst (Level.scroll (R := Scripted) (F32.of_int 1)
                                      defaultConfig far_platforms []))) 1
      = Some p'
      /\ counted p' = false
      /\ x p' = F32.of_int (2 ^ 33)
      /\ F32.gtb (x p') (F32.of_int (2 ^ 33)) = false.
Proof.
  repeat split; try reflexivity.
  exists {| x := F32.of_int (2 ^ 33); yTop := F32.of_int 305;
            width := F32.of_int 120; counted := false |}.
  repeat split; vm_compute; reflexivity.
Qed.

(** ** The bounds of the platforms *)

Lemma same_eq (a b : float) : same a b = true -> a = b.
Proof.
  destruct a as [s1|s1| |s1 m1 e1], b as [s2|s2| |s2 m2 e2];
    cbn; try discriminate; try reflexivity.
  - intros H. apply eqb_prop in H. now subst.
  - intros H. apply eqb_prop in H. now subst.
  - rewrite !andb_true_iff. intros [[Hs Hm] He].
    apply eqb_prop in Hs. apply Pos.eqb_eq in Hm. apply Z.eqb_eq in He.
    now subst.
Qed.

Lemma in_zrange (n : nat) :
  forall lo z, lo <= z < lo + Z.of_nat n -> In z (zrange lo n).
Proof.
  induction n as [|k IH]; intros lo z Hz; [lia|].
  cbn [zrange]. destruct (Z.eq_dec lo z) as [-> | Hne]; [now left|].
  right. apply IH. lia.
Qed.

Lemma step_up_exact_true : step_up_exact = true.
Proof. vm_compute. reflexivity. Qed.

Lemma tops_within_true : tops_within = true.
Proof. vm_compute. reflexivity. Qed.

Lemma widths_within_true : widths_within = true.
Proof. vm_compute. reflexivity. Qed.

Lemma step_up_whole (n st : Z) :
  20 <= n <= 350 -> 15 <= st <= 35 ->
  F32.max (F32.of_int 20) (F32.sub (F32.of_int n) (F32.of_int st))
  = F32.of_int (Z.max 20 (n - st)).
Proof.
  intros Hn Hst. apply same_eq.
  pose proof step_up_exact_true as H. unfold step_up_exact in H.
  rewrite forallb_forall in H.
  assert (Hi : In n (zrange 20 331)).
  { apply in_zrange. change (Z.of_nat 331) with 331. lia. }
  specialize (H n Hi). rewrite forallb_forall in H.
  apply H. apply in_zrange. change (Z.of_nat 21) with 21. lia.
Qed.

(** What the layout fixes. *)
Ltac use_layout H :=
  match type of H with
  | default_layout ?c =>
      destruct c; unfold default_layout, layout in H; cbn in H;
      injection H as; subst
  end.

Lemma layout_ranges (cfg : GameConfig) :
  default_layout cfg ->
  F32.to_int (minGap cfg) = 260 /\ F32.to_int (maxGap cfg) = 420
  /\ F32.to_int (minPlatformWidth cfg) = 120
  /\ F32.to_int (maxPlatformWidth cfg) = 200
  /\ F32.to_int (stepUpMin cfg) = 15 /\ F32.to_int (stepUpMax cfg) = 35
  /\ minPlatformY cfg = F32.of_int 20
  /\ F32.sub (groundY cfg) (F32.of_int 20) = F32.of_int 350
  /\ minPlatformWidth cfg = F32.of_int 120
  /\ maxPlatformWidth cfg = F32.of_int 200.
Proof. intros H. use_layout H. repeat split; reflexivity. Qed.

Lemma generated_shape_within (cfg : GameConfig) (p : Platform) :
  default_layout cfg -> generated_shape p -> within_bounds cfg p = true.
Proof.
  intros Hc [(n & Hn & Ht) (w & Hw & Hwd)].
  destruct (layout_ranges cfg Hc)
    as (_ & _ & _ & _ & _ & _ & Hmin & Hg & Hw1 & Hw2).
  unfold within_bounds. rewrite Hmin, Hg, Hw1, Hw2, Ht, Hwd.
  pose proof tops_within_true as H1. unfold tops_within in H1.
  rewrite forallb_forall in H1.
  assert (Hi : In n (zrange 20 316)) by (apply in_zrange; cbn; lia).
  specialize (H1 n Hi).
  pose proof widths_within_true as H2. unfold widths_within in H2.
  rewrite forallb_forall in H2.
  assert (Hj : In w (zrange 120 81)) by (apply in_zrange; cbn; lia).
  specialize (H2 w Hj).
  apply andb_true_iff in H1 as [-> ->]. apply andb_true_iff in H2 as [-> ->].
  reflexivity.
Qed.

(** The floor [minPlatformY] is kept by [generate] and [scroll] for every
    configuration in which it is a number. *)
Section Floor.

Context {R : Raylib}.
Variable cfg : GameConfig.
Hypothesis floor_number :
  F32.leb (minPlatformY cfg) (minPlatformY cfg) = true.

Lemma generate_platforms_floor (n : nat) :
  forall cursor top s,
    Forall (above_floor cfg)
           (fst (Level.generate_platforms cfg n cursor top s)).
Proof.
  induction n as [|k IH]; intros cursor top s;
    cbn [Level.generate_platforms]; [constructor|].
  destruct (Level.draw_platform cfg s) as [[[gap w] step] s1].
  specialize (IH (F32.add cursor gap)
                 (F32.max (minPlatformY cfg) (F32.sub top step)) s1).
  destruct (Level.generate_platforms cfg k _ _ s1) as [ps s2].
  cbn [fst] in *. constructor; [|exact IH].
  now apply max_lower.
Qed.

Lemma scroll_recycle_floor (ps : list Platform) :
  forall rm s,
    Forall (above_floor cfg) ps ->
    Forall (above_floor cfg) (fst (fst (Level.scroll_recycle cfg ps rm s))).
Proof.
  induction ps as [|p tl IH]; intros rm s Hps; [constructor|].
  inversion Hps as [|? ? Hp Htl]; subst.
  rewrite scroll_recycle_cons. cbn zeta.
  specialize (IH (if Level.off_screen p
                  then x (if Level.off_screen p
                          then recycled cfg rm s p else p)
                  else rm)
                 (if Level.off_screen p
                  then snd (Level.draw_platform cfg s) else s) Htl).
  destruct (Level.scroll_recycle cfg tl _ _) as [[tl' rm2] s2].
  cbn [fst] in *. constructor; [|exact IH].
  destruct (Level.off_screen p); [|exact Hp].
  unfold recycled.
  destruct (Level.draw_platform cfg s) as [[[gap w] step] s1].
  now apply max_lower.
Qed.

Lemma produced_floor (l : Level.t) :
  produced cfg l -> Forall (above_floor cfg) (Level.platforms l).
Proof.
  induction 1 as [l s | l dt s _ IH].
  - unfold Level.generate.
    pose proof (generate_platforms_floor
                  (Z.to_nat (Level.totalPlatforms l))
                  (F32.add (F32.of_int (screenWidth cfg)) (F32.of_int 200))
                  (F32.sub (groundY cfg) (F32.of_int 20)) s) as H.
    destruct (Level.generate_platforms cfg _ _ _ s) as [ps s1].
    destruct (Level.generate_clouds cfg _ s1) as [cs s2]. exact H.
  - rewrite <- (active_rest l) in IH. apply Forall_app in IH as [Ha Hr].
    unfold Level.scroll.
    pose proof (scroll_shift_platforms dt cfg (Level.active l) F32.zero)
      as Hs.
    destruct (Level.scroll_shift dt cfg (Level.active l) F32.zero)
      as [ps1 rm].
    cbn [fst] in Hs. subst ps1.
    assert (Hm : Forall (above_floor cfg)
                        (map (shifted dt cfg) (Level.active l))).
    { apply Forall_map. revert Ha. apply Forall_impl. intros p Hp. exact Hp. }
    pose proof (scroll_recycle_floor _ rm s Hm) as H2.
    destruct (Level.scroll_recycle cfg _ rm s) as [[ps2 rm2] s1].
    destruct (Level.scroll_clouds dt cfg (Level.clouds l) s1) as [cs s2].
    cbn [fst Level.platforms] in *. apply Forall_app. now split.
Qed.

End Floor.

Section Bounds.

Context {R : Raylib}.
Hypothesis in_range : InRange.
Variable cfg : GameConfig.
Hypothesis default : default_layout cfg.

(** The three draws for a platform are whole numbers within their
    ranges. *)
Lemma draw_platform_whole (s : Rng) :
  exists g w st s',
    Level.draw_platform cfg s
    = (F32.of_int g, F32.of_int w, F32.of_int st, s')
    /\ 260 <= g <= 420 /\ 120 <= w <= 200 /\ 15 <= st <= 35.
Proof.
  destruct (layout_ranges cfg default)
    as (H1 & H2 & H3 & H4 & H5 & H6 & _).
  unfold Level.draw_platform. rewrite H1, H2, H3, H4, H5, H6.
  pose proof (in_range 260 420 s ltac:(lia)) as Hg.
  destruct (GetRandomValue 260 420 s) as [g s1].
  pose proof (in_range 120 200 s1 ltac:(lia)) as Hw.
  destruct (GetRandomValue 120 200 s1) as [w s2].
  pose proof (in_range 15 35 s2 ltac:(lia)) as Hst.
  destruct (GetRandomValue 15 35 s2) as [st s3].
  cbn [fst] in *. now exists g, w, st, s3.
Qed.

(** A step up from a top of 20..350 gives a platform of the generated
    shape. *)
Lemma step_up_shape (top : float) (s : Rng) :
  whole 20 350 top ->
  let '(gap, w, step, _) := Level.draw_platform cfg s in
  whole 20 335 (F32.max (minPlatformY cfg) (F32.sub top step))
  /\ whole 120 200 w.
Proof.
  intros (n & Hn & ->).
  destruct (draw_platform_whole s)
    as (g & w & st & s' & -> & Hg & Hw & Hst).
  destruct (layout_ranges cfg default)
    as (_ & _ & _ & _ & _ & _ & -> & _).
  rewrite step_up_whole by assumption.
  split; [exists (Z.max 20 (n - st)) | exists w].
  all: split; try reflexivity; lia.
Qed.

Lemma generate_platforms_shape (n : nat) :
  forall cursor top s,
    whole 20 350 top ->
    Forall generated_shape
           (fst (Level.generate_platforms cfg n cursor top s)).
Proof.
  induction n as [|k IH]; intros cursor top s Htop;
    cbn [Level.generate_platforms]; [constructor|].
  pose proof (step_up_shape top s Htop) as Hstep.
  destruct (Level.draw_platform cfg s) as [[[gap w] step] s1].
  destruct Hstep as [Hy Hw].
  assert (Hy' : whole 20 350
                  (F32.max (minPlatformY cfg) (F32.sub top step))).
  { destruct Hy as (m & Hm & E). exists m. split; [lia | exact E]. }
  specialize (IH (F32.add cursor gap) _ s1 Hy').
  destruct (Level.generate_platforms cfg k _ _ s1) as [ps s2].
  cbn [fst] in *. constructor; [|exact IH]. now split.
Qed.

Lemma generate_shape (l : Level.t) (s : Rng) :
  Forall generated_shape (Level.platforms (fst (Level.generate cfg l s))).
Proof.
  unfold Level.generate.
  pose proof (generate_platforms_shape
                (Z.to_nat (Level.totalPlatforms l))
                (F32.add (F32.of_int (screenWidth cfg)) (F32.of_int 200))
                (F32.sub (groundY cfg) (F32.of_int 20)) s) as H.
  destruct (Level.generate_platforms cfg _ _ _ s) as [ps s1].
  destruct (Level.generate_clouds cfg _ s1) as [cs s2].
  cbn [fst Level.platforms] in *. apply H.
  destruct (layout_ranges cfg default)
    as (_ & _ & _ & _ & _ & _ & _ & -> & _).
  exists 350. split; [lia | reflexivity].
Qed.

Lemma scroll_recycle_shape (ps : list Platform) :
  forall rm s,
    Forall generated_shape ps ->
    Forall generated_shape
           (fst (fst (Level.scroll_recycle cfg ps rm s))).
Proof.
  induction ps as [|p tl IH]; intros rm s Hps; [constructor|].
  inversion Hps as [|? ? Hp Htl]; subst.
  rewrite scroll_recycle_cons. cbn zeta.
  specialize (IH (if Level.off_screen p
                  then x (if Level.off_screen p
                          then recycled cfg rm s p else p)
                  else rm)
                 (if Level.off_screen p
                  then snd (Level.draw_platform cfg s) else s) Htl).
  destruct (Level.scroll_recycle cfg tl _ _) as [[tl' rm2] s2].
  cbn [fst] in *. constructor; [|exact IH].
  destruct (Level.off_screen p); [|exact Hp].
  unfold recycled.
  assert (Htop : whole 20 350 (yTop p)).
  { destruct Hp as [(m & Hm & E) _]. exists m. split; [lia | exact E]. }
  pose proof (step_up_shape (yTop p) s Htop) as Hstep.
  destruct (Level.draw_platform cfg s) as [[[gap w] step] s1].
  exact Hstep.
Qed.

Lemma shifted_shape (dt : float) (ps : list Platform) :
  Forall generated_shape ps ->
  Forall generated_shape (map (shifted dt cfg) ps).
Proof.
  intros H. apply Forall_map. revert H. apply Forall_impl.
  intros p Hp. exact Hp.
Qed.

Lemma scroll_shape (dt : float) (l : Level.t) (s : Rng) :
  Forall generated_shape (Level.platforms l) ->
  Forall generated_shape
         (Level.platforms (fst (Level.scroll dt cfg l s))).
Proof.
  intros H. rewrite <- (active_rest l) in H.
  apply Forall_app in H as [Ha Hr].
  unfold Level.scroll.
  pose proof (scroll_shift_platforms dt cfg (Level.active l) F32.zero)
    as Hs.
  destruct (Level.scroll_shift dt cfg (Level.active l) F32.zero)
    as [ps1 rm].
  cbn [fst] in Hs. subst ps1.
  pose proof (scroll_recycle_shape _ rm s (shifted_shape dt _ Ha)) as H2.
  destruct (Level.scroll_recycle cfg _ rm s) as [[ps2 rm2] s1].
  destruct (Level.scroll_clouds dt cfg (Level.clouds l) s1) as [cs s2].
  cbn [fst Level.platforms] in *. apply Forall_app. now split.
Qed.

Lemma produced_shape (l : Level.t) :
  produced cfg l -> Forall generated_shape (Level.platforms l).
Proof.
  induction 1 as [l s | l dt s _ IH].
  - apply generate_shape.
  - now apply scroll_shape.
Qed.

End Bounds.

(** ** The bounds for every configuration

    An invariant of the tops and one of the widths, kept by the draws for
    one platform, are kept by [generate] and [scroll]. *)
Section Produced.

Context {R : Raylib}.
Variable cfg : GameConfig.
Variables (P W : float -> Prop).

Hypothesis start : P (F32.sub (groundY cfg) (F32.of_int 20)).
Hypothesis step_up :
  forall top s, P top ->
    let '(_, w, step, _) := Level.draw_platform cfg s in
    P (F32.max (minPlatformY cfg) (F32.sub top step)) /\ W w.

Lemma generate_platforms_kept (n : nat) :
  forall cursor top s,
    P top ->
    Forall (fun p => P (yTop p) /\ W (width p))
           (fst (Level.generate_platforms cfg n cursor top s)).
Proof.
  induction n as [|k IH]; intros cursor top s Htop;
    cbn [Level.generate_platforms]; [constructor|].
  pose proof (step_up top s Htop) as Hstep.
  destruct (Level.draw_platform cfg s) as [[[gap w] step] s1].
  destruct Hstep as [Hy Hw].
  specialize (IH (F32.add cursor gap) _ s1 Hy).
  destruct (Level.generate_platforms cfg k _ _ s1) as [ps s2].
  cbn [fst] in *. constructor; [|exact IH]. now split.
Qed.

Lemma scroll_recycle_kept (ps : list Platform) :
  forall rm s,
    Forall (fun p => P (yTop p) /\ W (width p)) ps ->
    Forall (fun p => P (yTop p) /\ W (width p))
           (fst (fst (Level.scroll_recycle cfg ps rm s))).
Proof.
  induction ps as [|p tl IH]; intros rm s Hps; [constructor|].
  inversion Hps as [|? ? Hp Htl]; subst.
  rewrite scroll_recycle_cons. cbn zeta.
  specialize (IH (if Level.off_screen p
                  then x (if Level.off_screen p
                          then recycled cfg rm s p else p)
                  else rm)
                 (if Level.off_screen p
                  then snd (Level.draw_platform cfg s) else s) Htl).
  destruct (Level.scroll_recycle cfg tl _ _) as [[tl' rm2] s2].
  cbn [fst] in *. constructor; [|exact IH].
  destruct (Level.off_screen p); [|exact Hp].
  unfold recycled.
  pose proof (step_up (yTop p) s (proj1 Hp)) as Hstep.
  destruct (Level.draw_platform cfg s) as [[[gap w] step] s1].
  exact Hstep.
Qed.

Lemma scroll_kept (dt : float) (l : Level.t) (s : Rng) :
  Forall (fun p => P (yTop p) /\ W (width p)) (Level.platforms l) ->
  Forall (fun p => P (yTop p) /\ W (width p))
         (Level.platforms (fst (Level.scroll dt cfg l s))).
Proof.
  intros IH.
  rewrite <- (active_rest l) in IH. apply Forall_app in IH as [Ha Hr].
  unfold Level.scroll.
  pose proof (scroll_shift_platforms dt cfg (Level.active l) F32.zero)
    as Hs.
  destruct (Level.scroll_shift dt cfg (Level.active l) F32.zero)
    as [ps1 rm].
  cbn [fst] in Hs. subst ps1.
  assert (Hm : Forall (fun p => P (yTop p) /\ W (width p))
                      (map (shifted dt cfg) (Level.active l))).
  { apply Forall_map. revert Ha. apply Forall_impl. intros p Hp. exact Hp. }
  pose proof (scroll_recycle_kept _ rm s Hm) as H2.
  destruct (Level.scroll_recycle cfg _ rm s) as [[ps2 rm2] s1].
  destruct (Level.scroll_clouds dt cfg (Level.clouds l) s1) as [cs s2].
  cbn [fst Level.platforms] in *. apply Forall_app. now split.
Qed.

Lemma produced_kept (l : Level.t) :
  produced cfg l ->
  Forall (fun p => P (yTop p) /\ W (width p)) (Level.platforms l).
Proof.
  induction 1 as [l s | l dt s _ IH].
  - unfold Level.generate.
    pose proof (generate_platforms_kept
                  (Z.to_nat (Level.totalPlatforms l))
                  (F32.add (F32.of_int (screenWidth cfg)) (F32.of_int 200))
                  (F32.sub (groundY cfg) (F32.of_int 20)) s start) as H.
    destruct (Level.generate_platforms cfg _ _ _ s) as [ps s1].
    destruct (Level.generate_clouds cfg _ s1) as [cs s2]. exact H.
  - now apply scroll_kept.
Qed.

End Produced.

Section Ceiling.

Context {R : Raylib}.
Hypothesis in_range : InRange.
Variable cfg : GameConfig.

(** The three draws are whole numbers within the requested ranges. *)
Lemma draw_platform_ranges (s : Rng) :
  exists g w st s',
    Level.draw_platform cfg s
    = (F32.of_int g, F32.of_int w, F32.of_int st, s')
    /\ (steps_upward cfg -> 0 <= st <= F32.int_max)
    /\ (F32.to_int (minPlatformWidth cfg)
        <= F32.to_int (maxPlatformWidth cfg) ->
        F32.to_int (minPlatformWidth cfg) <= w
        <= F32.to_int (maxPlatformWidth cfg)).
Proof.
  unfold Level.draw_platform, steps_upward.
  destruct (GetRandomValue _ _ s) as [g s1].
  pose proof (in_range (F32.to_int (minPlatformWidth cfg))
                       (F32.to_int (maxPlatformWidth cfg)) s1) as Hw.
  destruct (GetRandomValue _ _ s1) as [w s2].
  pose proof (in_range (F32.to_int (stepUpMin cfg))
                       (F32.to_int (stepUpMax cfg)) s2) as Hst.
  pose proof (to_int_range (stepUpMax cfg)) as Hmax.
  destruct (GetRandomValue _ _ s2) as [st s3].
  cbn [fst] in *. exists g, w, st, s3.
  split; [reflexivity|]. split; [lia | exact Hw].
Qed.

(** A step that is not negative keeps a top under the ceiling
    [groundY - 20] and above the floor. *)
Lemma step_up_within (top : float) (s : Rng) :
  binary32 (minPlatformY cfg) -> steps_upward cfg ->
  top_within cfg top ->
  let '(_, _, step, _) := Level.draw_platform cfg s in
  top_within cfg (F32.max (minPlatformY cfg) (F32.sub top step)).
Proof.
  intros Hmin Hup (Hv & Hlo & Hhi).
  destruct (draw_platform_ranges s) as (g & w & st & s' & -> & Hst & _).
  specialize (Hst Hup).
  assert (Hle : F32.leb (F32.sub top (F32.of_int st)) top = true).
  { apply sub_le; [exact Hv | now apply leb_refl_right in Hlo|].
    now apply of_int_finite_not_negative. }
  unfold F32.max.
  destruct (F32.ltb (minPlatformY cfg) (F32.sub top (F32.of_int st)))
    eqn:E.
  - split; [|split].
    + apply sub_binary32; [exact Hv | apply of_int_binary32].
    + now apply ltb_leb.
    + now apply leb_trans with top.
  - split; [exact Hmin | split].
    + now apply leb_refl_left in Hlo.
    + now apply leb_trans with top.
Qed.

(** The start of the climb is a binary32 value whatever [groundY] is. *)
Lemma start_binary32 : binary32 (F32.sub (groundY cfg) (F32.of_int 20)).
Proof.
  change (F32.of_int 20) with (S754_finite false 10485760 (-19)).
  destruct (groundY cfg) as [sg|sg| |sg mg eg]; try reflexivity.
  rewrite sub_finite. apply binary_normalize_binary32.
Qed.

Lemma produced_ceiling (l : Level.t) :
  binary32 (minPlatformY cfg) ->
  F32.leb (minPlatformY cfg) (F32.sub (groundY cfg) (F32.of_int 20)) = true ->
  steps_upward cfg ->
  produced cfg l ->
  Forall (fun p => top_within cfg (yTop p) /\ True) (Level.platforms l).
Proof.
  intros Hmin Hfloor Hup.
  apply (produced_kept cfg (top_within cfg) (fun _ => True)).
  - split; [apply start_binary32 | split; [exact Hfloor|]].
    now apply leb_refl_right in Hfloor.
  - intros top s Htop. pose proof (step_up_within top s Hmin Hup Htop) as H.
    destruct (Level.draw_platform cfg s) as [[[gap w] step] s1].
    now split.
Qed.

(** A draw within the requested range gives a width within the bounds
    when these survive the cast. *)
Lemma draw_platform_width (s : Rng) :
  widths_castable cfg ->
  let '(_, w, _, _) := Level.draw_platform cfg s in width_within cfg w.
Proof.
  intros (Hord & Hlo & Hhi).
  destruct (draw_platform_ranges s) as (g & w & st & s' & -> & _ & Hw).
  specialize (Hw Hord). split.
  - apply leb_trans with (F32.of_int (F32.to_int (minPlatformWidth cfg)));
      [exact Hlo | apply of_int_order; lia].
  - apply leb_trans with (F32.of_int (F32.to_int (maxPlatformWidth cfg)));
      [apply of_int_order; lia | exact Hhi].
Qed.

(** One call of [scroll] keeps the four bounds of platforms whose tops
    are binary32 values, wherever the level comes from. *)
Lemma scroll_bounds (dt : float) (l : Level.t) (s : Rng) :
  binary32 (minPlatformY cfg) -> steps_upward cfg -> widths_castable cfg ->
  Forall (fun p => binary32 (yTop p) /\ within_bounds cfg p = true)
         (Level.platforms l) ->
  Forall (fun p => binary32 (yTop p) /\ within_bounds cfg p = true)
         (Level.platforms (fst (Level.scroll dt cfg l s))).
Proof.
  intros Hmin Hup Hw H.
  assert (E : forall p,
             binary32 (yTop p) /\ within_bounds cfg p = true
             <-> top_within cfg (yTop p) /\ width_within cfg (width p)).
  { intros p. unfold within_bounds, top_within, width_within.
    rewrite !andb_true_iff. tauto. }
  apply Forall_forall. intros p Hp. apply E. revert p Hp.
  apply Forall_forall.
  apply (scroll_kept cfg (top_within cfg) (width_within cfg)).
  - intros top s0 Htop.
    pose proof (step_up_within top s0 Hmin Hup Htop) as H1.
    pose proof (draw_platform_width s0 Hw) as H2.
    destruct (Level.draw_platform cfg s0) as [[[gap w] step] s1].
    now split.
  - apply Forall_forall. intros p Hp. apply E. revert p Hp.
    now apply Forall_forall.
Qed.

Lemma produced_widths (l : Level.t) :
  widths_castable cfg ->
  produced cfg l ->
  Forall (fun p => True /\ width_within cfg (width p)) (Level.platforms l).
Proof.
  intros Hw.
  apply (produced_kept cfg (fun _ => True) (width_within cfg)); [exact I|].
  intros top s _. pose proof (draw_platform_width s Hw) as H.
  destruct (Level.draw_platform cfg s) as [[[gap w] step] s1].
  now split.
Qed.

End Ceiling.

(** C5 (as amended).  Take a platform of a level produced by [generate]
    and any number of calls of [scroll], in any configuration.
    - If [minPlatformY <= groundY - 20] then [minPlatformY <= yTop].
    - If moreover the draws fall within their requested ranges,
      [minPlatformY] is a binary32 value and the steps requested are not
      negative ([0 <= (int)stepUpMin <= (int)stepUpMax]), then
      [yTop <= groundY - 20].
    - If the draws fall within their requested ranges and the width bounds
      survive the cast to [int] made for the draw (as two whole numbers
      of the [int] range do), then
      [minPlatformWidth <= width <= maxPlatformWidth].
    - Under all these conditions the four bounds hold together, and one
      call of [scroll] keeps them on any level whose platforms have them
      (with tops that are binary32 values), produced or not. *)
Theorem platform_bounds {R : Raylib} (cfg : GameConfig) (l : Level.t)
        (p : Platform) :
  produced cfg l -> In p (Level.platforms l) ->
  (F32.leb (minPlatformY cfg) (F32.sub (groundY cfg) (F32.of_int 20)) = true
   -> F32.leb (minPlatformY cfg) (yTop p) = true)
  /\ (InRange -> binary32 (minPlatformY cfg) ->
      F32.leb (minPlatformY cfg) (F32.sub (groundY cfg) (F32.of_int 20))
      = true ->
      steps_upward cfg ->
      F32.leb (yTop p) (F32.sub (groundY cfg) (F32.of_int 20)) = true)
  /\ (InRange -> widths_castable cfg ->
      F32.leb (minPlatformWidth cfg) (width p) = true
      /\ F32.leb (width p) (maxPlatformWidth cfg) = true)
  /\ (InRange -> binary32 (minPlatformY cfg) ->
      F32.leb (minPlatformY cfg) (F32.sub (groundY cfg) (F32.of_int 20))
      = true ->
      steps_upward cfg -> widths_castable cfg ->
      within_bounds cfg p = true)
  /\ (InRange -> binary32 (minPlatformY cfg) ->
      steps_upward cfg -> widths_castable cfg ->
      forall (l' : Level.t) (dt : float) (s : Rng),
        Forall (fun p' => binary32 (yTop p') /\ within_bounds cfg p' = true)
               (Level.platforms l') ->
        Forall (fun p' => binary32 (yTop p') /\ within_bounds cfg p' = true)
               (Level.platforms (fst (Level.scroll dt cfg l' s)))).
Proof.
  intros Hl Hp.
  assert (Hfl : F32.leb (minPlatformY cfg)
                        (F32.sub (groundY cfg) (F32.of_int 20)) = true ->
                F32.leb (minPlatformY cfg) (yTop p) = true).
  { intros Hfloor. apply leb_refl_left in Hfloor.
    pose proof (produced_floor cfg Hfloor l Hl) as H.
    rewrite Forall_forall in H. now apply H. }
  assert (Htop : InRange -> binary32 (minPlatformY cfg) ->
                 F32.leb (minPlatformY cfg)
                         (F32.sub (groundY cfg) (F32.of_int 20)) = true ->
                 steps_upward cfg ->
                 F32.leb (yTop p) (F32.sub (groundY cfg) (F32.of_int 20))
                 = true).
  { intros Hr Hmin Hfloor Hup.
    pose proof (produced_ceiling Hr cfg l Hmin Hfloor Hup Hl) as H.
    rewrite Forall_forall in H. now destruct (H p Hp) as [(_ & _ & Hhi) _]. }
  assert (Hwd : InRange -> widths_castable cfg ->
                F32.leb (minPlatformWidth cfg) (width p) = true
                /\ F32.leb (width p) (maxPlatformWidth cfg) = true).
  { intros Hr Hw. pose proof (produced_widths Hr cfg l Hw Hl) as H.
    rewrite Forall_forall in H. now destruct (H p Hp) as [_ Hin]. }
  split; [exact Hfl|]. split; [exact Htop|]. split; [exact Hwd|]. split.
  - intros Hr Hmin Hfloor Hup Hw. unfold within_bounds.
    destruct (Hwd Hr Hw) as [-> ->].
    now rewrite Hfl, Htop.
  - intros Hr Hmin Hup Hw l' dt s. now apply scroll_bounds.
Qed.

(** With steps up of 15 to 36, a step of 36 takes the first platform from
    350 to 314, within the four bounds; so is the first platform of the
    default configuration, at 335. *)
Lemma platform_bounds_witness :
  within_bounds taller_steps_config (platform_at 1260 314 120) = true
  /\ within_bounds defaultConfig (platform_at 1260 335 120) = true.
Proof.
  split.
  - destruct (platform_bounds (R := Scripted) taller_steps_config
                (fst (Level.generate (R := Scripted) taller_steps_config
                                     (Level.make 1) [0; 0; 21]))
                (platform_at 1260 314 120))
      as (_ & _ & _ & Hall & _).
    + constructor.
    + vm_compute. auto.
    + apply Hall; try reflexivity.
      * exact scripted_in_range.
      * vm_compute. split; discriminate.
      * vm_compute. repeat split; discriminate.
  - destruct (platform_bounds (R := Scripted) defaultConfig
                (fst (Level.generate (R := Scripted) defaultConfig
                                     (Level.make 2) []))
                (platform_at 1260 335 120))
      as (_ & _ & _ & Hall & _).
    + constructor.
    + vm_compute. auto.
    + apply Hall; try reflexivity.
      * exact scripted_in_range.
      * vm_compute. split; discriminate.
      * vm_compute. repeat split; discriminate.
Defined.

(** C5 as stated fails: with a lower width bound of 120.5 the draw is
    requested from [(int)120.5, (int)200] = [120, 200]; the generator
    answers 120, within that range, and the platform is narrower than
    [minPlatformWidth], while [minPlatformY <= groundY - 20] holds. *)
Lemma platform_bounds_fractional_width :
  InRange (R := Scripted)
  /\ F32.leb (minPlatformY fractional_config)
             (F32.sub (groundY fractional_config) (F32.of_int 20)) = true
  /\ F32.to_int (minPlatformWidth fractional_config) = 120
  /\ exists p,
      In p (Level.platforms
              (fst (Level.generate (R := Scripted) fractional_config
                                   (Level.make 1) [])))
      /\ width p = F32.of_int 120
      /\ F32.leb (minPlatformWidth fractional_config) (width p) = false.
Proof.
  split; [exact scripted_in_range|]. repeat split.
  exists {| x := F32.of_int 1260; yTop := F32.of_int 335;
            width := F32.of_int 120; counted := false |}.
  repeat split. vm_compute. auto.
Qed.

(** The upper bound on [yTop] needs steps that are not negative: with
    steps requested from [-35, -15] the draw -35, within that range, takes
    the first platform from 350 down to 385, below the ceiling
    [groundY - 20], while [minPlatformY <= groundY - 20] holds. *)
Lemma platform_bounds_negative_step :
  InRange (R := Scripted)
  /\ F32.leb (minPlatformY downward_steps_config)
             (F32.sub (groundY downward_steps_config) (F32.of_int 20)) = true
  /\ F32.to_int (stepUpMin downward_steps_config) = -35
  /\ exists p,
      In p (Level.platforms
              (fst (Level.generate (R := Scripted) downward_steps_config
                                   (Level.make 1) [])))
      /\ yTop p = F32.of_int 385
      /\ F32.leb (yTop p)
                 (F32.sub (groundY downward_steps_config) (F32.of_int 20))
         = false.
Proof.
  split; [exact scripted_in_range|]. repeat split.
  exists (platform_at 1260 385 120).
  repeat split. vm_compute. auto.
Qed.

(** ** One frame of the game *)

Lemma tops_above_ground_true : tops_above_ground = true.
Proof. vm_compute. reflexivity. Qed.

Lemma tangent_clear_true : tangent_clear = true.
Proof. vm_compute. reflexivity. Qed.

(** Between the left and the right edge of a platform the closest point
    of its rectangle has the ball's own x. *)
Lemma hits_between (ballX ballY radius : float) (cfg : GameConfig)
      (p : Platform) :
  F32.leb (x p) ballX = true ->
  F32.geb (F32.add (x p) (width p)) ballX = true ->
  Level.hits ballX ballY radius cfg p
  = hits_inside ballX ballY radius (platformHeight cfg) (yTop p).
Proof.
  intros Hl Hr. unfold Level.hits, hits_inside, F32.gtb. cbv zeta.
  rewrite (leb_not_ltb _ _ Hl).
  unfold F32.geb in Hr. rewrite (leb_not_ltb _ _ Hr). reflexivity.
Qed.

(** [checkCollision] does not read the flag [counted]. *)
Lemma hits_awarded (bx r ballX ballY radius : float) (cfg : GameConfig)
      (p : Platform) :
  Level.hits ballX ballY radius cfg (awarded bx r p)
  = Level.hits ballX ballY radius cfg p.
Proof. unfold awarded. now destruct (Level.passed bx r p). Qed.

Lemma active_awardScore (ballX radius : float) (l : Level.t) :
  Level.active (snd (Level.awardScore ballX radius l))
  = map (awarded ballX radius) (Level.active l).
Proof.
  unfold Level.awardScore. rewrite award_loop_spec. cbn [snd].
  apply active_rebuilt. apply length_map.
Qed.

Lemma checkCollision_awardScore (bx r ballX ballY radius : float)
      (cfg : GameConfig) (l : Level.t) :
  Level.checkCollision ballX ballY radius cfg
                       (snd (Level.awardScore bx r l))
  = Level.checkCollision ballX ballY radius cfg l.
Proof.
  unfold Level.checkCollision. rewrite active_awardScore.
  induction (Level.active l) as [|p tl IH]; [reflexivity|].
  cbn [map existsb]. now rewrite hits_awarded, IH.
Qed.

Lemma in_active (l : Level.t) (p : Platform) :
  In p (Level.active l) -> In p (Level.platforms l).
Proof. rewrite <- (active_rest l). intros H. apply in_or_app. now left. Qed.

Section Frame.

Context {R : Raylib}.
Variables (dt : float) (keyDown : bool) (g : Game.t) (s : Rng).

(** The fields of [steps], one by one. *)
Lemma steps_physics :
  Game.physics (Game.steps dt keyDown g s)
  = Player.update dt keyDown (Game.config g) (Game.player g).
Proof.
  unfold Game.steps. destruct (Level.scroll _ _ _ _).
  destruct (Level.awardScore _ _ _). reflexivity.
Qed.

Lemma steps_scrolled :
  Game.scrolled (Game.steps dt keyDown g s)
  = fst (Level.scroll dt (Game.config g) (Game.level g) s).
Proof.
  unfold Game.steps. destruct (Level.scroll _ _ _ _).
  destruct (Level.awardScore _ _ _). reflexivity.
Qed.

Lemma steps_landing :
  let f := Game.steps dt keyDown g s in
  Game.landing f
  = Level.resolveLanding (Player.x (Game.physics f))
      (Player.y (Game.player g)) (Player.y (Game.physics f))
      (Player.vy (Game.physics f)) (radius (Game.config g))
      (Game.config g) (Game.scrolled f).
Proof.
  unfold Game.steps. destruct (Level.scroll _ _ _ _).
  destruct (Level.awardScore _ _ _). reflexivity.
Qed.

Lemma steps_settled :
  let f := Game.steps dt keyDown g s in
  Game.settled f
  = Player.setGrounded (Level.landed (Game.landing f))
      (Player.with_landing (Game.landing f) (Game.physics f)).
Proof.
  unfold Game.steps. destruct (Level.scroll _ _ _ _).
  destruct (Level.awardScore _ _ _). reflexivity.
Qed.

Lemma steps_scored :
  let f := Game.steps dt keyDown g s in
  (Game.gained f, Game.scored f)
  = Level.awardScore (Player.x (Game.settled f)) (radius (Game.config g))
                     (Game.scrolled f).
Proof.
  unfold Game.steps. destruct (Level.scroll _ _ _ _).
  destruct (Level.awardScore _ _ _) eqn:E. symmetry. exact E.
Qed.

Lemma steps_collision :
  let f := Game.steps dt keyDown g s in
  Game.collision f
  = Level.checkCollision (Player.x (Game.settled f))
      (Player.y (Game.settled f)) (radius (Game.config g))
      (Game.config g) (Game.scored f).
Proof.
  unfold Game.steps. destruct (Level.scroll _ _ _ _).
  destruct (Level.awardScore _ _ _). reflexivity.
Qed.

(** The collision test of the frame, on the level as scrolled. *)
Lemma steps_collision_scrolled :
  let f := Game.steps dt keyDown g s in
  Game.collision f
  = existsb (Level.hits (Player.x (Game.settled f))
                        (Player.y (Game.settled f))
                        (radius (Game.config g)) (Game.config g))
            (Level.active (Game.scrolled f)).
Proof.
  cbv zeta. rewrite steps_collision.
  pose proof steps_scored as H. cbv zeta in H.
  apply (f_equal snd) in H. cbn [snd] in H. rewrite H.
  apply checkCollision_awardScore.
Qed.

Lemma settled_hasLeftGround :
  Player.hasJumpedOnce (Game.settled (Game.steps dt keyDown g s))
  = Player.hasLeftGround (Game.player g).
Proof. rewrite steps_settled, steps_physics. reflexivity. Qed.

Lemma settled_x :
  Player.x (Game.settled (Game.steps dt keyDown g s))
  = Player.x (Game.player g).
Proof. rewrite steps_settled, steps_physics. reflexivity. Qed.

(** The flags after a call that gets past the early return. *)
Lemma update_gameOver :
  Game.gameOver g = false -> Game.levelComplete g = false ->
  let f := Game.steps dt keyDown g s in
  Game.gameOver (fst (Game.update dt keyDown g s))
  = Game.collision f
    || (Level.landedOnGround (Game.landing f)
        && Player.hasJumpedOnce (Game.settled f)).
Proof.
  intros Ho Hc. unfold Game.update. rewrite Ho, Hc. cbn [orb fst].
  cbn [Game.gameOver].
  destruct (Game.collision _); [reflexivity|].
  now destruct (_ && _).
Qed.

Lemma update_levelComplete :
  Game.gameOver g = false -> Game.levelComplete g = false ->
  Game.levelComplete (fst (Game.update dt keyDown g s))
  = (totalPlatforms (Game.config g)
     <=? Game.score g + Game.gained (Game.steps dt keyDown g s)).
Proof.
  intros Ho Hc. unfold Game.update. rewrite Ho, Hc. cbn [orb fst].
  cbn [Game.levelComplete].
  now destruct (_ <=? _).
Qed.

Lemma update_score :
  Game.gameOver g = false -> Game.levelComplete g = false ->
  Game.score (fst (Game.update dt keyDown g s))
  = Game.score g + Game.gained (Game.steps dt keyDown g s).
Proof.
  intros Ho Hc. unfold Game.update. now rewrite Ho, Hc.
Qed.

End Frame.

(** C8.  In a frame in which [resolveLanding] reports
    [landedOnGround = true]: if [hasLeftGround] is true the frame sets
    [gameOver]; if it is false and [checkCollision] returns false, the
    frame leaves [gameOver] false. *)
Theorem ground_touch_rule {R : Raylib} (dt : float) (keyDown : bool)
        (g : Game.t) (s : Rng) :
  Game.gameOver g = false -> Game.levelComplete g = false ->
  Level.landedOnGround (Game.landing (Game.steps dt keyDown g s)) = true ->
  (Player.hasLeftGround (Game.player g) = true ->
   Game.gameOver (fst (Game.update dt keyDown g s)) = true)
  /\ (Player.hasLeftGround (Game.player g) = false ->
      Game.collision (Game.steps dt keyDown g s) = false ->
      Game.gameOver (fst (Game.update dt keyDown g s)) = false).
Proof.
  intros Ho Hc Hg.
  rewrite (update_gameOver dt keyDown g s Ho Hc). cbv zeta.
  rewrite settled_hasLeftGround, Hg. split.
  - intros ->. apply orb_true_r.
  - intros -> ->. reflexivity.
Qed.

(** The ball at rest on the ground is pulled below the ground line by a
    frame of one second and put back: harmless before the first jump,
    deadly after it. *)
Lemma ground_touch_rule_witness :
  Game.gameOver
    (fst (Game.update (R := Scripted) (F32.of_int 1) false
                      (resting_game true) [])) = true
  /\ Game.gameOver
       (fst (Game.update (R := Scripted) (F32.of_int 1) false
                         (resting_game false) [])) = false.
Proof.
  split.
  - apply (ground_touch_rule (R := Scripted) (F32.of_int 1) false
             (resting_game true) []); reflexivity.
  - apply (ground_touch_rule (R := Scripted) (F32.of_int 1) false
             (resting_game false) []); reflexivity.
Defined.

(** C4 (as amended).  The two flags are terminal: a call of [update] on a
    state in which one of them is set changes nothing.  Hence both can be
    set only by one and the same call, from a state in which neither was
    set: a call in which the score reaches [totalPlatforms] while the ball
    dies (ground touch after a jump, or collision). *)
Theorem flags_terminal {R : Raylib} (dt : float) (keyDown : bool)
        (g : Game.t) (s : Rng) :
  (Game.gameOver g || Game.levelComplete g = true ->
   Game.update dt keyDown g s = (g, s))
  /\ (Game.gameOver g && Game.levelComplete g = false ->
      Game.gameOver (fst (Game.update dt keyDown g s)) = true ->
      Game.levelComplete (fst (Game.update dt keyDown g s)) = true ->
      Game.gameOver g = false /\ Game.levelComplete g = false
      /\ totalPlatforms (Game.config g)
         <= Game.score (fst (Game.update dt keyDown g s))
      /\ Game.collision (Game.steps dt keyDown g s)
         || (Level.landedOnGround (Game.landing (Game.steps dt keyDown g s))
             && Player.hasLeftGround (Game.player g)) = true).
Proof.
  split.
  - intros H. unfold Game.update. now rewrite H.
  - intros Hnot Ho' Hc'.
    destruct (Game.gameOver g) eqn:Ho; [|destruct (Game.levelComplete g) eqn:Hc].
    + (* the call changed nothing: levelComplete was set as well *)
      unfold Game.update in Hc'. rewrite Ho in Hc'. cbn in Hc'.
      rewrite Hc' in Hnot. discriminate.
    + unfold Game.update in Ho'. rewrite Ho, Hc in Ho'. cbn in Ho'.
      congruence.
    + rewrite (update_gameOver dt keyDown g s Ho Hc) in Ho'.
      rewrite (update_levelComplete dt keyDown g s Ho Hc) in Hc'.
      rewrite (update_score dt keyDown g s Ho Hc).
      cbv zeta in Ho'. rewrite settled_hasLeftGround in Ho'.
      repeat split; [now apply Z.leb_le | exact Ho'].
Qed.

(** A ball that jumped is back on the ground, one platform short of the
    total, while the last platform passes: the frame sets both flags. *)
Lemma flags_terminal_witness :
  Game.gameOver winning_game = false /\ Game.levelComplete winning_game = false
  /\ totalPlatforms (Game.config winning_game)
     <= Game.score (fst (Game.update (R := Scripted) (F32.of_int 1) false
                                     winning_game []))
  /\ Game.collision (Game.steps (R := Scripted) (F32.of_int 1) false
                                winning_game [])
     || (Level.landedOnGround
           (Game.landing (Game.steps (R := Scripted) (F32.of_int 1) false
                                     winning_game []))
         && Player.hasLeftGround (Game.player winning_game)) = true.
Proof.
  apply (flags_terminal (R := Scripted) (F32.of_int 1) false
           winning_game []); reflexivity.
Defined.

(** C4 as stated fails.  The ball is left on the ground for 240 frames of
    one second: no platform is low enough to touch it, and 199 platforms
    pass.  In the next frame the jump key is pressed; the frame lasts one
    second, the ball is back on the ground at its end, which is a death
    after a jump, and the 200th platform passes in that frame. *)
Lemma both_flags_in_one_frame :
  let g := fst (Game.run (R := Scripted) 450
                         (repeat idle_frame 240 ++ [jump_frame]) []) in
  Game.gameOver g = true /\ Game.levelComplete g = true.
Proof. vm_compute. split; reflexivity. Qed.

(** ** Player::update and the rotation *)

(** C9.  The code subtracts 360 once.  After [reset] the rotation is 0; a
    frame of two seconds adds 1260 and leaves 900, outside [0, 360). *)
Theorem rotation_not_wrapped :
  let p0 := Player.reset defaultConfig Player.init in
  let p1 := Player.update (F32.of_int 2) false defaultConfig p0 in
  F32.geb (F32.of_int 2) F32.zero = true
  /\ Player.rotation p0 = F32.zero
  /\ Player.rotation p1 = F32.of_int 900
  /\ F32.ltb (Player.rotation p1) (F32.of_int 360) = false.
Proof. vm_compute. repeat split. Qed.

(** ** The invariant of the game *)

Lemma awarded_shape (bx r : float) (p : Platform) :
  generated_shape p -> generated_shape (awarded bx r p).
Proof. unfold awarded. now destruct (Level.passed bx r p). Qed.

Section Invariant.

Context {R : Raylib}.
Hypothesis in_range : InRange.

Lemma reset_inv (g : Game.t) (s : Rng) :
  default_layout (Game.config g) -> game_inv (fst (Game.reset g s)).
Proof.
  intros Hc. unfold Game.reset.
  pose proof (generate_shape in_range _ Hc (Game.level g) s) as Hs.
  destruct (Level.generate (Game.config g) (Game.level g) s) as [l s1].
  cbn [fst] in *. repeat split; try assumption.
  cbn [Game.player Player.reset Player.x].
  assert (E : screenWidth (Game.config g) = 800).
  { destruct (Game.config g). unfold default_layout, layout in Hc.
    cbn in Hc. now injection Hc as. }
  rewrite E. reflexivity.
Qed.

Lemma start_inv (screenH : Z) (s : Rng) :
  game_inv (fst (Game.start screenH s)).
Proof. apply reset_inv. reflexivity. Qed.

Lemma handleInput_inv (pressed : bool) (g : Game.t) (s : Rng) :
  game_inv g -> game_inv (fst (Game.handleInput pressed g s)).
Proof.
  intros Hg. unfold Game.handleInput.
  destruct (_ || _).
  - destruct pressed; [|exact Hg]. apply reset_inv. apply Hg.
  - destruct (_ && _); [|exact Hg].
    destruct Hg as (Hc & Hx & Hs). repeat split; try assumption.
    cbn [fst Game.player]. unfold Player.startJump.
    now destruct (_ <=? _).
Qed.

Lemma update_inv (dt : float) (keyDown : bool) (g : Game.t) (s : Rng) :
  game_inv g -> game_inv (fst (Game.update dt keyDown g s)).
Proof.
  intros Hg. unfold Game.update. destruct (_ || _); [exact Hg|].
  destruct Hg as (Hc & Hx & Hs). cbn [fst]. repeat split.
  - exact Hc.
  - cbn [Game.player]. now rewrite settled_x.
  - cbn [Game.level].
    pose proof (steps_scored dt keyDown g s) as E. cbv zeta in E.
    apply (f_equal snd) in E. cbn [snd] in E. rewrite E.
    pose proof (awardScore_platforms
                  (Player.x (Game.settled (Game.steps dt keyDown g s)))
                  (radius (Game.config g))
                  (Game.scrolled (Game.steps dt keyDown g s))) as Hp.
    rewrite Hp, steps_scrolled.
    pose proof (scroll_shape in_range _ Hc dt (Game.level g) s Hs) as H.
    rewrite <- (active_rest _) in H. apply Forall_app in H as [Ha Hr].
    apply Forall_app. split; [|exact Hr].
    apply Forall_map. revert Ha. apply Forall_impl.
    intros p. apply awarded_shape.
Qed.

Lemma frame_inv (i : Input) (g : Game.t) (s : Rng) :
  game_inv g -> game_inv (fst (Game.frame i g s)).
Proof.
  intros Hg. unfold Game.frame.
  pose proof (handleInput_inv (keyPressed i) g s Hg) as H.
  destruct (Game.handleInput (keyPressed i) g s) as [g1 s1].
  now apply update_inv.
Qed.

Lemma frames_inv (ins : list Input) :
  forall g s, game_inv g -> game_inv (fst (Game.frames ins g s)).
Proof.
  induction ins as [|i tl IH]; intros g s Hg; [exact Hg|].
  cbn [Game.frames].
  pose proof (frame_inv i g s Hg) as H.
  destruct (Game.frame i g s) as [g1 s1]. now apply IH.
Qed.

(** Every state of every run satisfies the invariant. *)
Lemma run_inv (screenH : Z) (ins : list Input) (s : Rng) :
  game_inv (fst (Game.run screenH ins s)).
Proof.
  unfold Game.run.
  pose proof (start_inv screenH s) as H.
  destruct (Game.start screenH s) as [g s1]. now apply frames_inv.
Qed.

End Invariant.

(** ** Landing comes before the collision test *)

Lemma top_above_ground (cfg : GameConfig) (p : Platform) :
  default_layout cfg -> generated_shape p ->
  F32.ltb (yTop p) (groundY cfg) = true.
Proof.
  intros Hc [(n & Hn & ->) _].
  assert (E : groundY cfg = groundY defaultConfig).
  { destruct cfg. unfold default_layout, layout in Hc. cbn in Hc.
    now injection Hc as. }
  rewrite E. pose proof tops_above_ground_true as H.
  unfold tops_above_ground in H. rewrite forallb_forall in H.
  apply H. apply in_zrange. cbn. lia.
Qed.

(** The ball put on a platform of the generated shape does not collide
    with it. *)
Lemma tangent_no_hit (cfg : GameConfig) (p : Platform) :
  default_layout cfg -> generated_shape p ->
  F32.leb (x p) (F32.of_int 200) = true ->
  F32.geb (F32.add (x p) (width p)) (F32.of_int 200) = true ->
  Level.hits (F32.of_int 200) (F32.sub (yTop p) (radius cfg)) (radius cfg)
             cfg p = false.
Proof.
  intros Hc [(n & Hn & Htop) _] Hl Hr.
  rewrite hits_between by assumption. rewrite Htop.
  assert (E : radius cfg = F32.of_int 20 /\ platformHeight cfg = F32.of_int 14).
  { destruct cfg. unfold default_layout, layout in Hc. cbn in Hc.
    injection Hc as. now subst. }
  destruct E as [-> ->].
  pose proof tangent_clear_true as H. unfold tangent_clear in H.
  rewrite forallb_forall in H.
  apply negb_true_iff. apply H. apply in_zrange. cbn. lia.
Qed.

(** The collision test reads the rectangle of a platform only. *)
Lemma hits_same_rectangle (ballX ballY radius : float) (cfg : GameConfig)
      (p q : Platform) :
  same_rectangle p q ->
  Level.hits ballX ballY radius cfg p = Level.hits ballX ballY radius cfg q.
Proof.
  intros (Hx & Hy & Hw). unfold Level.hits. now rewrite Hx, Hy, Hw.
Qed.

(** C1.  In a frame of [Game::update] that gets past the early return, in
    a state of a run ([game_inv], which [run_inv] shows of every state of
    every run), [resolveLanding] is called before [checkCollision].
    When the ball, with [vy >= 0], crosses the top of a platform [q] within
    the frame, it is put on a platform [p] (the first of the highest ones
    crossed, [q] itself when it is the only one).  The state [g'] that
    [Game::update] returns has the ball on [p]: its player is the one
    moved by [Player::update], snapped and grounded, [y = yTop - radius],
    [vy = 0], [grounded] set.  At that position the distance test of
    [checkCollision] fails for [p]; the [gameOver] of [g'] is the result
    of [checkCollision] at the position of the ball of [g'] on the level
    of [g'], and it is false when the ball overlaps no other platform.
    The values [physics] and [scrolled] of the frame, on which the
    crossing is stated, are the results of [Player::update] and of
    [Level::scroll]. *)
Theorem landing_precedes_collision {R : Raylib} (dt : float)
        (keyDown : bool) (g : Game.t) (s : Rng) (q : Platform) :
  InRange -> game_inv g ->
  Game.gameOver g = false -> Game.levelComplete g = false ->
  let f := Game.steps dt keyDown g s in
  let cfg := Game.config g in
  let ballX := Player.x (Game.physics f) in
  let prevY := Player.y (Game.player g) in
  let y1 := Player.y (Game.physics f) in
  let g' := fst (Game.update dt keyDown g s) in
  F32.geb (Player.vy (Game.physics f)) F32.zero = true ->
  In q (Level.active (Game.scrolled f)) ->
  Level.crosses ballX prevY y1 (radius cfg) q = true ->
  exists k p,
    first_highest ballX prevY y1 (radius cfg)
                  (Level.active (Game.scrolled f)) k p
    /\ Game.landing f = platform_snap (radius cfg) p
    /\ Player.y (Game.settled f) = F32.sub (yTop p) (radius cfg)
    /\ Player.vy (Game.settled f) = F32.zero
    /\ Level.hits (Player.x (Game.settled f)) (Player.y (Game.settled f))
                  (radius cfg) cfg p = false
    /\ ((forall q', In q' (Level.active (Game.scrolled f)) ->
                    Level.hits (Player.x (Game.settled f))
                               (Player.y (Game.settled f))
                               (radius cfg) cfg q' = true -> q' = p) ->
        Game.gameOver (fst (Game.update dt keyDown g s)) = false)
    /\ Game.player g'
       = Player.setGrounded true
           (Player.with_landing (platform_snap (radius cfg) p)
              (Player.update dt keyDown cfg (Game.player g)))
    /\ Player.y (Game.player g') = F32.sub (yTop p) (radius cfg)
    /\ Player.vy (Game.player g') = F32.zero
    /\ Player.grounded (Game.player g') = true
    /\ Level.hits (Player.x (Game.player g')) (Player.y (Game.player g'))
                  (radius cfg) cfg p = false
    /\ Game.gameOver g'
       = Level.checkCollision (Player.x (Game.player g'))
           (Player.y (Game.player g')) (radius cfg) cfg (Game.level g')
    /\ ((forall q', In q' (Level.active (Game.level g')) ->
                    Level.hits (Player.x (Game.player g'))
                               (Player.y (Game.player g'))
                               (radius cfg) cfg q' = true ->
                    same_rectangle q' p) ->
        Game.gameOver g' = false)
    /\ Game.physics f = Player.update dt keyDown cfg (Game.player g)
    /\ Game.scrolled f = fst (Level.scroll dt cfg (Game.level g) s).
Proof.
  intros Hr (Hc & Hx & Hs) Ho Hcm f cfg ballX prevY y1 g' Hvy Hq Hcross.
  assert (Hshape : Forall generated_shape
                          (Level.platforms (Game.scrolled f))).
  { unfold f. rewrite steps_scrolled. now apply scroll_shape. }
  rewrite Forall_forall in Hshape.
  assert (Hbx : ballX = F32.of_int 200).
  { unfold ballX, f. rewrite steps_physics. exact Hx. }
  destruct (landing_loop_lands ballX prevY y1 (radius cfg) cfg
              (Level.active (Game.scrolled f)) q Hq Hcross)
    as (k & p & Hfh & Hst).
  { apply top_above_ground; [exact Hc|]. apply Hshape. now apply in_active. }
  assert (Hl : Game.landing f = platform_snap (radius cfg) p).
  { unfold f. rewrite steps_landing. cbv zeta. fold f. fold ballX prevY y1.
    unfold Level.resolveLanding. fold cfg. rewrite Hvy, Hst. reflexivity. }
  assert (Hset : Game.settled f
                 = Player.setGrounded true
                     (Player.with_landing (platform_snap (radius cfg) p)
                                          (Game.physics f))).
  { unfold f. rewrite steps_settled. fold f. now rewrite Hl. }
  assert (Hsx : Player.x (Game.settled f) = F32.of_int 200).
  { rewrite Hset. exact Hbx. }
  destruct Hfh as (Hk & Hp & Hmin & Hfst).
  assert (Hin : In p (Level.active (Game.scrolled f))).
  { now apply nth_error_In with k. }
  assert (Hhit : Level.hits (Player.x (Game.settled f))
                            (Player.y (Game.settled f))
                            (radius cfg) cfg p = false).
  { rewrite Hsx. rewrite Hset. cbn [Player.setGrounded Player.with_landing
                                     Player.y platform_snap Level.y'].
    pose proof Hp as Hp'. unfold Level.crosses in Hp'.
    rewrite !andb_true_iff in Hp'. destruct Hp' as [[_ Hleft] Hright].
    rewrite Hbx in Hleft, Hright.
    apply tangent_no_hit; try assumption.
    apply Hshape. now apply in_active. }
  assert (Hpl : Game.player g' = Game.settled f).
  { unfold g', Game.update. rewrite Ho, Hcm. reflexivity. }
  assert (Hlv : Game.level g' = Game.scored f).
  { unfold g', Game.update. rewrite Ho, Hcm. reflexivity. }
  assert (Hover : Game.gameOver g' = Game.collision f).
  { unfold g'. rewrite (update_gameOver dt keyDown g s Ho Hcm). cbv zeta.
    fold f. rewrite Hl. cbn [platform_snap Level.landedOnGround andb].
    apply orb_false_r. }
  assert (Hphys : Game.physics f
                  = Player.update dt keyDown cfg (Game.player g)).
  { unfold f. now rewrite steps_physics. }
  exists k, p. split; [now repeat split|]. split; [exact Hl|].
  split; [now rewrite Hset|]. split; [now rewrite Hset|].
  split; [exact Hhit|].
  split.
  { intros Hother. fold g'. rewrite Hover.
    unfold f. rewrite steps_collision_scrolled. fold f.
    fold cfg. destruct (existsb _ _) eqn:E; [|reflexivity].
    apply existsb_exists in E as (q' & Hq' & Hh).
    rewrite (Hother q' Hq' Hh) in Hh. congruence. }
  split; [now rewrite Hpl, Hset, Hphys|].
  split; [now rewrite Hpl, Hset|]. split; [now rewrite Hpl, Hset|].
  split; [now rewrite Hpl, Hset|].
  split; [now rewrite Hpl|].
  split.
  { rewrite Hover, Hpl, Hlv. unfold f. now rewrite steps_collision. }
  split; [|split; [exact Hphys | unfold f; apply steps_scrolled]].
  intros Hother. rewrite Hover.
  unfold f. rewrite steps_collision. fold f. fold cfg.
  unfold Level.checkCollision.
  destruct (existsb _ _) eqn:E; [|reflexivity].
  apply existsb_exists in E as (q' & Hq' & Hh).
  rewrite <- Hlv in Hq'. rewrite <- Hpl in Hh.
  pose proof (Hother q' Hq' Hh) as Hsame.
  rewrite Hpl in Hh.
  rewrite (hits_same_rectangle _ _ _ _ q' p Hsame) in Hh. congruence.
Qed.

Lemma falling_game_inv : game_inv falling_game.
Proof.
  repeat split. constructor; [|constructor].
  split; [exists 300 | exists 200]; split; try reflexivity; lia.
Qed.

(** The ball falls from 250 to 337.5 in a quarter of a second and crosses
    the top at 300 of the platform that moved from 100 to 45: the state
    returned by the frame has it at 280, at rest and grounded, and the game
    goes on. *)
Lemma landing_precedes_collision_witness :
  let g' := fst (Game.update (R := Scripted) quarter false
                             falling_game []) in
  Player.y (Game.player g') = F32.of_int 280
  /\ Player.vy (Game.player g') = F32.zero
  /\ Player.grounded (Game.player g') = true
  /\ Game.gameOver g' = false.
Proof.
  destruct (landing_precedes_collision (R := Scripted) quarter false
              falling_game []
              (shifted quarter defaultConfig (platform_at 100 300 200))
              scripted_in_range falling_game_inv eq_refl eq_refl
              eq_refl (or_introl eq_refl) eq_refl)
    as (k & p & Hfh & _ & _ & _ & _ & Hover & _ & Hy & Hvy & Hgr & _).
  assert (Hp : p = shifted quarter defaultConfig (platform_at 100 300 200)).
  { destruct Hfh as (Hk & _). apply nth_error_In in Hk.
    vm_compute in Hk. destruct Hk as [Hk | []]. rewrite <- Hk.
    vm_compute. reflexivity. }
  cbv zeta. split; [|split; [|split]].
  - rewrite Hy, Hp. vm_compute. reflexivity.
  - exact Hvy.
  - exact Hgr.
  - apply Hover. intros q' Hq' _. vm_compute in Hq'.
    destruct Hq' as [Hq' | []]. rewrite <- Hq', Hp. vm_compute. reflexivity.
Defined.

(** * Further properties *)

(** ** resolveLanding: the three outcomes *)

(** The call returns one of three results: the snap on a platform that the
    ball crossed and whose top is above the ground line, the ground snap,
    or the result that changes nothing. *)
Lemma resolveLanding_cases (ballX prevY y vy radius : float)
      (cfg : GameConfig) (l : Level.t) :
  (exists p,
      In p (Level.active l)
      /\ Level.crosses ballX prevY y radius p = true
      /\ F32.ltb (yTop p) (groundY cfg) = true
      /\ F32.geb vy F32.zero = true
      /\ Level.resolveLanding ballX prevY y vy radius cfg l
         = platform_snap radius p)
  \/ (F32.gtb y (groundY cfg) = true
      /\ Level.resolveLanding ballX prevY y vy radius cfg l
         = ground_snap cfg)
  \/ (F32.gtb y (groundY cfg) = false
      /\ Level.resolveLanding ballX prevY y vy radius cfg l
         = no_landing y vy).
Proof.
  unfold Level.resolveLanding.
  destruct (F32.geb vy F32.zero) eqn:Hvy.
  - destruct (landing_loop ballX prevY y radius (Level.active l)
                           (groundY cfg) false)
      as [[Hst _] | (k & p & (Hk & Hc & _) & Hst & Hlt)]; rewrite Hst.
    + cbn [snd]. destruct (F32.gtb y (groundY cfg)); auto.
    + left. exists p. apply nth_error_In in Hk. auto.
  - cbn [snd]. destruct (F32.gtb y (groundY cfg)); auto.
Qed.

(** X1.  When no platform crossed by the ball has its top above the ground
    line (in particular when there is no platform), the call is the ground
    snap if [y > groundY] and changes nothing otherwise. *)
Theorem resolveLanding_without_candidate
        (ballX prevY y vy radius : float) (cfg : GameConfig) (l : Level.t) :
  (forall q, In q (Level.active l) ->
             Level.crosses ballX prevY y radius q = true ->
             F32.ltb (yTop q) (groundY cfg) = false) ->
  Level.resolveLanding ballX prevY y vy radius cfg l
  = if F32.gtb y (groundY cfg) then ground_snap cfg else no_landing y vy.
Proof.
  intros Hnone.
  destruct (resolveLanding_cases ballX prevY y vy radius cfg l)
    as [(p & Hin & Hc & Hlt & _) | [[Hg ->] | [Hg ->]]].
  - rewrite (Hnone p Hin Hc) in Hlt. discriminate.
  - now rewrite Hg.
  - now rewrite Hg.
Qed.

(** A ball falling past the ground line beside the only platform. *)
Lemma resolveLanding_without_candidate_witness :
  Level.resolveLanding (F32.of_int 200) (F32.of_int 360) (F32.of_int 380)
                       (F32.of_int 500) (F32.of_int 20) defaultConfig
                       (level_of [platform_at 300 335 120])
  = ground_snap defaultConfig.
Proof.
  rewrite resolveLanding_without_candidate; [reflexivity|].
  intros q [<- | []]. discriminate.
Defined.

(** X2.  A landing always stops the ball ([vy = 0]); [landedOnGround] is
    reported only together with [landed], with the ball put exactly on the
    ground line, and only when it was below it; a landing that is not on
    the ground puts the ball on a platform that it crossed while moving
    down, and whose top is above the ground line. *)
Theorem resolveLanding_outcomes
        (ballX prevY y vy radius : float) (cfg : GameConfig) (l : Level.t) :
  let r := Level.resolveLanding ballX prevY y vy radius cfg l in
  (Level.landed r = true -> Level.vy' r = F32.zero)
  /\ (Level.landedOnGround r = true ->
      Level.landed r = true /\ Level.y' r = groundY cfg
      /\ F32.gtb y (groundY cfg) = true)
  /\ (Level.landed r = true -> Level.landedOnGround r = false ->
      F32.geb vy F32.zero = true
      /\ exists p,
          In p (Level.active l)
          /\ Level.crosses ballX prevY y radius p = true
          /\ F32.ltb (yTop p) (groundY cfg) = true
          /\ Level.y' r = F32.sub (yTop p) radius).
Proof.
  cbv zeta.
  destruct (resolveLanding_cases ballX prevY y vy radius cfg l)
    as [(p & Hin & Hc & Hlt & Hvy & ->) | [[Hg ->] | [Hg ->]]];
    cbn; repeat split; try discriminate; try assumption; try reflexivity.
  all: exists p; auto.
Qed.

Lemma resolveLanding_outcomes_witness :
  F32.geb (F32.of_int 600) F32.zero = true
  /\ exists p,
      In p (Level.active three_platforms)
      /\ Level.crosses (F32.of_int 200) (F32.of_int 270) (F32.of_int 330)
                       (F32.of_int 20) p = true
      /\ F32.ltb (yTop p) (groundY defaultConfig) = true
      /\ Level.y' (Level.resolveLanding (F32.of_int 200) (F32.of_int 270)
                     (F32.of_int 330) (F32.of_int 600) (F32.of_int 20)
                     defaultConfig three_platforms)
         = F32.sub (yTop p) (F32.of_int 20).
Proof.
  apply (resolveLanding_outcomes (F32.of_int 200) (F32.of_int 270)
           (F32.of_int 330) (F32.of_int 600) (F32.of_int 20)
           defaultConfig three_platforms); reflexivity.
Defined.

(** ** The sizes of the two pools *)

Section Sizes.

Context {R : Raylib}.
Variable cfg : GameConfig.

Lemma generate_platforms_length (n : nat) :
  forall cursor top s,
    length (fst (Level.generate_platforms cfg n cursor top s)) = n.
Proof.
  induction n as [|k IH]; intros cursor top s;
    cbn [Level.generate_platforms]; [reflexivity|].
  destruct (Level.draw_platform cfg s) as [[[gap w] step] s1].
  specialize (IH (F32.add cursor gap)
                 (F32.max (minPlatformY cfg) (F32.sub top step)) s1).
  destruct (Level.generate_platforms cfg k _ _ s1) as [ps s2].
  cbn [fst length] in *. now rewrite IH.
Qed.

Lemma generate_platforms_uncounted (n : nat) :
  forall cursor top s,
    Forall (fun p => counted p = false)
           (fst (Level.generate_platforms cfg n cursor top s)).
Proof.
  induction n as [|k IH]; intros cursor top s;
    cbn [Level.generate_platforms]; [constructor|].
  destruct (Level.draw_platform cfg s) as [[[gap w] step] s1].
  specialize (IH (F32.add cursor gap)
                 (F32.max (minPlatformY cfg) (F32.sub top step)) s1).
  destruct (Level.generate_platforms cfg k _ _ s1) as [ps s2].
  cbn [fst] in *. now constructor.
Qed.

Lemma generate_clouds_length (n : nat) :
  forall s, length (fst (Level.generate_clouds cfg n s)) = n.
Proof.
  induction n as [|k IH]; intros s; cbn [Level.generate_clouds];
    [reflexivity|].
  destruct (Level.new_cloud cfg s) as [c s1]. specialize (IH s1).
  destruct (Level.generate_clouds cfg k s1) as [cs s2].
  cbn [fst length] in *. now rewrite IH.
Qed.

Lemma scroll_clouds_length (dt : float) (cs : list Cloud) :
  forall s, length (fst (Level.scroll_clouds dt cfg cs s)) = length cs.
Proof.
  induction cs as [|c tl IH]; intros s; cbn [Level.scroll_clouds];
    [reflexivity|].
  destruct (F32.ltb _ _).
  - destruct (GetRandomValue 80 280 s) as [v1 s1].
    destruct (GetRandomValue 40 _ s1) as [v2 s2].
    destruct (GetRandomValue 70 130 s2) as [v3 s3].
    destruct (GetRandomValue 15 35 s3) as [v4 s4].
    specialize (IH s4).
    destruct (Level.scroll_clouds dt cfg tl s4) as [tl' s5].
    cbn [fst length] in *. now rewrite IH.
  - specialize (IH s).
    destruct (Level.scroll_clouds dt cfg tl s) as [tl' s5].
    cbn [fst length] in *. now rewrite IH.
Qed.

Lemma generate_fields (l : Level.t) (s : Rng) :
  let l' := fst (Level.generate cfg l s) in
  length (Level.platforms l') = Z.to_nat (Level.totalPlatforms l)
  /\ length (Level.clouds l') = Z.to_nat (cloudCount cfg)
  /\ Level.totalPlatforms l' = Level.totalPlatforms l
  /\ Forall (fun p => counted p = false) (Level.platforms l').
Proof.
  unfold Level.generate.
  pose proof (generate_platforms_length
                (Z.to_nat (Level.totalPlatforms l))
                (F32.add (F32.of_int (screenWidth cfg)) (F32.of_int 200))
                (F32.sub (groundY cfg) (F32.of_int 20)) s) as H1.
  pose proof (generate_platforms_uncounted
                (Z.to_nat (Level.totalPlatforms l))
                (F32.add (F32.of_int (screenWidth cfg)) (F32.of_int 200))
                (F32.sub (groundY cfg) (F32.of_int 20)) s) as H2.
  destruct (Level.generate_platforms cfg _ _ _ s) as [ps s1].
  pose proof (generate_clouds_length (Z.to_nat (cloudCount cfg)) s1) as H3.
  destruct (Level.generate_clouds cfg _ s1) as [cs s2].
  cbn [fst Level.platforms Level.clouds Level.totalPlatforms] in *.
  auto.
Qed.

Lemma scroll_fields (dt : float) (l : Level.t) (s : Rng) :
  let l' := fst (Level.scroll dt cfg l s) in
  length (Level.platforms l') = length (Level.platforms l)
  /\ length (Level.clouds l') = length (Level.clouds l)
  /\ Level.totalPlatforms l' = Level.totalPlatforms l.
Proof.
  unfold Level.scroll.
  pose proof (scroll_shift_platforms dt cfg (Level.active l) F32.zero) as Hs.
  destruct (Level.scroll_shift dt cfg (Level.active l) F32.zero) as [ps1 rm].
  cbn [fst] in Hs. subst ps1.
  pose proof (scroll_recycle_length cfg
                (map (shifted dt cfg) (Level.active l)) rm s) as H1.
  destruct (Level.scroll_recycle cfg _ rm s) as [[ps2 rm2] s1].
  pose proof (scroll_clouds_length dt (Level.clouds l) s1) as H2.
  destruct (Level.scroll_clouds dt cfg (Level.clouds l) s1) as [cs s2].
  cbn [fst Level.platforms Level.clouds Level.totalPlatforms] in *.
  repeat split; [|exact H2].
  rewrite length_app, H1, length_map, <- length_app, active_rest.
  reflexivity.
Qed.

End Sizes.



(** X4.  [scroll] keeps the two pools at their size: it neither adds nor
    removes a platform or a cloud, and leaves [totalPlatforms] alone. *)
Theorem scroll_sizes {R : Raylib} (dt : float) (cfg : GameConfig)
        (l : Level.t) (s : Rng) :
  let l' := fst (Level.scroll dt cfg l s) in
  length (Level.platforms l') = length (Level.platforms l)
  /\ length (Level.clouds l') = length (Level.clouds l)
  /\ Level.totalPlatforms l' = Level.totalPlatforms l.
Proof. apply scroll_fields. Qed.

(** ** awardScore: the account of the counted platforms *)

Lemma count_awarded (ballX radius : float) (ps : list Platform) :
  count_counted (map (awarded ballX radius) ps)
  = (count_counted ps
     + length (filter (Level.passed ballX radius) ps))%nat.
Proof.
  unfold count_counted.
  induction ps as [|p tl IH]; [reflexivity|].
  cbn [map filter]. unfold awarded at 1.
  destruct (Level.passed ballX radius p) eqn:Hp.
  - assert (Hc : counted p = false).
    { unfold Level.passed in Hp. apply andb_true_iff in Hp as [Hp _].
      now apply negb_true_iff in Hp. }
    rewrite Hc. cbn [mark_counted counted length]. rewrite IH. lia.
  - destruct (counted p); cbn [length]; rewrite IH; lia.
Qed.

Lemma awarded_only_counts (ballX radius : float) (ps : list Platform) :
  Forall2 only_counts ps (map (awarded ballX radius) ps).
Proof.
  induction ps as [|p tl IH]; [constructor|].
  cbn [map]. constructor; [|exact IH].
  unfold awarded. destruct (Level.passed ballX radius p);
    repeat split; auto.
Qed.

Lemma only_counts_refl (ps : list Platform) : Forall2 only_counts ps ps.
Proof.
  induction ps as [|p tl IH]; constructor; [|exact IH].
  repeat split; auto.
Qed.

(** X5.  [awardScore] touches nothing but the flags [counted], which it
    never clears; the number of counted platforms grows by exactly the
    value returned, which is at most the number of platforms visited. *)
Theorem awardScore_accounting (ballX radius : float) (l : Level.t) :
  let r := Level.awardScore ballX radius l in
  Forall2 only_counts (Level.platforms l) (Level.platforms (snd r))
  /\ Z.of_nat (count_counted (Level.platforms (snd r)))
     = Z.of_nat (count_counted (Level.platforms l)) + fst r
  /\ fst r <= Z.of_nat (length (Level.active l)).
Proof.
  cbv zeta. rewrite awardScore_platforms.
  unfold Level.awardScore. rewrite award_loop_spec. cbn [fst].
  rewrite <- (active_rest l) at 1 2. split; [|split].
  - apply Forall2_app; [apply awarded_only_counts | apply only_counts_refl].
  - unfold count_counted in *. rewrite !filter_app, !length_app.
    pose proof (count_awarded ballX radius (Level.active l)) as H.
    unfold count_counted in H. rewrite H. lia.
  - pose proof (filter_length_le (Level.passed ballX radius)
                                 (Level.active l)). lia.
Qed.

(** ** checkCollision *)

(** X6.  [checkCollision] reads the rectangles of the platforms visited and
    nothing else: two levels whose visited platforms have the same [x],
    [yTop] and [width] give the same answer, whatever their flags
    [counted], their clouds and the rest of their vectors. *)
Theorem checkCollision_geometry (ballX ballY radius : float)
        (cfg : GameConfig) (l1 l2 : Level.t) :
  Forall2 same_rectangle (Level.active l1) (Level.active l2) ->
  Level.checkCollision ballX ballY radius cfg l1
  = Level.checkCollision ballX ballY radius cfg l2.
Proof.
  unfold Level.checkCollision.
  induction 1 as [|p q ps qs (Hx & Hy & Hw) _ IH]; [reflexivity|].
  cbn [existsb]. rewrite IH. f_equal.
  unfold Level.hits. now rewrite Hx, Hy, Hw.
Qed.

Lemma checkCollision_geometry_witness :
  Level.checkCollision (F32.of_int 200) (F32.of_int 290) (F32.of_int 20)
                       defaultConfig counted_twin
  = Level.checkCollision (F32.of_int 200) (F32.of_int 290) (F32.of_int 20)
                         defaultConfig uncounted_twin.
Proof.
  apply checkCollision_geometry.
  repeat constructor.
Defined.

(** The sign of sums of squares. *)
Lemma round_not_negative (mx ex : Z) (lx : location) :
  not_negative (binary_round_aux F32.prec F32.emax false mx ex lx) = true.
Proof.
  unfold binary_round_aux.
  destruct (shr_fexp _ _ mx ex lx) as [mrs e1].
  destruct (shr_fexp _ _ _ e1 loc_Exact) as [mrs2 e2].
  destruct (shr_m mrs2); [reflexivity | | reflexivity].
  now destruct (Z.leb e2 _).
Qed.

Lemma square_not_negative (a : float) : not_negative (F32.mul a a) = true.
Proof.
  destruct a as [s|s| |s m e]; cbn; try reflexivity.
  - now destruct s.
  - replace (xorb s s) with false by now destruct s.
    apply round_not_negative.
Qed.

Lemma add_not_negative (a b : float) :
  not_negative a = true -> not_negative b = true ->
  not_negative (F32.add a b) = true.
Proof.
  destruct a as [s1|s1| |s1 m1 e1], b as [s2|s2| |s2 m2 e2];
    cbn [not_negative]; intros Ha Hb;
    try apply negb_true_iff in Ha; try apply negb_true_iff in Hb;
    subst; try reflexivity.
  - now destruct s1, s2.
  - unfold F32.add, SFadd. cbn [cond_Zopp Z.add binary_normalize].
    unfold binary_round.
    destruct (shl_align _ _ _) as [mz ez]. apply round_not_negative.
Qed.

Lemma not_negative_not_below_zero (a : float) (s : bool) :
  not_negative a = true -> F32.ltb a (S754_zero s) = false.
Proof.
  destruct a as [s1|s1| |s1 m1 e1]; cbn [not_negative]; intros Ha;
    try apply negb_true_iff in Ha; subst; reflexivity.
Qed.

(** X7.  A ball of radius zero never collides, wherever it is, NaN
    coordinates included: the test is strict and a sum of two squares is
    not below zero. *)
Theorem checkCollision_point (s : bool) (ballX ballY : float)
        (cfg : GameConfig) (l : Level.t) :
  Level.checkCollision ballX ballY (S754_zero s) cfg l = false.
Proof.
  unfold Level.checkCollision.
  induction (Level.active l) as [|p tl IH]; [reflexivity|].
  cbn [existsb]. rewrite IH, orb_false_r.
  unfold Level.hits. cbv zeta.
  replace (F32.mul (S754_zero s) (S754_zero s)) with (S754_zero false)
    by now destruct s.
  apply not_negative_not_below_zero.
  apply add_not_negative; apply square_not_negative.
Qed.

(** ** scroll: the tracker of the rightmost platform *)

Lemma scroll_shift_tracker (dt : float) (cfg : GameConfig)
      (ps : list Platform) :
  forall r0,
    F32.leb r0 r0 = true ->
    let rm := snd (Level.scroll_shift dt cfg ps r0) in
    F32.leb r0 rm = true
    /\ (rm = r0 \/ exists p, In p ps /\ x (shifted dt cfg p) = rm)
    /\ forall p, In p ps -> F32.gtb (x (shifted dt cfg p)) rm = false.
Proof.
  induction ps as [|p tl IH]; intros r0 Hr0.
  - cbn. repeat split; auto. intros p [].
  - cbn [Level.scroll_shift].
    set (x1 := F32.sub (x p) (F32.mul (scrollSpeed cfg) dt)).
    remember (if F32.gtb x1 r0 then x1 else r0) as r1 eqn:Er1.
    assert (Hr1 : F32.leb r1 r1 = true).
    { subst r1. destruct (F32.gtb x1 r0) eqn:E; [|exact Hr0].
      now apply ltb_refl_right in E. }
    assert (H01 : F32.leb r0 r1 = true).
    { subst r1. destruct (F32.gtb x1 r0) eqn:E; [|exact Hr0].
      now apply ltb_leb. }
    specialize (IH r1 Hr1).
    destruct (Level.scroll_shift dt cfg tl r1) as [tl' rm].
    cbn [snd] in *. destruct IH as (H1 & H2 & H3).
    split; [now apply leb_trans with r1|]. split.
    + destruct H2 as [-> | (q & Hq & Hx)].
      * destruct (F32.gtb x1 r0); [|now left].
        right. exists p. split; [now left | now symmetry].
      * right. exists q. split; [now right | exact Hx].
    + intros q [<- | Hq]; [|now apply H3].
      unfold F32.gtb. cbn [shifted x]. fold x1.
      destruct (F32.gtb x1 r0) eqn:E.
      * apply leb_not_ltb. now subst r1.
      * destruct (F32.ltb rm x1) eqn:E2; [|reflexivity].
        unfold F32.gtb in E.
        rewrite (leb_ltb_trans r0 rm x1) in E; [discriminate | | exact E2].
        now apply leb_trans with r1.
Qed.

(** X8.  After the first loop of [scroll] the tracker [rightMost] is not
    below zero, no platform is to the right of it, and it is either zero
    or the [x] of a platform: it is the largest of zero and the shifted
    positions, NaN positions being ignored. *)
Theorem scroll_rightMost_is_maximum (dt : float) (cfg : GameConfig)
        (l : Level.t) :
  let rightMost :=
    snd (Level.scroll_shift dt cfg (Level.active l) F32.zero) in
  F32.leb F32.zero rightMost = true
  /\ (rightMost = F32.zero
      \/ exists p, In p (Level.active l)
                   /\ x (shifted dt cfg p) = rightMost)
  /\ forall p, In p (Level.active l) ->
               F32.gtb (x (shifted dt cfg p)) rightMost = false.
Proof. apply scroll_shift_tracker. reflexivity. Qed.

(** ** The level climbs *)

Lemma tops_ordered_true : tops_ordered = true.
Proof. vm_compute. reflexivity. Qed.

Lemma of_int_lt_succ (n : Z) :
  20 <= n < 350 -> F32.ltb (F32.of_int n) (F32.of_int (n + 1)) = true.
Proof.
  intros Hn. pose proof tops_ordered_true as H. unfold tops_ordered in H.
  rewrite forallb_forall in H. apply H. apply in_zrange. cbn. lia.
Qed.

Lemma of_int_number (n : Z) :
  20 <= n <= 350 -> F32.leb (F32.of_int n) (F32.of_int n) = true.
Proof.
  intros Hn. destruct (Z.eq_dec n 350) as [-> | Hne].
  - apply (ltb_refl_right (F32.of_int 349)).
    apply (of_int_lt_succ 349). lia.
  - apply (leb_refl_left _ (F32.of_int (n + 1))). apply ltb_leb.
    apply of_int_lt_succ. lia.
Qed.

(** On 20..350 the conversion to binary32 keeps the order. *)
Lemma of_int_leb (k : nat) :
  forall a, 20 <= a -> a + Z.of_nat k <= 350 ->
            F32.leb (F32.of_int a) (F32.of_int (a + Z.of_nat k)) = true.
Proof.
  induction k as [|k IH]; intros a Ha Hb.
  - rewrite Z.add_0_r. apply of_int_number. lia.
  - apply leb_trans with (F32.of_int (a + Z.of_nat k)).
    + apply IH; lia.
    + replace (a + Z.of_nat (S k)) with (a + Z.of_nat k + 1) by lia.
      apply ltb_leb. apply of_int_lt_succ. lia.
Qed.

Lemma of_int_monotone (a b : Z) :
  20 <= a -> a <= b -> b <= 350 ->
  F32.leb (F32.of_int a) (F32.of_int b) = true.
Proof.
  intros Ha Hab Hb.
  replace b with (a + Z.of_nat (Z.to_nat (b - a))) by lia.
  apply of_int_leb; lia.
Qed.

Section Climb.

Context {R : Raylib}.
Hypothesis in_range : InRange.
Variable cfg : GameConfig.
Hypothesis default : default_layout cfg.

(** A step up from a top of 20..350 gives a top of 20..335 that is not
    greater. *)
Lemma step_up_not_greater (top : float) (s : Rng) :
  whole 20 350 top ->
  let '(gap, w, step, _) := Level.draw_platform cfg s in
  whole 20 335 (F32.max (minPlatformY cfg) (F32.sub top step))
  /\ F32.leb (F32.max (minPlatformY cfg) (F32.sub top step)) top = true.
Proof.
  intros (n & Hn & ->).
  destruct (draw_platform_whole in_range cfg default s)
    as (g & w & st & s' & -> & Hg & Hw & Hst).
  destruct (layout_ranges cfg default)
    as (_ & _ & _ & _ & _ & _ & -> & _).
  rewrite step_up_whole by assumption. split.
  - exists (Z.max 20 (n - st)). split; [lia | reflexivity].
  - apply of_int_monotone; lia.
Qed.

Lemma generate_platforms_descending (n : nat) :
  forall cursor top s,
    whole 20 350 top ->
    descending top (fst (Level.generate_platforms cfg n cursor top s))
    = true.
Proof.
  induction n as [|k IH]; intros cursor top s Htop;
    cbn [Level.generate_platforms]; [reflexivity|].
  pose proof (step_up_not_greater top s Htop) as Hstep.
  destruct (Level.draw_platform cfg s) as [[[gap w] step] s1].
  destruct Hstep as [(m & Hm & E) Hle].
  assert (Hy : whole 20 350
                 (F32.max (minPlatformY cfg) (F32.sub top step))).
  { exists m. split; [lia | exact E]. }
  specialize (IH (F32.add cursor gap) _ s1 Hy).
  destruct (Level.generate_platforms cfg k _ _ s1) as [ps s2].
  cbn [fst descending yTop] in *. now rewrite Hle, IH.
Qed.

Lemma scroll_recycle_not_lowered (ps : list Platform) :
  forall rm s,
    Forall generated_shape ps ->
    Forall2 not_lowered ps (fst (fst (Level.scroll_recycle cfg ps rm s))).
Proof.
  induction ps as [|p tl IH]; intros rm s Hps; [constructor|].
  inversion Hps as [|? ? Hp Htl]; subst.
  rewrite scroll_recycle_cons. cbn zeta.
  specialize (IH (if Level.off_screen p
                  then x (if Level.off_screen p
                          then recycled cfg rm s p else p)
                  else rm)
                 (if Level.off_screen p
                  then snd (Level.draw_platform cfg s) else s) Htl).
  destruct (Level.scroll_recycle cfg tl _ _) as [[tl' rm2] s2].
  cbn [fst] in *. constructor; [|exact IH].
  assert (Htop : whole 20 350 (yTop p)).
  { destruct Hp as [(m & Hm & E) _]. exists m. split; [lia | exact E]. }
  unfold not_lowered. destruct (Level.off_screen p).
  - unfold recycled.
    pose proof (step_up_not_greater (yTop p) s Htop) as Hstep.
    destruct (Level.draw_platform cfg s) as [[[gap w] step] s1].
    apply Hstep.
  - destruct Htop as (m & Hm & ->). now apply of_int_number.
Qed.

End Climb.

(** X9.  With the layout the game runs with and draws within their ranges,
    the platforms that [generate] lays out climb: the top of each is not
    greater than the top of the one before it, and the first is not below
    [groundY - 20]. *)
Theorem generate_climbs {R : Raylib} (cfg : GameConfig) (l : Level.t)
        (s : Rng) :
  InRange -> default_layout cfg ->
  descending (F32.sub (groundY cfg) (F32.of_int 20))
             (Level.platforms (fst (Level.generate cfg l s))) = true.
Proof.
  intros Hr Hc. unfold Level.generate.
  pose proof (generate_platforms_descending Hr cfg Hc
                (Z.to_nat (Level.totalPlatforms l))
                (F32.add (F32.of_int (screenWidth cfg)) (F32.of_int 200))
                (F32.sub (groundY cfg) (F32.of_int 20)) s) as H.
  destruct (Level.generate_platforms cfg _ _ _ s) as [ps s1].
  destruct (Level.generate_clouds cfg _ s1) as [cs s2].
  cbn [fst Level.platforms] in *. apply H.
  destruct (layout_ranges cfg Hc) as (_ & _ & _ & _ & _ & _ & _ & -> & _).
  exists 350. split; [lia | reflexivity].
Qed.

Lemma generate_climbs_witness :
  descending (F32.of_int 350)
             (Level.platforms
                (fst (Level.generate (R := Scripted) defaultConfig
                                     (Level.make 5) [7; 30; 4; 9; 2; 19])))
  = true.
Proof.
  apply (generate_climbs (R := Scripted) defaultConfig (Level.make 5)).
  - exact scripted_in_range.
  - reflexivity.
Defined.

(** X10.  With the layout the game runs with and draws within their
    ranges, [scroll] never lowers a platform of a level produced by
    [generate] and calls of [scroll]: in every slot the top after the call
    is not greater than the top before it, recycling included. *)
Theorem scroll_never_lowers {R : Raylib} (dt : float) (cfg : GameConfig)
        (l : Level.t) (s : Rng) :
  InRange -> default_layout cfg -> produced cfg l ->
  Forall2 not_lowered (Level.platforms l)
          (Level.platforms (fst (Level.scroll dt cfg l s))).
Proof.
  intros Hr Hc Hl.
  pose proof (produced_shape Hr cfg Hc l Hl) as Hs.
  rewrite <- (active_rest l) in Hs. apply Forall_app in Hs as [Ha Hrest].
  rewrite <- (active_rest l) at 1. unfold Level.scroll.
  pose proof (scroll_shift_platforms dt cfg (Level.active l) F32.zero) as E.
  destruct (Level.scroll_shift dt cfg (Level.active l) F32.zero) as [ps1 rm].
  cbn [fst] in E. subst ps1.
  pose proof (scroll_recycle_not_lowered Hr cfg Hc _ rm s
                (shifted_shape cfg dt _ Ha)) as H2.
  destruct (Level.scroll_recycle cfg _ rm s) as [[ps2 rm2] s1].
  destruct (Level.scroll_clouds dt cfg (Level.clouds l) s1) as [cs s2].
  cbn [fst Level.platforms] in *. apply Forall2_app.
  - clear Ha. revert ps2 H2.
    induction (Level.active l) as [|p tl IH]; intros ps2 H2;
      inversion H2; subst; constructor; auto.
  - clear Ha. induction (Level.rest l) as [|p tl IH]; [constructor|].
    inversion Hrest as [|? ? Hp Htl]; subst. constructor; [|now apply IH].
    destruct Hp as [(m & Hm & E) _]. unfold not_lowered. rewrite E.
    apply of_int_number. lia.
Qed.

Lemma scroll_never_lowers_witness :
  Forall2 not_lowered
    (Level.platforms
       (fst (Level.generate (R := Scripted) defaultConfig
                            (Level.make 3) [])))
    (Level.platforms
       (fst (Level.scroll (R := Scripted) (F32.of_int 7) defaultConfig
               (fst (Level.generate (R := Scripted) defaultConfig
                                    (Level.make 3) []))
               [5; 6; 7]))).
Proof.
  apply (scroll_never_lowers (R := Scripted)).
  - exact scripted_in_range.
  - reflexivity.
  - constructor.
Defined.

(** ** Runs of the game *)

Section Runs.

Context {R : Raylib}.

(** A property that [start] establishes and that [handleInput] and [update]
    keep holds of every state of every run. *)
Lemma run_invariant (P : Game.t -> Prop) :
  (forall screenH s, P (fst (Game.start screenH s))) ->
  (forall pressed g s, P g -> P (fst (Game.handleInput pressed g s))) ->
  (forall dt keyDown g s, P g -> P (fst (Game.update dt keyDown g s))) ->
  forall screenH ins s, P (fst (Game.run screenH ins s)).
Proof.
  intros Hstart Hinput Hupdate screenH ins s. unfold Game.run.
  specialize (Hstart screenH s).
  destruct (Game.start screenH s) as [g s1].
  cbn [fst] in Hstart. revert g s1 Hstart.
  induction ins as [|i tl IH]; intros g s1 Hg; [exact Hg|].
  cbn [Game.frames]. unfold Game.frame.
  specialize (Hinput (keyPressed i) g s1 Hg).
  destruct (Game.handleInput (keyPressed i) g s1) as [g1 s2].
  specialize (Hupdate (dt i) (keyDown i) g1 s2 Hinput).
  destruct (Game.update (dt i) (keyDown i) g1 s2) as [g2 s3].
  now apply IH.
Qed.

Lemma reset_config (g : Game.t) (s : Rng) :
  Game.config (fst (Game.reset g s)) = Game.config g.
Proof.
  unfold Game.reset. now destruct (Level.generate _ _ _).
Qed.

Lemma handleInput_config (pressed : bool) (g : Game.t) (s : Rng) :
  Game.config (fst (Game.handleInput pressed g s)) = Game.config g.
Proof.
  unfold Game.handleInput. destruct (_ || _).
  - destruct pressed; [apply reset_config | reflexivity].
  - now destruct (_ && _).
Qed.

Lemma update_config (dt : float) (keyDown : bool) (g : Game.t) (s : Rng) :
  Game.config (fst (Game.update dt keyDown g s)) = Game.config g.
Proof. unfold Game.update. now destruct (_ || _). Qed.

(** The state that [reset] builds. *)
Lemma reset_fields (g : Game.t) (s : Rng) :
  let g' := fst (Game.reset g s) in
  Game.player g' = Player.reset (Game.config g) (Game.player g)
  /\ Game.level g' = fst (Level.generate (Game.config g) (Game.level g) s)
  /\ Game.score g' = 0 /\ Game.gameOver g' = false
  /\ Game.levelComplete g' = false /\ Game.cameraOffsetY g' = F32.zero.
Proof.
  unfold Game.reset. now destruct (Level.generate _ _ _).
Qed.

(** What a call of [update] that gets past the early return leaves. *)
Lemma update_fields (dt : float) (keyDown : bool) (g : Game.t) (s : Rng) :
  terminal g = false ->
  let f := Game.steps dt keyDown g s in
  let g' := fst (Game.update dt keyDown g s) in
  Game.player g' = Game.settled f /\ Game.level g' = Game.scored f
  /\ Game.score g' = Game.score g + Game.gained f
  /\ Game.cameraOffsetY g'
     = F32.min F32.zero
         (F32.sub (Player.y (Game.settled f))
                  (F32.mul (F32.of_int (screenHeight (Game.config g)))
                           F32.c0_4)).
Proof.
  unfold terminal. intros Ht. unfold Game.update. rewrite Ht.
  repeat split.
Qed.

Lemma update_terminal (dt : float) (keyDown : bool) (g : Game.t) (s : Rng) :
  terminal g = true -> Game.update dt keyDown g s = (g, s).
Proof. unfold terminal. intros Ht. unfold Game.update. now rewrite Ht. Qed.

Lemma gained_bounds (dt : float) (keyDown : bool) (g : Game.t) (s : Rng) :
  0 <= Game.gained (Game.steps dt keyDown g s)
       <= Z.of_nat (length (Level.platforms (Game.level g))).
Proof.
  pose proof (steps_scored dt keyDown g s) as E. cbv zeta in E.
  apply (f_equal fst) in E. cbn [fst] in E. rewrite E.
  unfold Level.awardScore. rewrite award_loop_spec. cbn [fst].
  pose proof (filter_length_le
                (Level.passed
                   (Player.x (Game.settled (Game.steps dt keyDown g s)))
                   (radius (Game.config g)))
                (Level.active (Game.scrolled (Game.steps dt keyDown g s))))
    as H1.
  assert (H2 : (length (Level.active
                          (Game.scrolled (Game.steps dt keyDown g s)))
                <= length (Level.platforms (Game.level g)))%nat).
  { rewrite steps_scrolled.
    destruct (scroll_fields (Game.config g) dt (Game.level g) s)
      as (H & _).
    rewrite <- H. unfold Level.active. rewrite length_firstn.
    apply Nat.le_min_r. }
  lia.
Qed.

End Runs.

(** X11.  The configuration is fixed once [run] has scaled the three
    physics constants: no frame changes it, restarts included. *)
Theorem run_keeps_config {R : Raylib} (screenH : Z) (ins : list Input)
        (s : Rng) :
  Game.config (fst (Game.run screenH ins s))
  = Game.config (Game.scale_physics screenH Game.make).
Proof.
  unfold Game.run, Game.start.
  pose proof (reset_config (Game.scale_physics screenH Game.make) s) as H.
  destruct (Game.reset (Game.scale_physics screenH Game.make) s) as [g s1].
  cbn [fst] in H. rewrite <- H. clear H. revert g s1.
  induction ins as [|i tl IH]; intros g s1; [reflexivity|].
  cbn [Game.frames]. unfold Game.frame.
  pose proof (handleInput_config (keyPressed i) g s1) as H1.
  destruct (Game.handleInput (keyPressed i) g s1) as [g1 s2].
  pose proof (update_config (dt i) (keyDown i) g1 s2) as H2.
  destruct (Game.update (dt i) (keyDown i) g1 s2) as [g2 s3].
  cbn [fst] in *. rewrite IH. congruence.
Qed.

(** X12.  The camera never goes below its start: in every state of every
    run [cameraOffsetY <= 0], whatever the frame times and the keys. *)
Theorem run_camera_not_positive {R : Raylib} (screenH : Z)
        (ins : list Input) (s : Rng) :
  F32.leb (Game.cameraOffsetY (fst (Game.run screenH ins s))) F32.zero
  = true.
Proof.
  apply (run_invariant
           (fun g => F32.leb (Game.cameraOffsetY g) F32.zero = true)).
  - intros h s0. unfold Game.start.
    now destruct (reset_fields (Game.scale_physics h Game.make) s0)
      as (_ & _ & _ & _ & _ & ->).
  - intros pressed g s0 Hg. unfold Game.handleInput.
    destruct (_ || _).
    + destruct pressed; [|exact Hg].
      now destruct (reset_fields g s0) as (_ & _ & _ & _ & _ & ->).
    + now destruct (_ && _).
  - intros dt0 kd g s0 Hg. destruct (terminal g) eqn:Ht.
    + now rewrite update_terminal.
    + destruct (update_fields dt0 kd g s0 Ht) as (_ & _ & _ & ->).
      unfold F32.min. destruct (F32.ltb _ F32.zero) eqn:E.
      * now apply ltb_leb.
      * reflexivity.
Qed.

(** X13.  The ball has zero, one or two jumps left in every state of every
    run. *)
Theorem run_jumps_in_range {R : Raylib} (screenH : Z) (ins : list Input)
        (s : Rng) :
  0 <= Player.jumpsRemaining (Game.player (fst (Game.run screenH ins s)))
    <= 2.
Proof.
  apply (run_invariant
           (fun g => 0 <= Player.jumpsRemaining (Game.player g) <= 2)).
  - intros h s0. unfold Game.start.
    destruct (reset_fields (Game.scale_physics h Game.make) s0) as (-> & _).
    cbn. lia.
  - intros pressed g s0 Hg. unfold Game.handleInput.
    destruct (_ || _).
    + destruct pressed; [|exact Hg].
      destruct (reset_fields g s0) as (-> & _). cbn. lia.
    + destruct (_ && _); [|exact Hg].
      cbn [fst Game.player]. unfold Player.startJump.
      destruct (Player.jumpsRemaining (Game.player g) <=? 0) eqn:E;
        [exact Hg|].
      apply Z.leb_gt in E. cbn [Player.jumpsRemaining]. lia.
  - intros dt0 kd g s0 Hg. destruct (terminal g) eqn:Ht.
    + now rewrite update_terminal.
    + destruct (update_fields dt0 kd g s0 Ht) as (-> & _).
      rewrite steps_settled, steps_physics.
      cbn [Player.setGrounded Player.with_landing Player.update
           Player.jumpsRemaining].
      destruct (Level.landed _); [lia | exact Hg].
Qed.

(** X14.  In every state of every run the score is not negative and
    [levelComplete] is set exactly when the score has reached
    [totalPlatforms]. *)
Theorem run_complete_iff_score {R : Raylib} (screenH : Z)
        (ins : list Input) (s : Rng) :
  let g := fst (Game.run screenH ins s) in
  0 <= Game.score g
  /\ Game.levelComplete g
     = (totalPlatforms (Game.config g) <=? Game.score g).
Proof.
  cbv zeta.
  enough (H : score_inv (fst (Game.run screenH ins s))).
  { destruct H as (Ht & Hs & Hc). rewrite Ht. now split. }
  apply (run_invariant score_inv).
  - intros h s0. unfold Game.start, score_inv.
    rewrite reset_config.
    destruct (reset_fields (Game.scale_physics h Game.make) s0)
      as (_ & _ & -> & _ & -> & _).
    repeat split. lia.
  - intros pressed g s0 (Ht & Hs & Hc). unfold score_inv.
    rewrite handleInput_config. unfold Game.handleInput.
    destruct (_ || _).
    + destruct pressed; [|now repeat split].
      destruct (reset_fields g s0) as (_ & _ & -> & _ & -> & _).
      repeat split; [exact Ht | lia].
    + destruct (_ && _); now repeat split.
  - intros dt0 kd g s0 (Ht & Hs & Hc). unfold score_inv.
    rewrite update_config. destruct (terminal g) eqn:Hterm.
    + rewrite update_terminal by exact Hterm. now repeat split.
    + unfold terminal in Hterm. apply orb_false_iff in Hterm as [Ho Hl].
      rewrite (update_levelComplete dt0 kd g s0 Ho Hl).
      rewrite (update_score dt0 kd g s0 Ho Hl), Ht.
      pose proof (gained_bounds dt0 kd g s0).
      repeat split; try assumption; lia.
Qed.

(** X15.  A call of [update] never lowers the score, and raises it by at
    most the number of platforms. *)
Theorem update_score_grows {R : Raylib} (dt : float) (keyDown : bool)
        (g : Game.t) (s : Rng) :
  Game.score g <= Game.score (fst (Game.update dt keyDown g s))
  /\ Game.score (fst (Game.update dt keyDown g s))
     <= Game.score g + Z.of_nat (length (Level.platforms (Game.level g))).
Proof.
  destruct (terminal g) eqn:Ht.
  - rewrite update_terminal by exact Ht. cbn [fst]. lia.
  - destruct (update_fields dt keyDown g s Ht) as (_ & _ & -> & _).
    pose proof (gained_bounds dt keyDown g s). lia.
Qed.

(** ** The ball and the ground *)

Lemma landed_above_ground_true : landed_above_ground = true.
Proof. vm_compute. reflexivity. Qed.

Lemma snap_not_below_ground (cfg : GameConfig) (p : Platform) :
  default_layout cfg -> generated_shape p ->
  F32.gtb (F32.sub (yTop p) (radius cfg)) (groundY cfg) = false.
Proof.
  intros Hc [(n & Hn & ->) _].
  assert (E : radius cfg = F32.of_int 20
              /\ groundY cfg = groundY defaultConfig).
  { destruct cfg. unfold default_layout, layout in Hc. cbn in Hc.
    injection Hc as. now subst. }
  destruct E as [-> ->].
  pose proof landed_above_ground_true as H. unfold landed_above_ground in H.
  rewrite forallb_forall in H.
  apply negb_true_iff. apply H. apply in_zrange. cbn. lia.
Qed.

(** X16.  With draws within their ranges, the ball is never below the
    ground line at the end of a frame: in every state of every run
    [y > groundY] is false. *)
Theorem run_ball_not_below_ground {R : Raylib} (screenH : Z)
        (ins : list Input) (s : Rng) :
  InRange ->
  let g := fst (Game.run screenH ins s) in
  F32.gtb (Player.y (Game.player g)) (groundY (Game.config g)) = false.
Proof.
  intros Hr. cbv zeta.
  enough (H : game_inv (fst (Game.run screenH ins s))
              /\ F32.gtb (Player.y (Game.player
                                      (fst (Game.run screenH ins s))))
                         (groundY (Game.config
                                     (fst (Game.run screenH ins s))))
                 = false) by apply H.
  apply (run_invariant
           (fun g => game_inv g
                     /\ F32.gtb (Player.y (Game.player g))
                                (groundY (Game.config g)) = false)).
  - intros h s0. split; [now apply start_inv|].
    unfold Game.start. rewrite reset_config.
    destruct (reset_fields (Game.scale_physics h Game.make) s0) as (-> & _).
    reflexivity.
  - intros pressed g s0 [Hg Hy]. split; [now apply handleInput_inv|].
    rewrite handleInput_config. unfold Game.handleInput.
    destruct (_ || _).
    + destruct pressed; [|exact Hy].
      destruct (reset_fields g s0) as (-> & _).
      cbn [Player.reset Player.y]. apply ltb_irrefl.
    + destruct (_ && _); [|exact Hy].
      cbn [fst Game.player]. unfold Player.startJump.
      now destruct (_ <=? _).
  - intros dt0 kd g s0 [Hg Hy]. split; [now apply update_inv|].
    rewrite update_config. destruct (terminal g) eqn:Ht.
    + now rewrite update_terminal.
    + destruct (update_fields dt0 kd g s0 Ht) as (-> & _).
      rewrite steps_settled. cbv zeta.
      cbn [Player.setGrounded Player.with_landing Player.y].
      rewrite steps_landing. cbv zeta.
      destruct Hg as (Hc & Hx & Hs).
      destruct (resolveLanding_cases
                  (Player.x (Game.physics (Game.steps dt0 kd g s0)))
                  (Player.y (Game.player g))
                  (Player.y (Game.physics (Game.steps dt0 kd g s0)))
                  (Player.vy (Game.physics (Game.steps dt0 kd g s0)))
                  (radius (Game.config g)) (Game.config g)
                  (Game.scrolled (Game.steps dt0 kd g s0)))
        as [(p & Hin & _ & _ & _ & ->) | [[_ ->] | [Hgt ->]]].
      * cbn [platform_snap Level.y'].
        apply snap_not_below_ground; [exact Hc|].
        pose proof (scroll_shape Hr _ Hc dt0 (Game.level g) s0 Hs) as Hsh.
        rewrite Forall_forall in Hsh. apply Hsh. apply in_active.
        now rewrite <- (steps_scrolled dt0 kd g s0).
      * cbn [ground_snap Level.y']. apply ltb_irrefl.
      * exact Hgt.
Qed.

Lemma run_ball_not_below_ground_witness :
  F32.gtb (Player.y (Game.player
                       (fst (Game.run (R := Scripted) 450
                                      [jump_frame; idle_frame] []))))
          (groundY (Game.config
                      (fst (Game.run (R := Scripted) 450
                                     [jump_frame; idle_frame] []))))
  = false.
Proof.
  apply (run_ball_not_below_ground (R := Scripted)).
  exact scripted_in_range.
Defined.

(** ** The pools and the platforms of a run *)

Lemma awardScore_clouds (ballX radius : float) (l : Level.t) :
  Level.clouds (snd (Level.awardScore ballX radius l)) = Level.clouds l
  /\ Level.totalPlatforms (snd (Level.awardScore ballX radius l))
     = Level.totalPlatforms l
  /\ length (Level.platforms (snd (Level.awardScore ballX radius l)))
     = length (Level.platforms l).
Proof.
  rewrite awardScore_platforms.
  unfold Level.awardScore. rewrite award_loop_spec. cbn [snd].
  repeat split.
  rewrite length_app, length_map, <- length_app. now rewrite active_rest.
Qed.

Lemma reset_pools {R : Raylib} (g : Game.t) (s : Rng) :
  cloudCount (Game.config g) = 10 ->
  Level.totalPlatforms (Game.level g) = 200 ->
  pools_inv (fst (Game.reset g s)).
Proof.
  intros Hc Ht. unfold pools_inv. rewrite reset_config.
  destruct (reset_fields g s) as (_ & -> & _).
  destruct (generate_fields (Game.config g) (Game.level g) s)
    as (H1 & H2 & H3 & _).
  rewrite H1, H2, H3, Hc, Ht. repeat split.
Qed.

(** X17.  With draws within their ranges, in every state of every run the
    ball is at x = 200, the level holds 200 platforms and 10 clouds, every
    loop over the platforms visits all of them, and every platform
    satisfies the four bounds on [yTop] and [width]. *)
Theorem run_level_shape {R : Raylib} (screenH : Z) (ins : list Input)
        (s : Rng) :
  InRange ->
  let g := fst (Game.run screenH ins s) in
  Player.x (Game.player g) = F32.of_int 200
  /\ length (Level.platforms (Game.level g)) = 200%nat
  /\ length (Level.clouds (Game.level g)) = 10%nat
  /\ Level.active (Game.level g) = Level.platforms (Game.level g)
  /\ forall p, In p (Level.platforms (Game.level g)) ->
               within_bounds (Game.config g) p = true.
Proof.
  intros Hr. cbv zeta.
  enough (H : game_inv (fst (Game.run screenH ins s))
              /\ pools_inv (fst (Game.run screenH ins s))).
  { destruct H as [(Hc & Hx & Hs) (_ & Ht & Hp & Hcl)].
    repeat split; try assumption.
    - unfold Level.active. apply firstn_all2. rewrite Ht, Hp. cbn. lia.
    - intros p Hin. apply generated_shape_within; [exact Hc|].
      rewrite Forall_forall in Hs. now apply Hs. }
  apply (run_invariant (fun g => game_inv g /\ pools_inv g)).
  - intros h s0. split; [now apply start_inv|].
    unfold Game.start. now apply reset_pools.
  - intros pressed g s0 [Hg Hp]. split; [now apply handleInput_inv|].
    unfold Game.handleInput. destruct (_ || _).
    + destruct pressed; [|exact Hp]. apply reset_pools; apply Hp.
    + now destruct (_ && _).
  - intros dt0 kd g s0 [Hg (Hc & Ht & Hp & Hcl)].
    split; [now apply update_inv|].
    unfold pools_inv. rewrite update_config.
    destruct (terminal g) eqn:Hterm.
    + rewrite update_terminal by exact Hterm. now repeat split.
    + destruct (update_fields dt0 kd g s0 Hterm) as (_ & -> & _).
      pose proof (steps_scored dt0 kd g s0) as E. cbv zeta in E.
      apply (f_equal snd) in E. cbn [snd] in E. rewrite E.
      destruct (awardScore_clouds
                  (Player.x (Game.settled (Game.steps dt0 kd g s0)))
                  (radius (Game.config g))
                  (Game.scrolled (Game.steps dt0 kd g s0)))
        as (-> & -> & ->).
      rewrite steps_scrolled.
      destruct (scroll_fields (Game.config g) dt0 (Game.level g) s0)
        as (-> & -> & ->).
      now repeat split.
Qed.

Lemma run_level_shape_witness :
  length (Level.platforms
            (Game.level (fst (Game.run (R := Scripted) 450
                                       [jump_frame; idle_frame] []))))
  = 200%nat.
Proof.
  apply (run_level_shape (R := Scripted) 450 [jump_frame; idle_frame] []).
  exact scripted_in_range.
Defined.

(** ** Frames *)

Lemma settled_keeps_hasLeftGround {R : Raylib} (dt : float)
      (keyDown : bool) (g : Game.t) (s : Rng) :
  Player.hasLeftGround (Game.settled (Game.steps dt keyDown g s))
  = Player.hasLeftGround (Game.player g).
Proof. exact (settled_hasLeftGround dt keyDown g s). Qed.

(** X18.  In a frame of a game that is not over, [hasLeftGround] is set
    exactly when it was set or a jump starts (the key is pressed and a
    jump is left): nothing clears it but a restart, and nothing else sets
    it. *)
Theorem frame_hasLeftGround {R : Raylib} (i : Input) (g : Game.t)
        (s : Rng) :
  terminal g = false ->
  Player.hasLeftGround (Game.player (fst (Game.frame i g s)))
  = Player.hasLeftGround (Game.player g)
    || (keyPressed i && Player.canJump (Game.player g)).
Proof.
  intros Ht. unfold Game.frame, Game.handleInput.
  unfold terminal in Ht. rewrite Ht. rewrite andb_comm.
  destruct (keyPressed i && Player.canJump (Game.player g)) eqn:E.
  - match goal with
    | |- context [Game.update ?a ?b ?g1 ?s1] =>
        assert (Ht1 : terminal g1 = false) by exact Ht;
        destruct (update_fields a b g1 s1 Ht1) as (-> & _);
        rewrite (settled_keeps_hasLeftGround a b g1 s1)
    end.
    cbn [Game.player]. unfold Player.startJump.
    apply andb_true_iff in E as [_ E]. unfold Player.canJump in E.
    apply Z.ltb_lt in E.
    destruct (Player.jumpsRemaining (Game.player g) <=? 0) eqn:E2.
    + apply Z.leb_le in E2. lia.
    + cbn [Player.hasLeftGround]. now rewrite orb_true_r.
  - destruct (update_fields (dt i) (keyDown i) g s Ht) as (-> & _).
    rewrite (settled_keeps_hasLeftGround (dt i) (keyDown i) g s).
    now rewrite orb_false_r.
Qed.

Lemma frame_hasLeftGround_witness :
  Player.hasLeftGround
    (Game.player (fst (Game.frame (R := Scripted) jump_frame
                                  (resting_game false) [])))
  = true.
Proof.
  rewrite (frame_hasLeftGround (R := Scripted) jump_frame
             (resting_game false) []); reflexivity.
Defined.

(** X19.  A game that is over stays as it is, generator included, through
    any number of frames in which the key is not pressed. *)
Theorem frames_after_the_end {R : Raylib} (ins : list Input) (g : Game.t)
        (s : Rng) :
  terminal g = true ->
  Forall (fun i => keyPressed i = false) ins ->
  Game.frames ins g s = (g, s).
Proof.
  intros Ht Hins. induction Hins as [|i tl Hi _ IH]; [reflexivity|].
  cbn [Game.frames]. unfold Game.frame, Game.handleInput.
  unfold terminal in Ht. rewrite Ht, Hi.
  rewrite update_terminal by exact Ht. exact IH.
Qed.

Lemma frames_after_the_end_witness :
  Game.frames (R := Scripted) two_idle_frames lost_game [3; 4]
  = (lost_game, [3; 4]).
Proof.
  apply (frames_after_the_end (R := Scripted)).
  - reflexivity.
  - repeat constructor.
Defined.

(** X20.  After a call of [update] that gets past the early return the
    player is [grounded] exactly when [resolveLanding] reported a landing.
    If it did, the jumps are refilled to 2, [isJumping] is cleared and the
    ball is at rest; if not, the jumps and [isJumping] are as before the
    call and the ball keeps the position and the speed that
    [player.update] gave it. *)
Theorem update_grounded {R : Raylib} (dt : float) (keyDown : bool)
        (g : Game.t) (s : Rng) :
  terminal g = false ->
  let f := Game.steps dt keyDown g s in
  let p := Game.player (fst (Game.update dt keyDown g s)) in
  Player.grounded p = Level.landed (Game.landing f)
  /\ (Level.landed (Game.landing f) = true ->
      Player.jumpsRemaining p = 2 /\ Player.isJumping p = false
      /\ Player.vy p = F32.zero)
  /\ (Level.landed (Game.landing f) = false ->
      Player.jumpsRemaining p = Player.jumpsRemaining (Game.player g)
      /\ Player.isJumping p = Player.isJumping (Game.player g)
      /\ Player.y p = Player.y (Game.physics f)
      /\ Player.vy p = Player.vy (Game.physics f)).
Proof.
  intros Ht. cbv zeta.
  destruct (update_fields dt keyDown g s Ht) as (-> & _).
  rewrite steps_settled. cbv zeta.
  cbn [Player.setGrounded Player.with_landing Player.grounded
       Player.jumpsRemaining Player.isJumping Player.vy Player.y].
  split; [reflexivity|].
  rewrite steps_landing. cbv zeta.
  destruct (resolveLanding_cases
              (Player.x (Game.physics (Game.steps dt keyDown g s)))
              (Player.y (Game.player g))
              (Player.y (Game.physics (Game.steps dt keyDown g s)))
              (Player.vy (Game.physics (Game.steps dt keyDown g s)))
              (radius (Game.config g)) (Game.config g)
              (Game.scrolled (Game.steps dt keyDown g s)))
    as [(p & _ & _ & _ & _ & ->) | [[_ ->] | [_ ->]]];
    cbn; (split; [intros E | intros E]); try discriminate;
    rewrite ?steps_physics; repeat split.
Qed.

Lemma update_grounded_witness :
  Player.grounded
    (Game.player (fst (Game.update (R := Scripted) quarter false
                                   falling_game [])))
  = Level.landed (Game.landing (Game.steps (R := Scripted) quarter false
                                           falling_game [])).
Proof.
  apply (update_grounded (R := Scripted) quarter false falling_game []).
  reflexivity.
Defined.
